(** * Credential pool, proxy pool, request executor and stream translator

    A shallow embedding of the gateway core of this repository
    ([app/services/grok/token.py], [app/core/proxy_pool.py],
    [app/services/grok/client.py], [app/services/grok/processer.py]),
    with the properties its specification states about it.

    Conventions.
    - A Python [str] is a Rocq [string], one [ascii] per code point (code
      points below 256); Python integers are [Z].
    - A Python [dict] whose iteration order matters is an association list
      in insertion order.
    - A [dict] key read with [d.get(key, default)] is an [option] field. *)

From Stdlib Require Import ZArith QArith List String Ascii Bool Lia DecimalString.
Import ListNotations.
Open Scope string_scope.
Open Scope Z_scope.

(** ** Python string primitives used by the sources *)

Module Py.

(** [str.isspace] on one character, for code points below 256. *)
Definition is_space (c : ascii) : bool :=
  let n := nat_of_ascii c in
  ((9 <=? n) && (n <=? 13))%nat || ((28 <=? n) && (n <=? 32))%nat
  || (n =? 133)%nat || (n =? 160)%nat.

Fixpoint lstrip (s : string) : string :=
  match s with
  | String c s' => if is_space c then lstrip s' else s
  | EmptyString => EmptyString
  end.

Fixpoint rstrip (s : string) : string :=
  match s with
  | String c s' =>
      match rstrip s' with
      | EmptyString => if is_space c then EmptyString else String c EmptyString
      | r => String c r
      end
  | EmptyString => EmptyString
  end.

(** [s.strip()] *)
Definition strip (s : string) : string := rstrip (lstrip s).

(** Truth value of a string: [bool(s)]. *)
Definition truthy (s : string) : bool :=
  match s with EmptyString => false | _ => true end.

(** [s.startswith(p)] *)
Fixpoint startswith (s p : string) {struct p} : bool :=
  match p with
  | EmptyString => true
  | String a p' =>
      match s with
      | String b s' => Ascii.eqb a b && startswith s' p'
      | EmptyString => false
      end
  end.

(** [s[n:]] *)
Fixpoint drop (n : nat) (s : string) : string :=
  match n, s with
  | S n', String _ s' => drop n' s'
  | _, _ => s
  end.

(** [s.replace(old, new, 1)] for a non-empty [old]. *)
Fixpoint replace1 (old new s : string) : string :=
  if startswith s old then new ++ drop (length old) s
  else match s with
       | String c s' => String c (replace1 old new s')
       | EmptyString => EmptyString
       end.

(** [sub in s] *)
Fixpoint contains (sub s : string) : bool :=
  startswith s sub ||
  match s with
  | String _ s' => contains sub s'
  | EmptyString => false
  end.

(** [s.split(sep)] for a non-empty [sep]: [skip] characters of a matched
    separator are still to be passed over, [cur] is the piece being read. *)
Fixpoint split_go (sep : string) (skip : nat) (cur s : string) : list string :=
  match s with
  | EmptyString => [cur]
  | String c s' =>
      match skip with
      | S k => split_go sep k cur s'
      | O =>
          if startswith s sep
          then cur :: split_go sep (length sep - 1) EmptyString s'
          else split_go sep O (cur ++ String c EmptyString) s'
      end
  end.

Definition split (s sep : string) : list string := split_go sep O EmptyString s.

(** [str(n)] for an integer. *)
Definition str_of_Z (n : Z) : string := NilZero.string_of_int (Z.to_int n).

End Py.

Example strip_ex : Py.strip "  socks5://h:1 " = "socks5://h:1".
Proof. reflexivity. Qed.

Example split_ex :
  Py.split "sso-rw=abc;sso=abc;cf=1" "sso=" = ["sso-rw=abc;"; "abc;cf=1"].
Proof. reflexivity. Qed.

Example str_of_Z_ex : Py.str_of_Z 429 = "429" /\ Py.str_of_Z (-1) = "-1".
Proof. split; reflexivity. Qed.

(** ** Insertion-ordered dictionaries (Python [dict] with [str] keys) *)

Module Dict.

Section Ops.
Context {V : Type}.

Definition t := list (string * V).

(** [d.get(k)] / [d[k]] *)
Fixpoint get (d : t) (k : string) : option V :=
  match d with
  | [] => None
  | (k', v) :: d' => if String.eqb k k' then Some v else get d' k
  end.

(** [k in d] *)
Definition mem (d : t) (k : string) : bool :=
  match get d k with Some _ => true | None => false end.

(** [d[k] = v]: an existing key keeps its place, a new key goes last. *)
Fixpoint set (d : t) (k : string) (v : V) : t :=
  match d with
  | [] => [(k, v)]
  | (k', v') :: d' =>
      if String.eqb k k' then (k', v) :: d' else (k', v') :: set d' k v
  end.

Lemma get_set_same d k v : get (set d k v) k = Some v.
Proof.
  induction d as [|[k' v'] d IH]; simpl.
  - now rewrite String.eqb_refl.
  - destruct (String.eqb k k') eqn:E; simpl; rewrite E; auto.
Qed.

Lemma get_set_other d k k' v : k <> k' -> get (set d k v) k' = get d k'.
Proof.
  intros Hne. induction d as [|[k0 v0] d IH]; simpl.
  - destruct (String.eqb_spec k' k); congruence.
  - destruct (String.eqb_spec k k0); simpl.
    + subst k0. destruct (String.eqb_spec k' k); congruence.
    + now rewrite IH.
Qed.

Lemma keys_set_mem d k v :
  mem d k = true -> map fst (set d k v) = map fst d.
Proof.
  unfold mem. induction d as [|[k' v'] d IH]; simpl; [discriminate|].
  destruct (String.eqb k k') eqn:E; simpl; [reflexivity|].
  intros H. now rewrite IH.
Qed.

Lemma get_In d k v : get d k = Some v -> In (k, v) d.
Proof.
  induction d as [|[k' v'] d IH]; simpl; [discriminate|].
  destruct (String.eqb_spec k k').
  - intros [= ->]. subst. now left.
  - intros H. right. auto.
Qed.

End Ops.
Arguments t : clear implicits.

End Dict.

(** ** The credential pool ([app/services/grok/token.py]) *)

Module Token.

Definition MAX_FAILURES : Z := 3.
Definition TOKEN_INVALID : Z := 401.
Definition STATSIG_INVALID : Z := 403.

(** One credential record, as [add_token] writes it.  The four keys the
    manager reads with [data.get(key, default)] may be absent from a record
    loaded from the durable store; [lastFailureTime] and [lastFailureReason]
    are [None] for JSON [null].  A record is never the empty dict, which
    [record_failure] and [reset_failure] would take for a missing one. *)
Record TokenData := {
  createdTime : Z;
  remainingQueries : option Z;
  heavyremainingQueries : option Z;
  status : option string;
  failedCount : option Z;
  lastFailureTime : option Z;
  lastFailureReason : option string;
  tags : list string;
  note : string
}.

(** The two partitions of the store, [TokenType.NORMAL] and
    [TokenType.SUPER]. *)
Inductive TokenType := NORMAL | SUPER.

Record TokenStore := {
  normal : Dict.t TokenData;
  super : Dict.t TokenData
}.

Definition partition (td : TokenStore) (ty : TokenType) : Dict.t TokenData :=
  match ty with NORMAL => normal td | SUPER => super td end.

Definition set_partition (td : TokenStore) (ty : TokenType)
  (p : Dict.t TokenData) : TokenStore :=
  match ty with
  | NORMAL => {| normal := p; super := super td |}
  | SUPER => {| normal := normal td; super := p |}
  end.

(** The manager: the in-memory store and the dirty flag of the batched
    flush. *)
Record Manager := {
  token_data : TokenStore;
  _save_pending : bool
}.

Definition _mark_dirty (self : Manager) : Manager :=
  {| token_data := token_data self; _save_pending := true |}.

Inductive GrokApiException :=
| NO_AVAILABLE_TOKEN (model : string) (n_normal n_super : nat).

(** [data.get("status") == "expired"] *)
Definition is_expired (data : TokenData) : bool :=
  match status data with
  | Some s => String.eqb s "expired"
  | None => false
  end.

(** [data.get("failedCount", 0)] *)
Definition get_failedCount (data : TokenData) : Z :=
  match failedCount data with Some n => n | None => 0 end.

(** [int(data.get(field, -1))] *)
Definition get_remaining (data : TokenData) (field : string) : Z :=
  let v :=
    if String.eqb field "remainingQueries" then remainingQueries data
    else if String.eqb field "heavyremainingQueries"
         then heavyremainingQueries data
         else None in
  match v with Some n => n | None => -1 end.

(** [used.sort(key=lambda x: x[1], reverse=True)]: the sort is stable, so
    its result is the one of this stable insertion sort. *)
Fixpoint insert_desc (x : string * Z) (l : list (string * Z)) :=
  match l with
  | [] => [x]
  | y :: l' => if snd y >? snd x then y :: insert_desc x l' else x :: l
  end.

Definition sort_desc (l : list (string * Z)) : list (string * Z) :=
  fold_right insert_desc [] l.

(** One iteration of the loop of [select_best]. *)
Definition select_step (field : string)
  (acc : list string * list (string * Z)) (kv : string * TokenData) :=
  let '(unused, used) := acc in
  let '(key, data) := kv in
  if is_expired data then acc
  else if get_failedCount data >=? MAX_FAILURES then acc
  else
    let remaining := get_remaining data field in
    if remaining =? 0 then acc
    else if remaining =? -1 then ((unused ++ [key])%list, used)
    else if remaining >? 0 then (unused, (used ++ [(key, remaining)])%list)
    else acc.

Definition select_best (tokens : Dict.t TokenData) (field : string)
  : option (string * Z) :=
  let '(unused, used) := fold_left (select_step field) tokens ([], []) in
  match unused with
  | key :: _ => Some (key, -1)
  | [] =>
      match sort_desc used with
      | (key, remaining) :: _ => Some (key, remaining)
      | [] => None
      end
  end.

(** [_reload_if_needed]: in file mode the in-memory store is replaced by the
    content of the durable file when it can be read ([file = Some _]). *)
Definition _reload_if_needed (storage_mode : bool) (file : option TokenStore)
  (td : TokenStore) : TokenStore :=
  if storage_mode then td
  else match file with Some d => d | None => td end.

(** [select_token], on the store as it stands after [_reload_if_needed]. *)
Definition select_token (td : TokenStore) (model : string)
  : GrokApiException + string :=
  let r :=
    if String.eqb model "grok-4-heavy"
    then select_best (super td) "heavyremainingQueries"
    else match select_best (normal td) "remainingQueries" with
         | Some r => Some r
         | None => select_best (super td) "remainingQueries"
         end in
  match r with
  | Some (token_key, _) => inr token_key
  | None =>
      inl (NO_AVAILABLE_TOKEN model (List.length (normal td))
             (List.length (super td)))
  end.

(** [get_token] *)
Definition get_token (td : TokenStore) (model : string)
  : GrokApiException + string :=
  match select_token td model with
  | inr jwt => inr ("sso-rw=" ++ jwt ++ ";sso=" ++ jwt)
  | inl e => inl e
  end.

(** [_extract_sso] *)
Definition _extract_sso (auth_token : string) : option string :=
  if Py.contains "sso=" auth_token
  then Some (nth 0 (Py.split (nth 1 (Py.split auth_token "sso=") "") ";") "")
  else None.

(** [_find_token] *)
Definition _find_token (td : TokenStore) (sso : string)
  : option (TokenType * TokenData) :=
  match Dict.get (normal td) sso with
  | Some data => Some (NORMAL, data)
  | None =>
      match Dict.get (super td) sso with
      | Some data => Some (SUPER, data)
      | None => None
      end
  end.

(** The record [add_token] stores. *)
Definition fresh_record (now : Z) : TokenData :=
  {| createdTime := now;
     remainingQueries := Some (-1);
     heavyremainingQueries := Some (-1);
     status := Some "active";
     failedCount := Some 0;
     lastFailureTime := None;
     lastFailureReason := None;
     tags := [];
     note := "" |}.

(** The loop of [add_token]; [clock] is read once per stored token. *)
Fixpoint add_loop (p : Dict.t TokenData) (tokens : list string)
  (clock : list Z) : Dict.t TokenData :=
  match tokens with
  | [] => p
  | token :: rest =>
      if negb (Py.truthy token) || negb (Py.truthy (Py.strip token))
      then add_loop p rest clock
      else add_loop (Dict.set p token (fresh_record (hd 0 clock))) rest
             (tl clock)
  end.

Definition add_token (self : Manager) (tokens : list string)
  (token_type : TokenType) (clock : list Z) : Manager :=
  match tokens with
  | [] => self
  | _ =>
      let td := token_data self in
      _mark_dirty
        {| token_data :=
             set_partition td token_type
               (add_loop (partition td token_type) tokens clock);
           _save_pending := _save_pending self |}
  end.

(** The in-place update of the record [_find_token] returned. *)
Definition failed (data : TokenData) (st : Z) (msg : string) (now : Z)
  : TokenData :=
  let n := get_failedCount data + 1 in
  {| createdTime := createdTime data;
     remainingQueries := remainingQueries data;
     heavyremainingQueries := heavyremainingQueries data;
     status :=
       if (400 <=? st) && (st <? 500) && (n >=? MAX_FAILURES)
       then Some "expired" else status data;
     failedCount := Some n;
     lastFailureTime := Some now;
     lastFailureReason := Some (Py.str_of_Z st ++ ": " ++ msg);
     tags := tags data;
     note := note data |}.

Definition store_record (self : Manager) (ty : TokenType) (sso : string)
  (data : TokenData) : Manager :=
  let td := token_data self in
  {| token_data := set_partition td ty (Dict.set (partition td ty) sso data);
     _save_pending := _save_pending self |}.

(** [record_failure]; [now] is [int(time.time() * 1000)]. *)
Definition record_failure (self : Manager) (auth_token : string) (st : Z)
  (msg : string) (now : Z) : Manager :=
  if st =? STATSIG_INVALID then self
  else
    match _extract_sso auth_token with
    | None => self
    | Some sso =>
        if negb (Py.truthy sso) then self
        else
          match _find_token (token_data self) sso with
          | None => self
          | Some (ty, data) =>
              _mark_dirty (store_record self ty sso (failed data st msg now))
          end
    end.

Definition cleared (data : TokenData) : TokenData :=
  {| createdTime := createdTime data;
     remainingQueries := remainingQueries data;
     heavyremainingQueries := heavyremainingQueries data;
     status := status data;
     failedCount := Some 0;
     lastFailureTime := None;
     lastFailureReason := None;
     tags := tags data;
     note := note data |}.

(** [reset_failure] *)
Definition reset_failure (self : Manager) (auth_token : string) : Manager :=
  match _extract_sso auth_token with
  | None => self
  | Some sso =>
      if negb (Py.truthy sso) then self
      else
        match _find_token (token_data self) sso with
        | None => self
        | Some (ty, data) =>
            if get_failedCount data >? 0
            then _mark_dirty (store_record self ty sso (cleared data))
            else self
        end
  end.

End Token.

(** ** Selection: what [select_best] and [select_token] return *)

Module TokenFacts.
Import Token.

(** A record the selection loop keeps: not expired, fewer than
    [MAX_FAILURES] failures, and the quota named by [field] not exhausted. *)
Definition keptb (field : string) (data : TokenData) : bool :=
  negb (is_expired data) && (get_failedCount data <? MAX_FAILURES)
  && negb (get_remaining data field =? 0).

(** Kept and never probed (quota [-1]). *)
Definition unusedb (field : string) (kv : string * TokenData) : bool :=
  keptb field (snd kv) && (get_remaining (snd kv) field =? -1).

(** Kept and metered (quota [> 0]). *)
Definition meteredb (field : string) (kv : string * TokenData) : bool :=
  keptb field (snd kv) && (get_remaining (snd kv) field >? 0).

Definition quota_of (field : string) (kv : string * TokenData) : string * Z :=
  (fst kv, get_remaining (snd kv) field).

(** [key] is the choice the specification describes in [tokens]: the first
    unused record in iteration order, or, when there is no unused record,
    the first metered record whose quota no other metered record exceeds. *)
Definition chosen (tokens : Dict.t TokenData) (field key : string) : Prop :=
  exists pre data post,
    tokens = (pre ++ (key, data) :: post)%list /\
    keptb field data = true /\
    ((get_remaining data field = -1 /\
      forall kv, In kv pre -> unusedb field kv = false)
     \/
     (get_remaining data field > 0 /\
      (forall kv, In kv tokens -> unusedb field kv = false) /\
      (forall kv, In kv pre -> meteredb field kv = true ->
                  get_remaining (snd kv) field < get_remaining data field) /\
      (forall kv, In kv post -> meteredb field kv = true ->
                  get_remaining (snd kv) field <= get_remaining data field))).

(** No record of [tokens] is unused or metered. *)
Definition no_candidate (tokens : Dict.t TokenData) (field : string) : Prop :=
  forall kv, In kv tokens -> unusedb field kv = false /\ meteredb field kv = false.

Lemma select_step_cases field unused used kv :
  select_step field (unused, used) kv =
  if unusedb field kv then ((unused ++ [fst kv])%list, used)
  else if meteredb field kv then (unused, (used ++ [quota_of field kv])%list)
  else (unused, used).
Proof.
  destruct kv as [key data].
  unfold select_step, unusedb, meteredb, keptb, quota_of; simpl.
  destruct (is_expired data); simpl; [reflexivity|].
  unfold Z.geb, Z.ltb, Z.gtb.
  destruct (get_failedCount data ?= MAX_FAILURES) eqn:Ec; simpl; try reflexivity.
  destruct (Z.eqb_spec (get_remaining data field) 0) as [E0|E0]; simpl;
    [reflexivity|].
  destruct (Z.eqb_spec (get_remaining data field) (-1)) as [E1|E1]; simpl;
    [reflexivity|].
  destruct (get_remaining data field ?= 0); reflexivity.
Qed.

Lemma fold_select field tokens : forall unused used,
  fold_left (select_step field) tokens (unused, used) =
  ((unused ++ map fst (filter (unusedb field) tokens))%list,
   (used ++ map (quota_of field)
              (filter (fun kv => negb (unusedb field kv) && meteredb field kv)
                 tokens))%list).
Proof.
  induction tokens as [|kv tokens IH]; intros unused used; cbn [fold_left].
  - simpl. now rewrite !app_nil_r.
  - rewrite select_step_cases. cbn [filter].
    destruct (unusedb field kv); cbn [negb andb map].
    + rewrite IH, <- app_assoc. reflexivity.
    + destruct (meteredb field kv); cbn [map].
      * rewrite IH, <- app_assoc. reflexivity.
      * apply IH.
Qed.

(** Where the head of a filtered and mapped list comes from. *)
Lemma map_filter_split {A B} (g : A -> B) (p : A -> bool) l : forall a y b,
  map g (filter p l) = (a ++ y :: b)%list ->
  exists pre x post,
    l = (pre ++ x :: post)%list /\ g x = y /\ p x = true /\
    map g (filter p pre) = a /\ map g (filter p post) = b.
Proof.
  induction l as [|x l IH]; intros a y b H; simpl in H.
  - destruct a; discriminate.
  - destruct (p x) eqn:Hp; simpl in H.
    + destruct a as [|a0 a]; simpl in H.
      * injection H as Hy Hb. exists [], x, l. simpl. now rewrite Hp.
      * injection H as Ha Hr.
        destruct (IH _ _ _ Hr) as (pre & x' & post & -> & Hg & Hpx & Hpre & Hpost).
        exists (x :: pre), x', post. simpl. rewrite Hp. simpl.
        repeat split; auto. congruence.
    + destruct (IH _ _ _ H) as (pre & x' & post & -> & Hg & Hpx & Hpre & Hpost).
      exists (x :: pre), x', post. simpl. rewrite Hp. auto.
Qed.

Lemma filter_nil_all {A} (p : A -> bool) l :
  filter p l = [] -> forall x, In x l -> p x = false.
Proof.
  induction l as [|y l IH]; simpl; intros H x Hin; [contradiction|].
  destruct (p y) eqn:Hp; [discriminate|].
  destruct Hin as [->|Hin]; auto.
Qed.

Lemma map_filter_In {A B} (g : A -> B) (p : A -> bool) l x :
  In x l -> p x = true -> In (g x) (map g (filter p l)).
Proof. intros Hin Hp. apply in_map, filter_In. auto. Qed.

(** The head of the stable descending sort is the first maximum. *)
Lemma sort_desc_head l : forall x r,
  sort_desc l = x :: r ->
  exists pre post,
    l = (pre ++ x :: post)%list /\
    (forall y, In y pre -> snd y < snd x) /\
    (forall y, In y post -> snd y <= snd x).
Proof.
  induction l as [|a l IH]; intros x r H; simpl in H; [discriminate|].
  destruct (sort_desc l) as [|h s] eqn:Hs; simpl in H.
  - injection H as -> <-. destruct l as [|b l].
    + exists [], []. simpl. repeat split; intros y [].
    + simpl in Hs. destruct (sort_desc l); simpl in Hs; [discriminate|].
      destruct (snd p >? snd b); discriminate.
  - destruct (IH _ _ eq_refl) as (pre & post & -> & Hpre & Hpost).
    destruct (Z.gtb_spec (snd h) (snd a)) as [Hgt|Hle].
    + injection H as <- _. exists (a :: pre), post. simpl.
      repeat split; auto. intros y [<-|Hy]; [lia|auto].
    + injection H as <- _. exists [], (pre ++ h :: post)%list. simpl.
      repeat split; [intros y []|].
      intros y Hy. apply in_app_or in Hy. destruct Hy as [Hy|[<-|Hy]].
      * specialize (Hpre _ Hy). lia.
      * lia.
      * specialize (Hpost _ Hy). lia.
Qed.

Lemma sort_desc_nil l : sort_desc l = [] -> l = [].
Proof.
  destruct l as [|a l]; simpl; [reflexivity|].
  destruct (sort_desc l) as [|h s]; simpl; [discriminate|].
  destruct (snd h >? snd a); discriminate.
Qed.

Lemma unusedb_remaining field kv :
  unusedb field kv = true ->
  keptb field (snd kv) = true /\ get_remaining (snd kv) field = -1.
Proof.
  unfold unusedb. intros H. apply andb_prop in H. destruct H as [H1 H2].
  split; [assumption|now apply Z.eqb_eq].
Qed.

Lemma meteredb_remaining field kv :
  meteredb field kv = true ->
  keptb field (snd kv) = true /\ get_remaining (snd kv) field > 0.
Proof.
  unfold meteredb. intros H. apply andb_prop in H. destruct H as [H1 H2].
  split; [assumption|]. apply Z.gtb_lt in H2. lia.
Qed.

Lemma unused_not_metered field kv :
  meteredb field kv = true -> unusedb field kv = false.
Proof.
  intros H. apply meteredb_remaining in H. destruct H as [_ H].
  unfold unusedb. destruct (Z.eqb_spec (get_remaining (snd kv) field) (-1));
    [lia|apply andb_false_r].
Qed.

(** What [select_best] returns, in the words of the specification. *)
Lemma select_best_spec tokens field :
  match select_best tokens field with
  | Some (key, remaining) =>
      chosen tokens field key /\
      exists data, In (key, data) tokens /\
                   (remaining = -1 \/ remaining = get_remaining data field)
  | None => no_candidate tokens field
  end.
Proof.
  unfold select_best. rewrite fold_select. simpl.
  destruct (map fst (filter (unusedb field) tokens)) as [|key us] eqn:Hu.
  - assert (Hnone : forall kv, In kv tokens -> unusedb field kv = false).
    { apply filter_nil_all. now destruct (filter (unusedb field) tokens). }
    set (mp := fun kv => negb (unusedb field kv) && meteredb field kv).
    destruct (sort_desc (map (quota_of field) (filter mp tokens)))
      as [|[key remaining] s] eqn:Hs.
    + apply sort_desc_nil in Hs. intros kv Hin. split; [auto|].
      destruct (meteredb field kv) eqn:Hm; [|reflexivity].
      exfalso. assert (Hmp : mp kv = true).
      { unfold mp. now rewrite (Hnone _ Hin), Hm. }
      pose proof (map_filter_In (quota_of field) mp tokens kv Hin Hmp) as Hin'.
      rewrite Hs in Hin'. exact Hin'.
    + destruct (sort_desc_head _ _ _ Hs) as (a & b & Hab & Ha & Hb).
      destruct (map_filter_split _ _ _ _ _ _ Hab)
        as (pre & [k d] & post & -> & Hq & Hmp & Hpre & Hpost).
      unfold quota_of in Hq. simpl in Hq. injection Hq as -> <-.
      unfold mp in Hmp. apply andb_prop in Hmp. destruct Hmp as [_ Hm].
      apply meteredb_remaining in Hm. simpl in Hm. destruct Hm as [Hk Hpos].
      split.
      * exists pre, d, post. split; [reflexivity|]. split; [assumption|].
        right. split; [assumption|]. split; [assumption|]. split.
        -- intros kv Hin Hm. apply (Ha (quota_of field kv)).
           rewrite <- Hpre. apply map_filter_In; [assumption|].
           unfold mp. rewrite Hm, (unused_not_metered _ _ Hm). reflexivity.
        -- intros kv Hin Hm. apply (Hb (quota_of field kv)).
           rewrite <- Hpost. apply map_filter_In; [assumption|].
           unfold mp. rewrite Hm, (unused_not_metered _ _ Hm). reflexivity.
      * exists d. split; [|now right]. apply in_or_app. right. now left.
  - destruct (map_filter_split fst (unusedb field) tokens [] key us Hu)
      as (pre & [k d] & post & -> & Hk & Hp & Hpre & _).
    simpl in Hk. subst k. apply unusedb_remaining in Hp. simpl in Hp.
    destruct Hp as [Hkept Hrem]. split.
    + exists pre, d, post. split; [reflexivity|]. split; [assumption|].
      left. split; [assumption|]. apply filter_nil_all.
      now destruct (filter (unusedb field) pre).
    + exists d. split; [|now left]. apply in_or_app. right. now left.
Qed.

End TokenFacts.

Module TokenExamples.
Import Token.

Definition rec_with (st : string) (fc rq hq : Z) : TokenData :=
  {| createdTime := 0;
     remainingQueries := Some rq;
     heavyremainingQueries := Some hq;
     status := Some st;
     failedCount := Some fc;
     lastFailureTime := None;
     lastFailureReason := None;
     tags := [];
     note := "" |}.

Definition pool1 : TokenStore :=
  {| normal := [("a", rec_with "expired" 0 (-1) (-1));
                ("b", rec_with "active" 3 (-1) (-1));
                ("c", rec_with "active" 0 0 (-1));
                ("d", rec_with "active" 0 7 (-1));
                ("e", rec_with "active" 2 9 (-1));
                ("f", rec_with "active" 0 9 (-1))];
     super := [("s", rec_with "active" 0 5 0);
               ("t", rec_with "active" 0 (-1) 4)] |}.

Example select_metered_max_first : select_token pool1 "grok-3" = inr "e".
Proof. reflexivity. Qed.

Example select_heavy_premium_only : select_token pool1 "grok-4-heavy" = inr "t".
Proof. reflexivity. Qed.

Example select_unused_before_metered :
  select_best (super pool1) "remainingQueries" = Some ("t", -1).
Proof. reflexivity. Qed.

Example select_falls_back_to_premium :
  select_token {| normal := [("a", rec_with "expired" 0 5 5)];
                  super := super pool1 |} "grok-3" = inr "t".
Proof. reflexivity. Qed.

Example select_heavy_no_fallback :
  select_token {| normal := normal pool1;
                  super := [("s", rec_with "active" 0 5 0)] |} "grok-4-heavy"
  = inl (NO_AVAILABLE_TOKEN "grok-4-heavy" 6 1).
Proof. reflexivity. Qed.

End TokenExamples.

Module SelectionProps.
Import Token TokenFacts.

Lemma chosen_kept tokens field key :
  chosen tokens field key ->
  exists data, In (key, data) tokens /\
    status data <> Some "expired" /\
    get_failedCount data < MAX_FAILURES /\
    get_remaining data field <> 0.
Proof.
  intros (pre & data & post & -> & Hk & _). exists data.
  split; [apply in_or_app; right; now left|].
  unfold keptb in Hk. apply andb_prop in Hk. destruct Hk as [Hk H0].
  apply andb_prop in Hk. destruct Hk as [He Hf].
  split; [|split].
  - intros Hs. unfold is_expired in He. rewrite Hs in He. discriminate.
  - now apply Z.ltb_lt.
  - intros E. rewrite E in H0. discriminate.
Qed.

(** The partition and the quota field [select_token] uses, with the choice
    made there. *)
Lemma select_token_chosen td model :
  let heavy := String.eqb model "grok-4-heavy" in
  let field := if heavy then "heavyremainingQueries" else "remainingQueries" in
  match select_token td model with
  | inr key =>
      if heavy then chosen (super td) field key
      else chosen (normal td) field key \/
           (no_candidate (normal td) field /\ chosen (super td) field key)
  | inl e =>
      e = NO_AVAILABLE_TOKEN model (List.length (normal td))
            (List.length (super td)) /\
      (if heavy then no_candidate (super td) field
       else no_candidate (normal td) field /\ no_candidate (super td) field)
  end.
Proof.
  intros heavy field. unfold select_token. fold heavy.
  destruct heavy eqn:Hh; subst field.
  - pose proof (select_best_spec (super td) "heavyremainingQueries") as Hs.
    destruct (select_best (super td) "heavyremainingQueries") as [[key q]|].
    + now destruct Hs.
    + split; [reflexivity|assumption].
  - pose proof (select_best_spec (normal td) "remainingQueries") as Hn.
    destruct (select_best (normal td) "remainingQueries") as [[key q]|].
    + destruct Hn as [Hc _]. now left.
    + pose proof (select_best_spec (super td) "remainingQueries") as Hs.
      destruct (select_best (super td) "remainingQueries") as [[key q]|].
      * destruct Hs as [Hc _]. now right.
      * split; [reflexivity|split; assumption].
Qed.

(** The record behind a returned key is not expired, has fewer than
    [MAX_FAILURES] failures and a quota that is not exhausted. *)
Lemma select_token_kept td model key :
  select_token td model = inr key ->
  let heavy := String.eqb model "grok-4-heavy" in
  let field := if heavy then "heavyremainingQueries" else "remainingQueries" in
  exists ty data,
    In (key, data) (partition td ty) /\
    (heavy = true -> ty = SUPER) /\
    status data <> Some "expired" /\
    get_failedCount data < MAX_FAILURES /\
    get_remaining data field <> 0.
Proof.
  intros Hsel heavy field.
  pose proof (select_token_chosen td model) as H. cbv zeta in H.
  rewrite Hsel in H. fold heavy in H. fold field in H.
  destruct heavy.
  - destruct (chosen_kept _ _ _ H) as (data & Hin & Hk).
    exists SUPER, data. simpl. tauto.
  - destruct H as [H|[_ H]]; destruct (chosen_kept _ _ _ H) as (data & Hin & Hk).
    + exists NORMAL, data. simpl. repeat split; try tauto. discriminate.
    + exists SUPER, data. simpl. tauto.
Qed.

(** C1. [select_token] returns the first unused record of the partition it
    draws from, else the first metered record of greatest quota; a record
    that is expired, has [MAX_FAILURES] failures or an exhausted quota is
    never returned; a heavy request draws from the premium partition only, a
    standard request from the standard partition and, when that has no
    candidate, from the premium one; with no candidate at all the result is
    the [NO_AVAILABLE_TOKEN] error. *)
Theorem select_token_spec (td : TokenStore) (model : string) :
  let heavy := String.eqb model "grok-4-heavy" in
  let field := if heavy then "heavyremainingQueries" else "remainingQueries" in
  match select_token td model with
  | inr key =>
      (if heavy then chosen (super td) field key
       else chosen (normal td) field key \/
            (no_candidate (normal td) field /\ chosen (super td) field key)) /\
      exists ty data,
        In (key, data) (partition td ty) /\
        (heavy = true -> ty = SUPER) /\
        status data <> Some "expired" /\
        get_failedCount data < MAX_FAILURES /\
        get_remaining data field <> 0
  | inl e =>
      e = NO_AVAILABLE_TOKEN model (List.length (normal td))
            (List.length (super td)) /\
      (if heavy then no_candidate (super td) field
       else no_candidate (normal td) field /\ no_candidate (super td) field)
  end.
Proof.
  intros heavy field.
  pose proof (select_token_chosen td model) as Hc.
  pose proof (select_token_kept td model) as Hk.
  cbv zeta in Hc, Hk. fold heavy in Hc, Hk. fold field in Hc, Hk.
  destruct (select_token td model) as [e|key].
  - exact Hc.
  - split; [exact Hc|]. now apply Hk.
Qed.

End SelectionProps.

(** ** Administration of the pool: [delete_token], [update_token_tags],
    [update_token_note], [update_limits] *)

Module DictOps.

Section Ops.
Context {V : Type}.

(** [del d[k]]; the keys of a [dict] are distinct, so the one entry under
    [k] goes. *)
Fixpoint remove (d : Dict.t V) (k : string) : Dict.t V :=
  match d with
  | [] => []
  | (k', v) :: d' =>
      if String.eqb k k' then remove d' k else (k', v) :: remove d' k
  end.

Lemma get_remove_same d k : Dict.get (remove d k) k = None.
Proof.
  induction d as [|[k' v'] d IH]; simpl; [reflexivity|].
  destruct (String.eqb k k') eqn:E; simpl; [assumption|now rewrite E].
Qed.

Lemma get_remove_other d k k' :
  k <> k' -> Dict.get (remove d k) k' = Dict.get d k'.
Proof.
  intros Hne. induction d as [|[k0 v0] d IH]; simpl; [reflexivity|].
  destruct (String.eqb_spec k k0); simpl.
  - subst k0. destruct (String.eqb_spec k' k); congruence.
  - now rewrite IH.
Qed.

Lemma remove_absent d k : Dict.get d k = None -> remove d k = d.
Proof.
  induction d as [|[k' v'] d IH]; simpl; [reflexivity|].
  destruct (String.eqb k k'); [discriminate|]. intros H. now rewrite IH.
Qed.

Lemma remove_set_absent d k v :
  Dict.get d k = None -> remove (Dict.set d k v) k = d.
Proof.
  induction d as [|[k' v'] d IH]; simpl.
  - now rewrite String.eqb_refl.
  - destruct (String.eqb k k') eqn:E; [discriminate|].
    intros H. simpl. now rewrite E, IH.
Qed.

Lemma get_unique (d : Dict.t V) k v :
  NoDup (map fst d) -> In (k, v) d -> Dict.get d k = Some v.
Proof.
  induction d as [|[k' v'] d IH]; simpl; [contradiction|].
  intros Hnd [[= -> ->]|Hin].
  - now rewrite String.eqb_refl.
  - inversion Hnd as [|? ? Hni Hnd']; subst.
    destruct (String.eqb_spec k k') as [->|_]; [|auto].
    exfalso. apply Hni. change k' with (fst (k', v)). now apply in_map.
Qed.

End Ops.

End DictOps.

Module TokenAdmin.
Import Token.

(** The loop of [delete_token]. *)
Definition delete_loop (p : Dict.t TokenData) (tokens : list string)
  : Dict.t TokenData :=
  fold_left
    (fun p token => if Dict.mem p token then DictOps.remove p token else p)
    tokens p.

(** [delete_token] *)
Definition delete_token (self : Manager) (tokens : list string)
  (token_type : TokenType) : Manager :=
  match tokens with
  | [] => self
  | _ =>
      let td := token_data self in
      _mark_dirty
        {| token_data :=
             set_partition td token_type
               (delete_loop (partition td token_type) tokens);
           _save_pending := _save_pending self |}
  end.

(** The [TOKEN_NOT_FOUND] error, with the [token[:10]] of its context. *)
Inductive TokenError :=
| TOKEN_NOT_FOUND (token : string).

Definition with_tags (data : TokenData) (cleaned : list string) : TokenData :=
  {| createdTime := createdTime data;
     remainingQueries := remainingQueries data;
     heavyremainingQueries := heavyremainingQueries data;
     status := status data;
     failedCount := failedCount data;
     lastFailureTime := lastFailureTime data;
     lastFailureReason := lastFailureReason data;
     tags := cleaned;
     note := note data |}.

Definition with_note (data : TokenData) (n : string) : TokenData :=
  {| createdTime := createdTime data;
     remainingQueries := remainingQueries data;
     heavyremainingQueries := heavyremainingQueries data;
     status := status data;
     failedCount := failedCount data;
     lastFailureTime := lastFailureTime data;
     lastFailureReason := lastFailureReason data;
     tags := tags data;
     note := n |}.

(** [[t.strip() for t in tags if t and t.strip()]] *)
Definition cleaned_tags (tags : list string) : list string :=
  map Py.strip
    (filter (fun t => Py.truthy t && Py.truthy (Py.strip t)) tags).

(** [update_token_tags] *)
Definition update_token_tags (self : Manager) (token : string)
  (token_type : TokenType) (tags : list string) : TokenError + Manager :=
  match Dict.get (partition (token_data self) token_type) token with
  | None => inl (TOKEN_NOT_FOUND (substring 0 10 token))
  | Some data =>
      inr (_mark_dirty
             (store_record self token_type token
                (with_tags data (cleaned_tags tags))))
  end.

(** [update_token_note] *)
Definition update_token_note (self : Manager) (token : string)
  (token_type : TokenType) (note : string) : TokenError + Manager :=
  match Dict.get (partition (token_data self) token_type) token with
  | None => inl (TOKEN_NOT_FOUND (substring 0 10 token))
  | Some data =>
      inr (_mark_dirty
             (store_record self token_type token
                (with_note data (Py.strip note))))
  end.

(** The two assignments of [update_limits]; [None] is Python's [None]. *)
Definition with_limits (data : TokenData) (normal heavy : option Z)
  : TokenData :=
  {| createdTime := createdTime data;
     remainingQueries :=
       match normal with Some n => Some n | None => remainingQueries data end;
     heavyremainingQueries :=
       match heavy with
       | Some n => Some n
       | None => heavyremainingQueries data
       end;
     status := status data;
     failedCount := failedCount data;
     lastFailureTime := lastFailureTime data;
     lastFailureReason := lastFailureReason data;
     tags := tags data;
     note := note data |}.

(** The loop of [update_limits] over the partitions still to visit. *)
Fixpoint update_limits_in (types : list TokenType) (self : Manager)
  (sso : string) (normal heavy : option Z) : Manager :=
  match types with
  | [] => self
  | token_type :: rest =>
      match Dict.get (partition (token_data self) token_type) sso with
      | Some data =>
          _mark_dirty
            (store_record self token_type sso (with_limits data normal heavy))
      | None => update_limits_in rest self sso normal heavy
      end
  end.

(** [update_limits] *)
Definition update_limits (self : Manager) (sso : string)
  (normal heavy : option Z) : Manager :=
  update_limits_in [NORMAL; SUPER] self sso normal heavy.

End TokenAdmin.

(** ** The manager and its durable file: [_load_data], [_reload_if_needed],
    [_save_data], [_batch_save_worker] *)

Module Durable.
Import Token.

(** The manager with what it reads outside itself: [_storage] (the storage
    backend [set_storage] installs, [None] until then: [false]) and the
    content of the durable file [data/token.json] ([None]: there is no file
    that can be read). *)
Record System := {
  manager : Manager;
  _storage : bool;
  token_file : option TokenStore
}.

Definition with_manager (s : System) (m : Manager) : System :=
  {| manager := m; _storage := _storage s; token_file := token_file s |}.

(** The store of [_load_data] when there is no file. *)
Definition default : TokenStore := {| normal := []; super := [] |}.

(** The manager once [_load_data] has run. *)
Definition started (storage : bool) (file : option TokenStore) : System :=
  {| manager :=
       {| token_data := match file with Some d => d | None => default end;
          _save_pending := false |};
     _storage := storage;
     token_file := file |}.

(** [_reload_if_needed], on the manager: [_save_pending] is not read. *)
Definition reload (s : System) : System :=
  with_manager s
    {| token_data :=
         _reload_if_needed (_storage s) (token_file s)
           (token_data (manager s));
       _save_pending := _save_pending (manager s) |}.

(** [select_token]: the reload, then the choice on the store it left. *)
Definition select_token (s : System) (model : string)
  : System * (GrokApiException + string) :=
  let s' := reload s in
  (s', Token.select_token (token_data (manager s')) model).

(** [get_token] *)
Definition get_token (s : System) (model : string)
  : System * (GrokApiException + string) :=
  let s' := reload s in
  (s', Token.get_token (token_data (manager s')) model).

(** [_save_data], the write succeeding: without a storage backend the
    in-memory store becomes the content of the file; with one the store goes
    to the backend. *)
Definition _save_data (s : System) : System :=
  {| manager := manager s;
     _storage := _storage s;
     token_file :=
       if _storage s then token_file s
       else Some (token_data (manager s)) |}.

(** One round of [_batch_save_worker] after its sleep. *)
Definition batch_save (s : System) : System :=
  if _save_pending (manager s)
  then
    let s' := _save_data s in
    with_manager s'
      {| token_data := token_data (manager s'); _save_pending := false |}
  else s.

(** The cookie [get_token] builds for a key. *)
Definition cookie (jwt : string) : string :=
  "sso-rw=" ++ jwt ++ ";sso=" ++ jwt.

Lemma get_token_cookie td model :
  Token.get_token td model
  = match Token.select_token td model with
    | inr jwt => inr (cookie jwt)
    | inl e => inl e
    end.
Proof. reflexivity. Qed.

(** With a storage backend, or with a file that holds what the memory
    holds, the reload changes nothing. *)
Lemma reload_storage s : _storage s = true -> reload s = s.
Proof.
  intros H. destruct s as [[td p] st f]. simpl in H. subst st. reflexivity.
Qed.

Lemma reload_saved s :
  _save_pending (manager s) = true ->
  token_data (manager (reload (batch_save s))) = token_data (manager s).
Proof.
  intros H. unfold batch_save. rewrite H. unfold reload, _reload_if_needed.
  simpl. now destruct (_storage s).
Qed.

End Durable.

(** ** Failure accounting: [record_failure], [reset_failure], [add_token] *)

Module Pool.
Import Token TokenFacts TokenAdmin.

(** The operations applied to the manager; [BatchSave] is a round of the
    background saver. *)
Inductive op :=
| Select (model : string)
| RecordFailure (auth_token : string) (st : Z) (msg : string) (now : Z)
| ResetFailure (auth_token : string)
| UpdateLimits (sso : string) (normal heavy : option Z)
| BatchSave
| AddToken (tokens : list string) (token_type : TokenType) (clock : list Z)
| DeleteToken (tokens : list string) (token_type : TokenType)
| UpdateTags (token : string) (token_type : TokenType) (tags : list string)
| UpdateNote (token : string) (token_type : TokenType) (note : string).

Definition step (s : Durable.System) (o : op) : Durable.System :=
  let self := Durable.manager s in
  match o with
  | Select model => fst (Durable.select_token s model)
  | RecordFailure a st msg now =>
      Durable.with_manager s (record_failure self a st msg now)
  | ResetFailure a => Durable.with_manager s (reset_failure self a)
  | UpdateLimits sso normal heavy =>
      Durable.with_manager s (update_limits self sso normal heavy)
  | BatchSave => Durable.batch_save s
  | AddToken tokens ty clock =>
      Durable.with_manager s (add_token self tokens ty clock)
  | DeleteToken tokens ty =>
      Durable.with_manager s (delete_token self tokens ty)
  | UpdateTags token ty tags =>
      match update_token_tags self token ty tags with
      | inr self' => Durable.with_manager s self'
      | inl _ => s
      end
  | UpdateNote token ty note =>
      match update_token_note self token ty note with
      | inr self' => Durable.with_manager s self'
      | inl _ => s
      end
  end.

Definition run (s : Durable.System) (ops : list op) : Durable.System :=
  fold_left step ops s.

(** The operations of the selection and failure path of a request, and the
    saver that runs beside them. *)
Definition on_selection_path (o : op) : bool :=
  match o with
  | Select _ | RecordFailure _ _ _ _ | ResetFailure _ | UpdateLimits _ _ _
  | BatchSave => true
  | _ => false
  end.

(** Every record stored under [key], in either partition, is expired. *)
Definition all_expired (td : TokenStore) (key : string) : Prop :=
  forall ty data, In (key, data) (partition td ty) ->
                  status data = Some "expired".

(** The expiry of [key] has settled: the memory holds it, and so does the
    file when selection reloads from it. *)
Definition settled (s : Durable.System) (key : string) : Prop :=
  all_expired (token_data (Durable.manager s)) key /\
  (Durable._storage s = false ->
   forall f, Durable.token_file s = Some f -> all_expired f key).

(** [p'] has the keys of [p] in the same order, and a record expired in [p]
    is expired in [p']. *)
Definition expired_kept (p p' : Dict.t TokenData) : Prop :=
  Forall2 (fun kv kv' => fst kv = fst kv' /\
             (is_expired (snd kv) = true -> is_expired (snd kv') = true)) p p'.

(** A record as the pool's own operations leave it. *)
Definition well_kept (data : TokenData) : Prop :=
  0 <= get_failedCount data /\
  (get_failedCount data = 0 ->
   lastFailureTime data = None /\ lastFailureReason data = None).

(** Every record of the store has the property [P]. *)
Definition all_records (P : TokenData -> Prop) (td : TokenStore) : Prop :=
  forall ty key data, In (key, data) (partition td ty) -> P data.

(** [P] holds of every record in memory and of every record in the file. *)
Definition sound (P : TokenData -> Prop) (s : Durable.System) : Prop :=
  all_records P (token_data (Durable.manager s)) /\
  (forall f, Durable.token_file s = Some f -> all_records P f).

Lemma is_expired_status data :
  is_expired data = true <-> status data = Some "expired".
Proof.
  unfold is_expired. destruct (status data) as [s|]; split; intros H;
    try discriminate.
  - apply String.eqb_eq in H. now subst.
  - injection H as ->. reflexivity.
Qed.

Lemma truthy_false s : Py.truthy s = false <-> s = "".
Proof. destruct s; simpl; split; congruence. Qed.

Lemma partition_set_same td ty p : partition (set_partition td ty p) ty = p.
Proof. now destruct ty. Qed.

Lemma partition_set_other td ty ty' p :
  ty <> ty' -> partition (set_partition td ty p) ty' = partition td ty'.
Proof. destruct ty, ty'; simpl; congruence. Qed.

Lemma find_token_get td sso ty data :
  _find_token td sso = Some (ty, data) ->
  Dict.get (partition td ty) sso = Some data.
Proof.
  unfold _find_token.
  destruct (Dict.get (normal td) sso) eqn:En.
  - intros [= <- <-]. exact En.
  - destruct (Dict.get (super td) sso) eqn:Es; [|discriminate].
    intros [= <- <-]. exact Es.
Qed.

Lemma expired_kept_refl p : expired_kept p p.
Proof. induction p; constructor; auto. Qed.

Lemma expired_kept_trans p q r :
  expired_kept p q -> expired_kept q r -> expired_kept p r.
Proof.
  intros H. revert r. induction H as [|x y p q [Hk He] _ IH]; intros r Hr.
  - inversion Hr. constructor.
  - inversion Hr as [|y' z q' r' [Hk' He'] Hr']; subst. constructor.
    + split; [congruence|auto].
    + apply IH. exact Hr'.
Qed.

Lemma expired_kept_set p k data data' :
  Dict.get p k = Some data ->
  (is_expired data = true -> is_expired data' = true) ->
  expired_kept p (Dict.set p k data').
Proof.
  intros Hg He. induction p as [|[k0 d0] p IH]; simpl in *; [discriminate|].
  destruct (String.eqb k k0) eqn:E.
  - injection Hg as ->. constructor; [split; auto|apply expired_kept_refl].
  - constructor; [split; auto|apply IH; exact Hg].
Qed.

Lemma expired_kept_In p p' key data' :
  expired_kept p p' -> In (key, data') p' ->
  exists data, In (key, data) p /\
               (is_expired data = true -> is_expired data' = true).
Proof.
  induction 1 as [|[k d] [k' d'] p p' [Hk He] _ IH]; simpl; [contradiction|].
  simpl in Hk. subst k'. intros [[= -> ->]|Hin].
  - exists d. auto.
  - destruct (IH Hin) as (d0 & Hin0 & H0). exists d0. auto.
Qed.

Lemma failed_expired data st msg now :
  is_expired data = true -> is_expired (failed data st msg now) = true.
Proof.
  unfold is_expired at 2. simpl.
  destruct ((400 <=? st) && (st <? 500)
            && (get_failedCount data + 1 >=? MAX_FAILURES)); auto.
Qed.

Lemma store_record_kept self ty sso data data' ty' :
  Dict.get (partition (token_data self) ty) sso = Some data ->
  (is_expired data = true -> is_expired data' = true) ->
  expired_kept (partition (token_data self) ty')
    (partition (token_data (_mark_dirty (store_record self ty sso data'))) ty').
Proof.
  intros Hg He. simpl. destruct ty, ty'; simpl in *;
    first [apply expired_kept_refl | eapply expired_kept_set; eauto].
Qed.

Lemma record_failure_kept self a st msg now ty :
  expired_kept (partition (token_data self) ty)
    (partition (token_data (record_failure self a st msg now)) ty).
Proof.
  unfold record_failure.
  destruct (st =? STATSIG_INVALID); [apply expired_kept_refl|].
  destruct (_extract_sso a) as [sso|]; [|apply expired_kept_refl].
  destruct (negb (Py.truthy sso)); [apply expired_kept_refl|].
  destruct (_find_token (token_data self) sso) as [[ty0 data]|] eqn:Hf;
    [|apply expired_kept_refl].
  eapply store_record_kept; [eapply find_token_get; eauto|].
  apply failed_expired.
Qed.

Lemma reset_failure_kept self a ty :
  expired_kept (partition (token_data self) ty)
    (partition (token_data (reset_failure self a)) ty).
Proof.
  unfold reset_failure.
  destruct (_extract_sso a) as [sso|]; [|apply expired_kept_refl].
  destruct (negb (Py.truthy sso)); [apply expired_kept_refl|].
  destruct (_find_token (token_data self) sso) as [[ty0 data]|] eqn:Hf;
    [|apply expired_kept_refl].
  destruct (get_failedCount data >? 0); [|apply expired_kept_refl].
  eapply store_record_kept; [eapply find_token_get; eauto|].
  auto.
Qed.

Lemma update_limits_kept self sso n h ty :
  expired_kept (partition (token_data self) ty)
    (partition (token_data (update_limits self sso n h)) ty).
Proof.
  unfold update_limits. cbn [update_limits_in].
  destruct (Dict.get (partition (token_data self) NORMAL) sso) eqn:En.
  - eapply store_record_kept; eauto.
  - destruct (Dict.get (partition (token_data self) SUPER) sso) eqn:Es.
    + eapply store_record_kept; eauto.
    + apply expired_kept_refl.
Qed.

Lemma all_expired_kept td td' key :
  (forall ty, expired_kept (partition td ty) (partition td' ty)) ->
  all_expired td key -> all_expired td' key.
Proof.
  intros Hk Hall ty data' Hin.
  destruct (expired_kept_In _ _ _ _ (Hk ty) Hin) as (data & Hin0 & He).
  apply is_expired_status, He, is_expired_status, (Hall ty data Hin0).
Qed.

(** The operations of the selection path keep a settled expiry. *)
Lemma step_settled s o key :
  on_selection_path o = true -> settled s key -> settled (step s o) key.
Proof.
  intros Ho [Hm Hf]. destruct o; try discriminate; simpl.
  - unfold Durable.reload, settled, _reload_if_needed. simpl.
    split; [|exact Hf].
    destruct (Durable._storage s) eqn:Es; [exact Hm|].
    destruct (Durable.token_file s) as [f|] eqn:Ef; [|exact Hm].
    now apply Hf.
  - split; [|exact Hf]. simpl.
    eapply all_expired_kept; [|exact Hm].
    intros ty. apply record_failure_kept.
  - split; [|exact Hf]. simpl.
    eapply all_expired_kept; [|exact Hm].
    intros ty. apply reset_failure_kept.
  - split; [|exact Hf]. simpl.
    eapply all_expired_kept; [|exact Hm].
    intros ty. apply update_limits_kept.
  - unfold Durable.batch_save.
    destruct (_save_pending (Durable.manager s)); [|now split].
    split; [exact Hm|]. simpl. intros Es f.
    rewrite Es. intros [= <-]. exact Hm.
Qed.

Lemma run_settled ops : forall s key,
  forallb on_selection_path ops = true ->
  settled s key -> settled (run s ops) key.
Proof.
  induction ops as [|o ops IH]; intros s key Hp Hs; simpl in *; [exact Hs|].
  apply andb_prop in Hp. destruct Hp as [Ho Hp].
  apply IH; [assumption|]. now apply step_settled.
Qed.

Lemma In_set {V} (p : Dict.t V) k v kv :
  In kv (Dict.set p k v) -> kv = (k, v) \/ In kv p.
Proof.
  induction p as [|[k0 v0] p IH]; simpl.
  - intros [<-|[]]. now left.
  - destruct (String.eqb_spec k k0) as [->|Hne]; simpl.
    + intros [<-|Hin]; [now left|right; now right].
    + intros [<-|Hin]; [right; now left|].
      destruct (IH Hin); [now left|right; now right].
Qed.

Lemma In_add_loop tokens : forall p clock kv,
  In kv (add_loop p tokens clock) ->
  In kv p \/ exists now, snd kv = fresh_record now.
Proof.
  induction tokens as [|t tokens IH]; intros p clock kv; simpl; [now left|].
  destruct (negb (Py.truthy t) || negb (Py.truthy (Py.strip t))); [apply IH|].
  intros Hin. destruct (IH _ _ _ Hin) as [H|H]; [|now right].
  destruct (In_set _ _ _ _ H) as [->|H']; [right; eexists; reflexivity|].
  now left.
Qed.

Lemma In_remove {V} (p : Dict.t V) k kv :
  In kv (DictOps.remove p k) -> In kv p.
Proof.
  induction p as [|[k0 v0] p IH]; simpl; [auto|].
  destruct (String.eqb k k0); simpl; [auto|]. intros [H|H]; auto.
Qed.

Lemma In_delete_loop tokens : forall p kv,
  In kv (delete_loop p tokens) -> In kv p.
Proof.
  unfold delete_loop.
  induction tokens as [|t tokens IH]; intros p kv; simpl; [auto|].
  intros Hin. apply IH in Hin.
  destruct (Dict.mem p t); [now apply In_remove in Hin|assumption].
Qed.

Lemma find_token_In td sso ty data :
  _find_token td sso = Some (ty, data) -> In (sso, data) (partition td ty).
Proof. intros H. now apply Dict.get_In, find_token_get. Qed.

(** A property of records that every operation of the pool keeps. *)
Section Invariant.
Variable P : TokenData -> Prop.
Hypothesis P_fresh : forall now, P (fresh_record now).
Hypothesis P_failed : forall data st msg now,
  P data -> P (failed data st msg now).
Hypothesis P_cleared : forall data, P data -> P (cleared data).
Hypothesis P_limits : forall data n h, P data -> P (with_limits data n h).
Hypothesis P_tags : forall data l, P data -> P (with_tags data l).
Hypothesis P_note : forall data n, P data -> P (with_note data n).

Ltac by_all Hall H :=
  first [exact (Hall NORMAL _ _ H) | exact (Hall SUPER _ _ H)].

Lemma store_record_all self ty sso data' :
  all_records P (token_data self) -> P data' ->
  all_records P (token_data (store_record self ty sso data')).
Proof.
  intros Hall Hd ty' key data Hin. unfold store_record in Hin.
  destruct ty, ty'; simpl in Hin;
    try (by_all Hall Hin);
    (destruct (In_set _ _ _ _ Hin) as [[= -> ->]|Hin'];
       [exact Hd|by_all Hall Hin']).
Qed.

Lemma record_failure_all self a st msg now :
  all_records P (token_data self) ->
  all_records P (token_data (record_failure self a st msg now)).
Proof.
  intros Hall. unfold record_failure.
  destruct (st =? STATSIG_INVALID); [exact Hall|].
  destruct (_extract_sso a) as [sso|]; [|exact Hall].
  destruct (negb (Py.truthy sso)); [exact Hall|].
  destruct (_find_token (token_data self) sso) as [[ty data]|] eqn:Hf;
    [|exact Hall].
  apply store_record_all; [exact Hall|].
  apply P_failed, (Hall _ _ _ (find_token_In _ _ _ _ Hf)).
Qed.

Lemma reset_failure_all self a :
  all_records P (token_data self) ->
  all_records P (token_data (reset_failure self a)).
Proof.
  intros Hall. unfold reset_failure.
  destruct (_extract_sso a) as [sso|]; [|exact Hall].
  destruct (negb (Py.truthy sso)); [exact Hall|].
  destruct (_find_token (token_data self) sso) as [[ty data]|] eqn:Hf;
    [|exact Hall].
  destruct (get_failedCount data >? 0); [|exact Hall].
  apply store_record_all; [exact Hall|].
  apply P_cleared, (Hall _ _ _ (find_token_In _ _ _ _ Hf)).
Qed.

Lemma update_limits_all self sso n h :
  all_records P (token_data self) ->
  all_records P (token_data (update_limits self sso n h)).
Proof.
  intros Hall. unfold update_limits. cbn [update_limits_in].
  destruct (Dict.get (partition (token_data self) NORMAL) sso) eqn:En.
  - apply store_record_all; [exact Hall|].
    apply P_limits, (Hall NORMAL sso), Dict.get_In, En.
  - destruct (Dict.get (partition (token_data self) SUPER) sso) eqn:Es;
      [|exact Hall].
    apply store_record_all; [exact Hall|].
    apply P_limits, (Hall SUPER sso), Dict.get_In, Es.
Qed.

Lemma add_token_all self tokens ty clock :
  all_records P (token_data self) ->
  all_records P (token_data (add_token self tokens ty clock)).
Proof.
  intros Hall. unfold add_token. destruct tokens as [|t0 ts]; [exact Hall|].
  intros ty' key data Hin. cbn [token_data _mark_dirty] in Hin.
  destruct ty, ty'; cbn [partition set_partition normal super] in Hin;
    try (by_all Hall Hin);
    (apply In_add_loop in Hin; destruct Hin as [Hin|[now Hn]];
       [by_all Hall Hin|simpl in Hn; rewrite Hn; apply P_fresh]).
Qed.

Lemma delete_token_all self tokens ty :
  all_records P (token_data self) ->
  all_records P (token_data (delete_token self tokens ty)).
Proof.
  intros Hall. unfold delete_token. destruct tokens as [|t0 ts]; [exact Hall|].
  intros ty' key data Hin. cbn [token_data _mark_dirty] in Hin.
  destruct ty, ty'; cbn [partition set_partition normal super] in Hin;
    try (by_all Hall Hin);
    (apply In_delete_loop in Hin; by_all Hall Hin).
Qed.

Lemma step_sound s o : sound P s -> sound P (step s o).
Proof.
  intros [Hm Hf]. destruct o; simpl.
  - split; [|exact Hf]. unfold _reload_if_needed. simpl.
    destruct (Durable._storage s); [exact Hm|].
    destruct (Durable.token_file s) as [f|] eqn:Ef; [now apply Hf|exact Hm].
  - split; [now apply record_failure_all|exact Hf].
  - split; [now apply reset_failure_all|exact Hf].
  - split; [now apply update_limits_all|exact Hf].
  - unfold Durable.batch_save.
    destruct (_save_pending (Durable.manager s)); [|now split].
    split; [exact Hm|]. simpl. intros f.
    destruct (Durable._storage s); [apply Hf|].
    intros [= <-]. exact Hm.
  - split; [now apply add_token_all|exact Hf].
  - split; [now apply delete_token_all|exact Hf].
  - unfold update_token_tags.
    destruct (Dict.get (partition (token_data (Durable.manager s)) token_type)
                token) eqn:Eg; [|now split].
    split; [|exact Hf]. simpl. apply store_record_all; [exact Hm|].
    apply P_tags, (Hm token_type token), Dict.get_In, Eg.
  - unfold update_token_note.
    destruct (Dict.get (partition (token_data (Durable.manager s)) token_type)
                token) eqn:Eg; [|now split].
    split; [|exact Hf]. simpl. apply store_record_all; [exact Hm|].
    apply P_note, (Hm token_type token), Dict.get_In, Eg.
Qed.

Lemma run_sound ops : forall s, sound P s -> sound P (run s ops).
Proof.
  induction ops as [|o ops IH]; intros s Hs; simpl; [exact Hs|].
  apply IH, step_sound, Hs.
Qed.

Lemma started_sound storage file :
  (forall f, file = Some f -> all_records P f) ->
  sound P (Durable.started storage file).
Proof.
  intros Hf. split; [|exact Hf]. simpl.
  destruct file as [f|]; [now apply Hf|].
  intros ty key data Hin. destruct ty; contradiction.
Qed.

End Invariant.

Lemma fresh_well_kept now : well_kept (fresh_record now).
Proof. unfold well_kept, get_failedCount. simpl. split; [lia|auto]. Qed.

Lemma failed_well_kept data st msg now :
  well_kept data -> well_kept (failed data st msg now).
Proof.
  intros [H0 _].
  assert (E : get_failedCount (failed data st msg now) = get_failedCount data + 1)
    by reflexivity.
  unfold well_kept. rewrite E. split; [lia|intros E0; lia].
Qed.

Lemma cleared_well_kept data : well_kept (cleared data).
Proof. unfold well_kept, get_failedCount. simpl. split; [lia|auto]. Qed.

(** Every record the pool holds is well kept: the store starts from a well
    kept file, or from none, and every operation keeps it so. *)
Lemma run_well_kept storage file ops :
  (forall f, file = Some f -> all_records well_kept f) ->
  sound well_kept (run (Durable.started storage file) ops).
Proof.
  intros Hf. apply run_sound; [| | | | | |now apply started_sound].
  - apply fresh_well_kept.
  - apply failed_well_kept.
  - intros data _. apply cleared_well_kept.
  - intros data n h H. exact H.
  - intros data l H. exact H.
  - intros data n H. exact H.
Qed.

End Pool.

Module PoolProps.
Import Token TokenFacts TokenAdmin Pool.

Definition m0 (data : TokenData) : Manager :=
  {| token_data := {| normal := [("abc", data)]; super := [] |};
     _save_pending := false |}.

Definition auth_abc : string := "sso-rw=abc;sso=abc".

Example extract_sso_ex : _extract_sso auth_abc = Some "abc".
Proof. reflexivity. Qed.

Example third_401_expires :
  option_map status
    (Dict.get (normal (token_data
       (record_failure (m0 (TokenExamples.rec_with "active" 2 50 (-1)))
          auth_abc 401 "Unauthorized" 1700000000000))) "abc")
  = Some (Some "expired").
Proof. reflexivity. Qed.

Example third_500_does_not_expire :
  option_map (fun d => (status d, failedCount d, lastFailureReason d))
    (Dict.get (normal (token_data
       (record_failure (m0 (TokenExamples.rec_with "active" 2 50 (-1)))
          auth_abc 500 "boom" 1700000000000))) "abc")
  = Some (Some "active", Some 3, Some "500: boom").
Proof. reflexivity. Qed.

Lemma select_token_never_expired td model key :
  all_expired td key -> select_token td model <> inr key.
Proof.
  intros Hall Hsel.
  destruct (SelectionProps.select_token_kept td model key Hsel)
    as (ty & data & Hin & _ & Hst & _).
  apply Hst, (Hall ty data Hin).
Qed.

(** A manager started without a file and without a storage backend, one
    credential added, and two of its requests answered 401, the saver
    running after each operation. *)
Definition two_failures : list op :=
  [AddToken ["abc"] NORMAL [1700000000000]; BatchSave;
   RecordFailure auth_abc 401 "Unauthorized" 1700000001000; BatchSave;
   RecordFailure auth_abc 401 "Unauthorized" 1700000002000; BatchSave].

Definition third_failure : op :=
  RecordFailure auth_abc 401 "Unauthorized" 1700000003000.

(** Status and failure count of the standard record under [key], in memory
    and in the file. *)
Definition in_memory (s : Durable.System) (key : string)
  : option (option string * option Z) :=
  option_map (fun d => (status d, failedCount d))
    (Dict.get (normal (token_data (Durable.manager s))) key).

Definition in_file (s : Durable.System) (key : string)
  : option (option string * option Z) :=
  match Durable.token_file s with
  | Some f =>
      option_map (fun d => (status d, failedCount d)) (Dict.get (normal f) key)
  | None => None
  end.

(** C2. Without a storage backend an expiry that the saver has not written
    yet is undone by the next selection: the third 401 expires the record in
    memory and marks the manager for saving, [select_token] reloads the file,
    where the record is active with two failures, and returns the key; the
    saver then writes the reloaded store, so the expiry is lost.  The same
    run selects nothing when the saver runs before the selection, or when a
    storage backend is set. *)
Theorem expiry_lost_on_reload :
  let s := run (Durable.started false None) (two_failures ++ [third_failure]) in
  let s' := fst (Durable.select_token s "grok-3") in
  in_memory s "abc" = Some (Some "expired", Some 3) /\
  _save_pending (Durable.manager s) = true /\
  in_file s "abc" = Some (Some "active", Some 2) /\
  snd (Durable.select_token s "grok-3") = inr "abc" /\
  in_memory s' "abc" = Some (Some "active", Some 2) /\
  in_file (Durable.batch_save s') "abc" = Some (Some "active", Some 2) /\
  snd (Durable.select_token (Durable.batch_save s) "grok-3")
  = inl (NO_AVAILABLE_TOKEN "grok-3" 1 0) /\
  snd (Durable.select_token
         (run (Durable.started true None) (two_failures ++ [third_failure]))
         "grok-3")
  = inl (NO_AVAILABLE_TOKEN "grok-3" 1 0).
Proof. vm_compute. repeat split. Qed.

Lemma select_settled s key model :
  settled s key ->
  settled (fst (Durable.select_token s model)) key /\
  snd (Durable.select_token s model) <> inr key.
Proof.
  intros Hs.
  pose proof (step_settled s (Select model) key eq_refl Hs) as H.
  split; [exact H|]. apply select_token_never_expired. exact (proj1 H).
Qed.

(** X30. An expiry that has settled is permanent.  A recorded failure with
    a status code in [400,500) that brings [failedCount] to [MAX_FAILURES]
    or more sets the status to [expired]; the expiry of a key is settled
    when a storage backend is set, or once the saver has written it; from
    then on no sequence of selections, recorded failures, recorded
    successes, quota updates and saver rounds makes the records of the key
    anything but expired, in memory or in the file, and no selection returns
    the key, whatever the quotas. *)
Theorem saved_expiry_is_permanent :
  (forall self auth_token st msg now ty sso data data',
     Dict.get (partition (token_data self) ty) sso = Some data ->
     Dict.get (partition
       (token_data (record_failure self auth_token st msg now)) ty) sso
       = Some data' ->
     400 <= st < 500 ->
     failedCount data' <> failedCount data ->
     get_failedCount data' >= MAX_FAILURES ->
     status data' = Some "expired") /\
  (forall s key,
     all_expired (token_data (Durable.manager s)) key ->
     (Durable._storage s = true -> settled s key) /\
     (_save_pending (Durable.manager s) = true ->
      settled (Durable.batch_save s) key)) /\
  (forall s ops key model,
     forallb on_selection_path ops = true ->
     settled s key ->
     settled (run s ops) key /\
     snd (Durable.select_token (run s ops) model) <> inr key /\
     settled (fst (Durable.select_token (run s ops) model)) key).
Proof.
  split; [|split].
  - intros self a st msg now ty sso data data' Hg Hg' Hst Hch Hn.
    unfold record_failure in Hg'.
    destruct (st =? STATSIG_INVALID); [congruence|].
    destruct (_extract_sso a) as [sso0|]; [|congruence].
    destruct (negb (Py.truthy sso0)); [congruence|].
    destruct (_find_token (token_data self) sso0) as [[ty0 data0]|] eqn:Hf;
      [|congruence].
    apply find_token_get in Hf.
    assert (Hsame : ty0 = ty /\ sso0 = sso).
    { destruct (String.eqb_spec sso0 sso) as [Es|Es].
      - split; [|assumption]. subst sso0.
        destruct ty0, ty; simpl in *; congruence.
      - exfalso. apply Hch. f_equal.
        destruct ty0, ty; simpl in *;
          try rewrite (Dict.get_set_other _ _ _ _ Es) in Hg'; congruence. }
    destruct Hsame as [-> ->].
    assert (Hd : data' = failed data0 st msg now).
    { destruct ty; simpl in Hg'; rewrite Dict.get_set_same in Hg'; congruence. }
    assert (data0 = data) by congruence. subst data0 data'.
    unfold get_failedCount at 1 in Hn. simpl in Hn. simpl.
    destruct Hst as [H4 H5].
    apply Z.leb_le in H4. apply Z.ltb_lt in H5. rewrite H4, H5. simpl.
    destruct (get_failedCount data + 1 >=? MAX_FAILURES) eqn:E;
      [reflexivity|].
    unfold Z.geb in E. unfold Z.ge in Hn.
    destruct (get_failedCount data + 1 ?= MAX_FAILURES); congruence.
  - intros s key Hall. split.
    + intros Es. split; [exact Hall|]. intros E. congruence.
    + intros Ep. unfold Durable.batch_save. rewrite Ep.
      split; [exact Hall|]. simpl. intros Es f. rewrite Es.
      intros [= <-]. exact Hall.
  - intros s ops key model Hp Hs.
    pose proof (run_settled ops s key Hp Hs) as H.
    destruct (select_settled _ _ model H) as [H1 H2]. auto.
Qed.

Lemma saved_expiry_is_permanent_witness :
  let m := m0 (TokenExamples.rec_with "active" 2 50 (-1)) in
  let m' := record_failure m auth_abc 401 "Unauthorized" 1700000000000 in
  let s :=
    Durable.batch_save
      {| Durable.manager := m';
         Durable._storage := false;
         Durable.token_file := Some (token_data m) |} in
  (exists data', Dict.get (normal (token_data m')) "abc" = Some data' /\
                 status data' = Some "expired") /\
  snd (Durable.select_token
         (run s [ResetFailure auth_abc; Select "grok-3";
                 RecordFailure auth_abc 500 "boom" 1700000000001;
                 BatchSave; UpdateLimits "abc" (Some 80) None])
         "grok-3") <> inr "abc".
Proof.
  intros m m' s. destruct saved_expiry_is_permanent as (Ha & Hb & Hc). split.
  - eexists. split; [reflexivity|].
    apply (Ha m auth_abc 401 "Unauthorized" 1700000000000 NORMAL "abc"
             (TokenExamples.rec_with "active" 2 50 (-1))).
    + reflexivity.
    + reflexivity.
    + lia.
    + discriminate.
    + vm_compute. discriminate.
  - apply Hc; [reflexivity|].
    apply (Hb {| Durable.manager := m';
                 Durable._storage := false;
                 Durable.token_file := Some (token_data m) |} "abc");
      [|reflexivity].
    intros ty data Hin. destruct ty; simpl in Hin.
    + destruct Hin as [Hin|[]]. injection Hin as <-. reflexivity.
    + contradiction.
Defined.

(** C6. [record_failure] with status code 403 changes nothing: the manager,
    and so every record with its failure count, failure time, failure
    reason and status, is what it was. *)
Theorem record_failure_403_ignored (self : Manager) (auth_token msg : string)
  (now : Z) :
  record_failure self auth_token 403 msg now = self /\
  forall ty key,
    Dict.get (partition
      (token_data (record_failure self auth_token 403 msg now)) ty) key
    = Dict.get (partition (token_data self) ty) key.
Proof. split; reflexivity. Qed.

End PoolProps.

Module SuccessProps.
Import Token TokenFacts TokenAdmin Pool PoolProps.

(** The statement that a recorded success always leaves a clean record: of
    every record the pool holds, after [reset_failure] with the cookie of
    its key. *)
Definition reset_always_clears : Prop :=
  forall storage ops ty key data,
    let self := Durable.manager (run (Durable.started storage None) ops) in
    Dict.get (partition (token_data self) ty) key = Some data ->
    exists data',
      Dict.get (partition
        (token_data (reset_failure self (Durable.cookie key))) ty) key
        = Some data' /\
      get_failedCount data' = 0 /\
      lastFailureTime data' = None /\
      lastFailureReason data' = None.

(** A secret added to the premium partition, a request with it answered
    500, and the same secret added to the standard partition. *)
Definition stored_twice : list op :=
  [AddToken ["abc"] SUPER [1700000000000];
   RecordFailure auth_abc 500 "boom" 1700000001000;
   AddToken ["abc"] NORMAL [1700000002000]].

(** A recorded success reaches the standard record of a secret stored in
    both partitions; the premium record keeps its failure count and
    metadata. *)
Lemma reset_failure_misses_premium : ~ reset_always_clears.
Proof.
  intros H.
  destruct (H false stored_twice SUPER "abc" _ eq_refl)
    as (data' & Hg & H0 & _).
  vm_compute in Hg. injection Hg as <-. discriminate.
Qed.

(** In that store a heavy request is given the premium record, and the
    success of the request leaves it with its failure. *)
Example premium_success_not_booked :
  let s := run (Durable.started false None) stored_twice in
  let self' := reset_failure (Durable.manager s) auth_abc in
  Durable.cookie "abc" = auth_abc /\
  snd (Durable.get_token s "grok-4-heavy") = inr auth_abc /\
  option_map (fun d => (failedCount d, lastFailureReason d))
    (Dict.get (super (token_data self')) "abc")
  = Some (Some 1, Some "500: boom") /\
  self' = Durable.manager s.
Proof. vm_compute. repeat split. Qed.

(** C8, amended. A recorded success clears the record [_find_token]
    resolves for the cookie, which is the standard record when the secret
    is stored in both partitions: in a pool started from no file, or from a
    file of well kept records, and run through any operations, that record
    ends with [failedCount] 0 and no failure time or reason, whatever its
    failure state was, the rest of it as before; the manager is marked for
    saving when the count was positive and is untouched when it was 0; every
    other record, the premium record of a doubly stored secret among them,
    is left as it is. *)
Theorem reset_failure_spec (storage : bool) (file : option TokenStore)
  (ops : list op) (auth_token sso : string) (ty : TokenType)
  (data : TokenData) :
  (forall f, file = Some f -> all_records well_kept f) ->
  let self := Durable.manager (run (Durable.started storage file) ops) in
  _extract_sso auth_token = Some sso ->
  sso <> "" ->
  _find_token (token_data self) sso = Some (ty, data) ->
  let self' := reset_failure self auth_token in
  (ty = SUPER -> Dict.get (normal (token_data self)) sso = None) /\
  (exists data',
     Dict.get (partition (token_data self') ty) sso = Some data' /\
     get_failedCount data' = 0 /\
     lastFailureTime data' = None /\
     lastFailureReason data' = None /\
     createdTime data' = createdTime data /\
     remainingQueries data' = remainingQueries data /\
     heavyremainingQueries data' = heavyremainingQueries data /\
     status data' = status data /\
     tags data' = tags data /\
     note data' = note data) /\
  (0 < get_failedCount data -> _save_pending self' = true) /\
  (get_failedCount data = 0 -> self' = self) /\
  (forall ty' k, ty' <> ty \/ k <> sso ->
     Dict.get (partition (token_data self') ty') k
     = Dict.get (partition (token_data self) ty') k).
Proof.
  intros Hfile self He Hne Hf self'.
  assert (Hw : well_kept data).
  { destruct (run_well_kept storage file ops Hfile) as [Hm _].
    exact (Hm _ _ _ (find_token_In _ _ _ _ Hf)). }
  pose proof (find_token_get _ _ _ _ Hf) as Hg.
  assert (Ht : negb (Py.truthy sso) = false).
  { destruct sso; [congruence|reflexivity]. }
  assert (Hr : self' = if get_failedCount data >? 0
                       then _mark_dirty (store_record self ty sso (cleared data))
                       else self).
  { subst self'. unfold reset_failure. now rewrite He, Ht, Hf. }
  split; [|split; [|split; [|split]]].
  - intros ->. unfold _find_token in Hf.
    destruct (Dict.get (normal (token_data self)) sso); [discriminate|].
    reflexivity.
  - rewrite Hr. destruct (Z.gtb_spec (get_failedCount data) 0) as [Hp|Hn].
    + exists (cleared data). cbn [token_data _mark_dirty store_record].
      rewrite partition_set_same, Dict.get_set_same.
      repeat split; reflexivity.
    + exists data. destruct Hw as [H0 Hm].
      assert (E : get_failedCount data = 0) by lia.
      destruct (Hm E) as [H1 H2]. repeat split; auto.
  - intros Hp. rewrite Hr.
    destruct (Z.gtb_spec (get_failedCount data) 0); [reflexivity|lia].
  - intros E. rewrite Hr.
    destruct (Z.gtb_spec (get_failedCount data) 0); [lia|reflexivity].
  - intros ty' k Hk. rewrite Hr.
    destruct (get_failedCount data >? 0); [|reflexivity].
    cbn [token_data _mark_dirty store_record].
    destruct ty, ty'; cbn [partition set_partition normal super];
      try reflexivity;
      (destruct Hk as [Hk|Hk]; [congruence|]);
      apply Dict.get_set_other; congruence.
Qed.

Lemma reset_failure_spec_witness :
  let self := Durable.manager (run (Durable.started false None) stored_twice) in
  let self' :=
    reset_failure (record_failure self auth_abc 429 "slow down" 1700000003000)
      auth_abc in
  (exists data',
     Dict.get (normal (token_data self')) "abc" = Some data' /\
     get_failedCount data' = 0 /\
     lastFailureTime data' = None /\
     lastFailureReason data' = None) /\
  option_map failedCount (Dict.get (super (token_data self')) "abc")
  = Some (Some 1).
Proof.
  intros self self'.
  destruct (reset_failure_spec false None
              (stored_twice
               ++ [RecordFailure auth_abc 429 "slow down" 1700000003000])
              auth_abc "abc" NORMAL
              (failed (fresh_record 1700000002000) 429 "slow down"
                 1700000003000))
    as (_ & (data' & Hg & H0 & H1 & H2 & _) & _ & _ & Hother).
  - discriminate.
  - reflexivity.
  - discriminate.
  - reflexivity.
  - split.
    + exists data'. auto.
    + reflexivity.
Defined.

End SuccessProps.

Module AddProps.
Import Token TokenFacts TokenAdmin Pool PoolProps.

(** The pool of [two_failures] after the third 401, the expiry written to
    the file. *)
Definition expired_on_file : list op :=
  (two_failures ++ [third_failure; BatchSave])%list.

Definition readd : op := AddToken ["abc"] NORMAL [1700000004000].

(** C10. Without a storage backend a credential added again is lost to the
    next selection when the saver has not run in between: [add_token] puts
    the fresh record in memory and marks the manager for saving,
    [select_token] reloads the file, where the record is expired, and finds
    no candidate; the saver then writes the reloaded store, so the
    credential stays expired.  The same run selects the credential when the
    saver runs before the selection, or when a storage backend is set. *)
Theorem readd_lost_on_reload :
  let s := run (Durable.started false None) expired_on_file in
  let s1 := step s readd in
  let s2 := fst (Durable.select_token s1 "grok-3") in
  in_memory s "abc" = Some (Some "expired", Some 3) /\
  in_file s "abc" = Some (Some "expired", Some 3) /\
  Dict.get (normal (token_data (Durable.manager s1))) "abc"
  = Some (fresh_record 1700000004000) /\
  _save_pending (Durable.manager s1) = true /\
  snd (Durable.select_token s1 "grok-3")
  = inl (NO_AVAILABLE_TOKEN "grok-3" 1 0) /\
  in_memory s2 "abc" = Some (Some "expired", Some 3) /\
  in_file (Durable.batch_save s2) "abc" = Some (Some "expired", Some 3) /\
  snd (Durable.select_token (Durable.batch_save s1) "grok-3") = inr "abc" /\
  snd (Durable.select_token
         (step (run (Durable.started true None) expired_on_file) readd)
         "grok-3")
  = inr "abc".
Proof. vm_compute. repeat split. Qed.

Lemma blank_skipped token :
  negb (Py.truthy token) || negb (Py.truthy (Py.strip token)) = false <->
  Py.strip token <> "".
Proof.
  destruct token as [|c s].
  - simpl. split; [discriminate|intros H; exfalso; now apply H].
  - change (Py.truthy (String c s)) with true. cbn [negb orb].
    destruct (Py.strip (String c s)); cbn [Py.truthy negb]; split;
      congruence.
Qed.

Lemma add_loop_keeps_fresh tokens : forall p clock token now,
  Dict.get p token = Some (fresh_record now) ->
  exists now', Dict.get (add_loop p tokens clock) token
               = Some (fresh_record now').
Proof.
  induction tokens as [|t tokens IH]; intros p clock token now Hg; simpl.
  - eauto.
  - destruct (negb (Py.truthy t) || negb (Py.truthy (Py.strip t))).
    + eapply IH; eauto.
    + destruct (String.eqb_spec t token) as [->|Hne].
      * eapply IH. apply Dict.get_set_same.
      * eapply IH. rewrite Dict.get_set_other by assumption. eauto.
Qed.

Lemma add_loop_fresh tokens : forall p clock token,
  In token tokens -> Py.strip token <> "" ->
  exists now, Dict.get (add_loop p tokens clock) token
              = Some (fresh_record now).
Proof.
  induction tokens as [|t tokens IH]; intros p clock token Hin Hs; simpl;
    [contradiction|].
  destruct Hin as [->|Hin].
  - apply blank_skipped in Hs. rewrite Hs.
    eapply add_loop_keeps_fresh. apply Dict.get_set_same.
  - destruct (negb (Py.truthy t) || negb (Py.truthy (Py.strip t))); eauto.
Qed.

Lemma add_loop_keys tokens : forall p clock,
  (forall t, In t tokens -> Dict.mem p t = true) ->
  map fst (add_loop p tokens clock) = map fst p.
Proof.
  induction tokens as [|t tokens IH]; intros p clock Hall; simpl;
    [reflexivity|].
  destruct (negb (Py.truthy t) || negb (Py.truthy (Py.strip t))).
  - apply IH. intros; apply Hall; now right.
  - assert (Hm : Dict.mem p t = true) by (apply Hall; now left).
    rewrite IH.
    + now apply Dict.keys_set_mem.
    + intros t' Hin. unfold Dict.mem.
      destruct (String.eqb_spec t t') as [->|Hne].
      * now rewrite Dict.get_set_same.
      * rewrite Dict.get_set_other by assumption.
        apply (Hall t'). now right.
Qed.

Lemma fresh_unused field key now : unusedb field (key, fresh_record now) = true.
Proof.
  unfold unusedb, keptb, get_remaining. simpl.
  destruct (String.eqb field "remainingQueries"); [reflexivity|].
  destruct (String.eqb field "heavyremainingQueries"); reflexivity.
Qed.

Lemma select_best_unused tokens field kv :
  In kv tokens -> unusedb field kv = true ->
  exists key, select_best tokens field = Some (key, -1).
Proof.
  intros Hin Hu. unfold select_best. rewrite fold_select. simpl.
  pose proof (map_filter_In fst (unusedb field) tokens kv Hin Hu) as H.
  destruct (map fst (filter (unusedb field) tokens)) as [|key us];
    [contradiction|eauto].
Qed.

(** In memory, a secret that is not blank and is given to [add_token] ends
    up stored with a fresh default record, whatever record the partition
    held under it, its place in the iteration order kept; the manager is
    marked for saving and the fresh record is an unused candidate. *)
Lemma add_token_in_memory (self : Manager) (tokens : list string)
  (ty : TokenType) (clock : list Z) (token : string) :
  In token tokens ->
  Py.strip token <> "" ->
  let self' := add_token self tokens ty clock in
  exists now,
    Dict.get (partition (token_data self') ty) token
      = Some (fresh_record now) /\
    _save_pending self' = true /\
    (tokens = [token] ->
     Dict.mem (partition (token_data self) ty) token = true ->
     map fst (partition (token_data self') ty)
     = map fst (partition (token_data self) ty)) /\
    forall field,
      unusedb field (token, fresh_record now) = true /\
      exists key,
        select_best (partition (token_data self') ty) field = Some (key, -1).
Proof.
  intros Hin Hs self'. subst self'. unfold add_token.
  destruct tokens as [|t0 tokens0] eqn:Et; [contradiction|]. rewrite <- Et in *.
  simpl. rewrite partition_set_same.
  destruct (add_loop_fresh tokens (partition (token_data self) ty) clock token
              Hin Hs) as (now & Hg).
  exists now. split; [exact Hg|].
  split; [reflexivity|]. split.
  - intros E Hm. apply add_loop_keys.
    intros t Ht. rewrite E in Ht. destruct Ht as [<-|[]]. assumption.
  - intros field. split; [apply fresh_unused|].
    eapply select_best_unused; [|apply (fresh_unused field token now)].
    apply Dict.get_In. exact Hg.
Qed.

End AddProps.

(** ** The proxy pool ([app/core/proxy_pool.py]) *)

Module Proxy.

Record ProxyPool := {
  _pool_url : option string;
  _static_proxy : option string;
  _current_proxy : option string;
  _last_fetch_time : Z;
  _fetch_interval : Z;
  _enabled : bool
}.

(** [ProxyPool.__init__] *)
Definition init : ProxyPool :=
  {| _pool_url := None; _static_proxy := None; _current_proxy := None;
     _last_fetch_time := 0; _fetch_interval := 300; _enabled := false |}.

(** Truth value of an optional string: [None] and the empty string are
    false. *)
Definition truthy_opt (o : option string) : bool :=
  match o with Some s => Py.truthy s | None => false end.

(** [_normalize_proxy] *)
Definition _normalize_proxy (proxy : string) : string :=
  if negb (Py.truthy proxy) then proxy
  else
    let proxy := Py.strip proxy in
    let proxy :=
      if Py.startswith proxy "sock5h://"
      then Py.replace1 "sock5h://" "socks5h://" proxy else proxy in
    let proxy :=
      if Py.startswith proxy "sock5://"
      then Py.replace1 "sock5://" "socks5://" proxy else proxy in
    if Py.startswith proxy "socks5://"
    then Py.replace1 "socks5://" "socks5h://" proxy
    else proxy.

(** [_looks_like_proxy_url] *)
Definition _looks_like_proxy_url (url : string) : bool :=
  Py.startswith url "sock5://" || Py.startswith url "sock5h://"
  || Py.startswith url "socks5://" || Py.startswith url "socks5h://".

(** [_validate_proxy] *)
Definition _validate_proxy (proxy : string) : bool :=
  if negb (Py.truthy proxy) then false
  else existsb (Py.startswith proxy)
         ["http://"; "https://"; "socks5://"; "socks5h://"].

(** [configure] *)
Definition configure (self : ProxyPool) (proxy_url proxy_pool_url : string)
  (proxy_pool_interval : Z) : ProxyPool :=
  let static_proxy :=
    if Py.truthy proxy_url then Some (_normalize_proxy proxy_url) else None in
  let pool_url :=
    if Py.truthy proxy_pool_url then Some (Py.strip proxy_pool_url)
    else None in
  let '(static_proxy, pool_url) :=
    match pool_url with
    | Some url =>
        if Py.truthy url && _looks_like_proxy_url url
        then
          let normalized_proxy := _normalize_proxy url in
          (if negb (truthy_opt static_proxy) then Some normalized_proxy
           else static_proxy, None)
        else (static_proxy, pool_url)
    | None => (static_proxy, pool_url)
    end in
  let enabled := truthy_opt pool_url in
  {| _pool_url := pool_url;
     _static_proxy := static_proxy;
     _current_proxy :=
       if enabled then _current_proxy self
       else if truthy_opt static_proxy then static_proxy
            else _current_proxy self;
     _last_fetch_time := _last_fetch_time self;
     _fetch_interval := proxy_pool_interval;
     _enabled := enabled |}.

(** What the fetch from the pool source gave. *)
Inductive fetched :=
| Responded (http_status : Z) (text : string)
| TimedOut
| Failed.

(** [_fetch_proxy]; [now] is [time.time()] at a successful fetch. *)
Definition _fetch_proxy (self : ProxyPool) (r : fetched) (now : Z)
  : ProxyPool :=
  let fallback :=
    {| _pool_url := _pool_url self;
       _static_proxy := _static_proxy self;
       _current_proxy :=
         if negb (truthy_opt (_current_proxy self)) then _static_proxy self
         else _current_proxy self;
       _last_fetch_time := _last_fetch_time self;
       _fetch_interval := _fetch_interval self;
       _enabled := _enabled self |} in
  match r with
  | Responded 200 text =>
      let proxy := _normalize_proxy (Py.strip text) in
      if _validate_proxy proxy
      then {| _pool_url := _pool_url self;
              _static_proxy := _static_proxy self;
              _current_proxy := Some proxy;
              _last_fetch_time := now;
              _fetch_interval := _fetch_interval self;
              _enabled := _enabled self |}
      else fallback
  | _ => fallback
  end.

(** [force_refresh]: the pool afterwards and the address returned. *)
Definition force_refresh (self : ProxyPool) (r : fetched) (now : Z)
  : ProxyPool * option string :=
  if negb (_enabled self) then (self, _static_proxy self)
  else let self' := _fetch_proxy self r now in (self', _current_proxy self').

Example normalize_ex :
  map _normalize_proxy
    ["sock5://h:1"; "sock5h://h:1"; "socks5://h:1"; "socks5h://h:1";
     " socks5://u:p@h:1 "; "http://h:1"; ""]
  = ["socks5h://h:1"; "socks5h://h:1"; "socks5h://h:1"; "socks5h://h:1";
     "socks5h://u:p@h:1"; "http://h:1"; ""].
Proof. reflexivity. Qed.

Example configure_pool_literal :
  configure init "" "socks5://10.0.0.1:1080" 60
  = {| _pool_url := None;
       _static_proxy := Some "socks5h://10.0.0.1:1080";
       _current_proxy := Some "socks5h://10.0.0.1:1080";
       _last_fetch_time := 0; _fetch_interval := 60; _enabled := false |}.
Proof. reflexivity. Qed.

Example configure_pool_source :
  configure init "http://p:8080" " https://pool.example/api " 60
  = {| _pool_url := Some "https://pool.example/api";
       _static_proxy := Some "http://p:8080";
       _current_proxy := None;
       _last_fetch_time := 0; _fetch_interval := 60; _enabled := true |}.
Proof. reflexivity. Qed.

End Proxy.

Module ProxyFacts.
Import Proxy.

Lemma rstrip_cons c s :
  Py.is_space c = false -> Py.rstrip (String c s) = String c (Py.rstrip s).
Proof. intros H. simpl. rewrite H. now destruct (Py.rstrip s). Qed.

Lemma rstrip_idem s : Py.rstrip (Py.rstrip s) = Py.rstrip s.
Proof.
  induction s as [|c s IH]; [reflexivity|]. simpl.
  destruct (Py.rstrip s) as [|c' r] eqn:E.
  - destruct (Py.is_space c) eqn:Ec; [reflexivity|]. simpl. now rewrite Ec.
  - change (Py.rstrip (String c (String c' r)))
      with (match Py.rstrip (String c' r) with
            | EmptyString =>
                if Py.is_space c then EmptyString else String c EmptyString
            | r0 => String c r0
            end).
    now rewrite IH.
Qed.

Lemma rstrip_tail c s :
  Py.rstrip (String c s) = String c s -> Py.rstrip s = s.
Proof.
  simpl. destruct (Py.rstrip s) as [|c' r] eqn:E.
  - destruct (Py.is_space c); [discriminate|]. now intros [= <-].
  - now intros [= <-].
Qed.

Lemma rstrip_drop n : forall s, Py.rstrip s = s -> Py.rstrip (Py.drop n s) = Py.drop n s.
Proof.
  induction n as [|n IH]; intros s H; [now destruct s|].
  destruct s as [|c s]; [reflexivity|]. simpl. apply IH.
  now apply rstrip_tail in H.
Qed.

Lemma lstrip_head s :
  match Py.lstrip s with
  | String c _ => Py.is_space c = false
  | EmptyString => True
  end.
Proof.
  induction s as [|c s IH]; simpl; [exact I|].
  destruct (Py.is_space c) eqn:E; [exact IH|exact E].
Qed.

Lemma strip_head s :
  match Py.strip s with
  | String c _ => Py.is_space c = false
  | EmptyString => True
  end.
Proof.
  unfold Py.strip. pose proof (lstrip_head s) as H.
  destruct (Py.lstrip s) as [|c r]; [exact I|].
  rewrite (rstrip_cons _ _ H). exact H.
Qed.

Lemma strip_idem s : Py.strip (Py.strip s) = Py.strip s.
Proof.
  pose proof (strip_head s) as H. unfold Py.strip at 1.
  destruct (Py.strip s) as [|c r] eqn:E; [reflexivity|].
  simpl Py.lstrip. rewrite H. rewrite <- E. unfold Py.strip.
  apply rstrip_idem.
Qed.

Lemma rstrip_strip s : Py.rstrip (Py.strip s) = Py.strip s.
Proof. unfold Py.strip. apply rstrip_idem. Qed.

Lemma prefix_drop p : forall s,
  Py.startswith s p = true -> s = p ++ Py.drop (length p) s.
Proof.
  induction p as [|a p IH]; intros s H; [now destruct s|].
  destruct s as [|b s]; simpl in H; [discriminate|].
  apply andb_prop in H. destruct H as [Hab H].
  apply Ascii.eqb_eq in Hab. subst b. simpl. f_equal. auto.
Qed.

(** The rewriting of the scheme in [_normalize_proxy], after the strip. *)
Definition rescheme (proxy : string) : string :=
  let proxy :=
    if Py.startswith proxy "sock5h://"
    then Py.replace1 "sock5h://" "socks5h://" proxy else proxy in
  let proxy :=
    if Py.startswith proxy "sock5://"
    then Py.replace1 "sock5://" "socks5://" proxy else proxy in
  if Py.startswith proxy "socks5://"
  then Py.replace1 "socks5://" "socks5h://" proxy
  else proxy.

Lemma normalize_unfold p :
  _normalize_proxy p = if negb (Py.truthy p) then p else rescheme (Py.strip p).
Proof. reflexivity. Qed.

Lemma rescheme_canonical t : rescheme ("socks5h://" ++ t) = "socks5h://" ++ t.
Proof. reflexivity. Qed.

Lemma rescheme_alias t :
  rescheme ("sock5h://" ++ t) = "socks5h://" ++ t /\
  rescheme ("sock5://" ++ t) = "socks5h://" ++ t /\
  rescheme ("socks5://" ++ t) = "socks5h://" ++ t.
Proof. repeat split; reflexivity. Qed.

Lemma rescheme_cases q :
  (exists t n, t = Py.drop n q /\ rescheme q = "socks5h://" ++ t) \/
  rescheme q = q.
Proof.
  destruct (Py.startswith q "sock5h://") eqn:E1.
  - left. pose proof (prefix_drop _ _ E1) as H. exists (Py.drop 9 q), 9%nat.
    split; [reflexivity|]. rewrite H at 1. apply rescheme_alias.
  - destruct (Py.startswith q "sock5://") eqn:E2.
    + left. pose proof (prefix_drop _ _ E2) as H. exists (Py.drop 8 q), 8%nat.
      split; [reflexivity|]. rewrite H at 1. apply rescheme_alias.
    + destruct (Py.startswith q "socks5://") eqn:E3.
      * left. pose proof (prefix_drop _ _ E3) as H.
        exists (Py.drop 9 q), 9%nat.
        split; [reflexivity|]. rewrite H at 1. apply rescheme_alias.
      * right. unfold rescheme. now rewrite E1, E2, E3.
Qed.

Lemma canonical_stripped t :
  Py.rstrip t = t -> Py.strip ("socks5h://" ++ t) = "socks5h://" ++ t.
Proof.
  intros H. unfold Py.strip. simpl Py.lstrip.
  change ("socks5h://" ++ t) with
    (String "s" (String "o" (String "c" (String "k" (String "s" (String "5"
      (String "h" (String ":" (String "/" (String "/" t)))))))))).
  rewrite !rstrip_cons by reflexivity. now rewrite H.
Qed.

Lemma normalize_idem p :
  _normalize_proxy (_normalize_proxy p) = _normalize_proxy p.
Proof.
  rewrite (normalize_unfold p). destruct p as [|c p]; [reflexivity|].
  cbn [Py.truthy negb]. set (q := Py.strip (String c p)).
  assert (Hq : Py.rstrip q = q) by apply rstrip_strip.
  destruct (rescheme_cases q) as [(t & n & Ht & Hr)|Hr]; rewrite Hr.
  - assert (Hs : Py.rstrip t = t) by (subst t; now apply rstrip_drop).
    rewrite normalize_unfold. cbn [append Py.truthy negb].
    change (String "s" (String "o" (String "c" (String "k" (String "s"
      (String "5" (String "h" (String ":" (String "/" (String "/" t))))))))))
      with ("socks5h://" ++ t).
    rewrite (canonical_stripped _ Hs). apply rescheme_canonical.
  - rewrite normalize_unfold. destruct (Py.truthy q); [|reflexivity].
    cbn [negb]. unfold q. rewrite strip_idem. exact Hr.
Qed.

End ProxyFacts.

Module ProxyProps.
Import Proxy ProxyFacts.

Lemma strip_scheme c s :
  Py.is_space c = false ->
  Py.strip (String c s) = String c (Py.rstrip s).
Proof.
  intros H. unfold Py.strip. simpl Py.lstrip. rewrite H.
  now apply rstrip_cons.
Qed.

Lemma normalize_alias rest :
  _normalize_proxy ("sock5://" ++ rest) = "socks5h://" ++ Py.rstrip rest /\
  _normalize_proxy ("sock5h://" ++ rest) = "socks5h://" ++ Py.rstrip rest /\
  _normalize_proxy ("socks5://" ++ rest) = "socks5h://" ++ Py.rstrip rest /\
  _normalize_proxy ("socks5h://" ++ rest) = "socks5h://" ++ Py.rstrip rest.
Proof.
  repeat split; rewrite normalize_unfold; cbn [append Py.truthy negb];
    rewrite strip_scheme by reflexivity;
    rewrite !rstrip_cons by reflexivity.
  - exact (proj1 (proj2 (rescheme_alias _))).
  - exact (proj1 (rescheme_alias _)).
  - exact (proj2 (proj2 (rescheme_alias _))).
  - exact (rescheme_canonical _).
Qed.




End ProxyProps.

(** ** The request executor ([app/services/grok/client.py]) *)

Module Client.

Definition MAX_OUTER_RETRY : nat := 3.
Definition max_403_retries : nat := 5.

(** An upstream response: its status code, [str(response.json())] when the
    body is JSON, and [response.text]. *)
Record Response := {
  status_code : Z;
  json_str : option string;
  text : string
}.

(** What [curl_requests.post] did: it answered, raised [RequestsError], or
    something else in the [try] block raised. *)
Inductive Sent :=
| Answered (response : Response)
| RequestsError (e : string)
| OtherException (e : string).

Record GrokApiException := {
  message : string;
  error_code : string;
  status : option Z
}.

(** What [_request] hands back: the stream generator over the response, or
    the completion [process_normal] composed. *)
Inductive Result :=
| StreamOf (response : Response)
| Completion (content : string).

Inductive Outcome :=
| Returned (r : Result)
| Raised (e : GrokApiException).

(** The observable steps of a call.  Durations are in milliseconds; [Post]
    carries the outer attempt, the inner 403 retry count and the outcome of
    the request; the [Task] events are the coroutines handed to
    [asyncio.create_task]. *)
Inductive event :=
| GetProxy
| ForceRefresh
| Post (outer_retry retry_403_count : nat) (sent : Sent)
| Sleep (ms : Z)
| TaskResetFailure
| TaskRecordFailure (st : Z) (msg : string)
| TaskUpdateLimits.

(** The surroundings of a call: the configured retryable status codes,
    [proxy_pool._enabled], the outcome of the n-th request issued, and
    [process_normal]. *)
Record Env := {
  retry_codes : list Z;
  enabled : bool;
  upstream : nat -> Sent;
  process_normal : Response -> GrokApiException + string
}.

(** The default of [retry_status_codes]. *)
Definition default_retry_codes : list Z := [401; 429].

Record World := {
  sent_count : nat;
  log : list event
}.

Definition start : World := {| sent_count := 0; log := [] |}.

Definition emit (e : event) (w : World) : World :=
  {| sent_count := sent_count w; log := (log w ++ [e])%list |}.

Definition post (env : Env) (outer_retry retry_403_count : nat) (w : World)
  : Sent * World :=
  let s := upstream env (sent_count w) in
  (s, {| sent_count := S (sent_count w);
         log := (log w ++ [Post outer_retry retry_403_count s])%list |}).

Definition code_in (st : Z) (codes : list Z) : bool :=
  existsb (Z.eqb st) codes.

(** [_handle_error]: the message, the exception raised, and the failure
    report handed to the token manager. *)
Definition error_msg (response : Response) : string :=
  if status_code response =? 403
  then "Your IP is blocked. Try one of: 1.Change IP 2.Use proxy 3.Configure CF value"
  else match json_str response with
       | Some s => s
       | None =>
           if Py.truthy (text response)
           then substring 0 200 (text response)
           else "Unknown error"
       end.

Definition http_error (response : Response) : GrokApiException :=
  {| message := "Request failed: " ++ Py.str_of_Z (status_code response)
                ++ " - " ++ error_msg response;
     error_code := "HTTP_ERROR";
     status := Some (status_code response) |}.

Definition _handle_error (response : Response) (w : World)
  : Outcome * World :=
  (Raised (http_error response),
   emit (TaskRecordFailure (status_code response) (error_msg response)) w).

(** The end of a successful attempt. *)
Definition deliver (env : Env) (stream : bool) (response : Response)
  (w : World) : Outcome * World :=
  let w := emit TaskResetFailure w in
  if stream then (Returned (StreamOf response), emit TaskUpdateLimits w)
  else match process_normal env response with
       | inr content => (Returned (Completion content), emit TaskUpdateLimits w)
       | inl e => (Raised e, w)
       end.

(** How one run of the inner [while] loop ends. *)
Inductive InnerExit :=
| LoopEnd
| Break
| Finished (o : Outcome).

(** The inner loop [while retry_403_count <= max_403_retries]; [None] when
    [fuel] iterations were not enough. *)
Fixpoint while_403 (env : Env) (stream : bool) (fuel : nat)
  (outer_retry retry_403_count : nat) (w : World)
  : option (InnerExit * World) :=
  match fuel with
  | O => None
  | S fuel' =>
      if negb (retry_403_count <=? max_403_retries)%nat then Some (LoopEnd, w)
      else
        let w :=
          if (0 <? retry_403_count)%nat && enabled env
          then emit ForceRefresh w else emit GetProxy w in
        match post env outer_retry retry_403_count w with
        | (RequestsError e, w) =>
            Some (Finished (Raised {| message := "Network error: " ++ e;
                                      error_code := "NETWORK_ERROR";
                                      status := None |}), w)
        | (OtherException e, w) =>
            Some (Finished (Raised {| message := "Request error: " ++ e;
                                      error_code := "REQUEST_ERROR";
                                      status := None |}), w)
        | (Answered response, w) =>
            let blocked := (status_code response =? 403) && enabled env in
            let retry_403_count :=
              if blocked then S retry_403_count else retry_403_count in
            if blocked && (retry_403_count <=? max_403_retries)%nat
            then while_403 env stream fuel' outer_retry retry_403_count
                   (emit (Sleep 500) w)
            else if code_in (status_code response) (retry_codes env)
            then
              if (outer_retry <? MAX_OUTER_RETRY)%nat
              then Some (Break,
                         emit (Sleep ((Z.of_nat outer_retry + 1) * 100)) w)
              else let '(o, w) := _handle_error response w in
                   Some (Finished o, w)
            else if negb (status_code response =? 200)
            then let '(o, w) := _handle_error response w in
                 Some (Finished o, w)
            else let '(o, w) := deliver env stream response w in
                 Some (Finished o, w)
        end
  end.

(** The outer loop [for outer_retry in range(MAX_OUTER_RETRY + 1)]. *)
Fixpoint for_outer (env : Env) (stream : bool) (fuel : nat)
  (outer_retries : list nat) (w : World) : option (Outcome * World) :=
  match outer_retries with
  | [] =>
      Some (Raised {| message := "Request failed: Max retries exceeded";
                      error_code := "MAX_RETRIES_EXCEEDED";
                      status := None |}, w)
  | outer_retry :: rest =>
      match while_403 env stream fuel outer_retry 0 w with
      | None => None
      | Some (Finished o, w) => Some (o, w)
      | Some (_, w) => for_outer env stream fuel rest w
      end
  end.

(** [_request]; the inner loop is given seven iterations.  The payload,
    the headers and the model only shape the request that is sent. *)
Definition _request (env : Env) (token : string) (stream : bool)
  : option (Outcome * World) :=
  if negb (Py.truthy token)
  then Some (Raised {| message := "Auth token missing";
                       error_code := "NO_AUTH_TOKEN";
                       status := None |}, start)
  else for_outer env stream (S (S max_403_retries))
         (seq 0 (S MAX_OUTER_RETRY)) start.

End Client.

Module ClientFacts.
Import Client.

Definition network_error (e : string) : GrokApiException :=
  {| message := "Network error: " ++ e; error_code := "NETWORK_ERROR";
     status := None |}.

Definition request_error (e : string) : GrokApiException :=
  {| message := "Request error: " ++ e; error_code := "REQUEST_ERROR";
     status := None |}.

Definition max_retries_exceeded : GrokApiException :=
  {| message := "Request failed: Max retries exceeded";
     error_code := "MAX_RETRIES_EXCEEDED"; status := None |}.

Section Shape.
Variable env : Env.
Variable stream : bool.

(** The proxy lookup that opens an iteration of the inner loop. *)
Definition proxy_event (retry_403_count : nat) : event :=
  if (0 <? retry_403_count)%nat && enabled env then ForceRefresh else GetProxy.

(** What a successful attempt returns and logs. *)
Definition delivered (r : Response) : Outcome := fst (deliver env stream r start).
Definition delivered_events (r : Response) : list event :=
  log (snd (deliver env stream r start)).

(** How an iteration of the inner loop that is not retried on 403 ends:
    the events after the request and the exit of the loop. *)
Inductive closing (o : nat) : Sent -> list event -> InnerExit -> Prop :=
| close_break r :
    code_in (status_code r) (retry_codes env) = true ->
    (o < MAX_OUTER_RETRY)%nat ->
    closing o (Answered r) [Sleep ((Z.of_nat o + 1) * 100)] Break
| close_exhausted r :
    code_in (status_code r) (retry_codes env) = true ->
    (MAX_OUTER_RETRY <= o)%nat ->
    closing o (Answered r)
      [TaskRecordFailure (status_code r) (error_msg r)]
      (Finished (Raised (http_error r)))
| close_error r :
    code_in (status_code r) (retry_codes env) = false ->
    status_code r <> 200 ->
    closing o (Answered r)
      [TaskRecordFailure (status_code r) (error_msg r)]
      (Finished (Raised (http_error r)))
| close_ok r :
    code_in (status_code r) (retry_codes env) = false ->
    status_code r = 200 ->
    closing o (Answered r) (delivered_events r) (Finished (delivered r))
| close_network e :
    closing o (RequestsError e) [] (Finished (Raised (network_error e)))
| close_request e :
    closing o (OtherException e) [] (Finished (Raised (request_error e))).

(** The events and the exit of one run of the inner loop entered with count
    [i]: requests answered 403 with the pool enabled, each followed by the
    0.5 s sleep and retried, then one request that is not retried. *)
Inductive attempt_log (o : nat) : nat -> list event -> InnerExit -> Prop :=
| attempt_last i s rest x :
    (i <= max_403_retries)%nat ->
    (forall r, s = Answered r -> status_code r = 403 -> enabled env = true ->
               i = max_403_retries) ->
    closing o s rest x ->
    attempt_log o i (proxy_event i :: Post o i s :: rest) x
| attempt_retry i r l x :
    (S i <= max_403_retries)%nat ->
    enabled env = true ->
    status_code r = 403 ->
    attempt_log o (S i) l x ->
    attempt_log o i
      (proxy_event i :: Post o i (Answered r) :: Sleep 500 :: l) x.

(** The events and the outcome of the outer loop over the attempts [os]. *)
Inductive run_log : list nat -> list event -> Outcome -> Prop :=
| run_none : run_log [] [] (Raised max_retries_exceeded)
| run_stop o os l out :
    attempt_log o 0 l (Finished out) -> run_log (o :: os) l out
| run_next o os l l' out :
    attempt_log o 0 l Break -> run_log os l' out ->
    run_log (o :: os) (l ++ l')%list out.

Lemma emit_proxy_log i w :
  log (if (0 <? i)%nat && enabled env then emit ForceRefresh w
       else emit GetProxy w) = (log w ++ [proxy_event i])%list.
Proof. unfold proxy_event. now destruct ((0 <? i)%nat && enabled env). Qed.

Lemma deliver_split r w :
  fst (deliver env stream r w) = delivered r /\
  log (snd (deliver env stream r w)) = (log w ++ delivered_events r)%list.
Proof.
  unfold delivered, delivered_events, deliver. destruct stream.
  - simpl. split; [reflexivity|]. now rewrite <- app_assoc.
  - destruct (process_normal env r); simpl; split; try reflexivity.
    now rewrite <- app_assoc.
Qed.

Lemma while_403_shape fuel : forall o i w x w',
  (i <= max_403_retries)%nat ->
  while_403 env stream fuel o i w = Some (x, w') ->
  exists l, log w' = (log w ++ l)%list /\ attempt_log o i l x.
Proof.
  induction fuel as [|fuel IH]; intros o i w x w' Hi H;
    cbn [while_403] in H; [discriminate|].
  assert (Hc : (i <=? max_403_retries)%nat = true) by now apply Nat.leb_le.
  rewrite Hc in H. cbn [negb] in H.
  set (w1 := if (0 <? i)%nat && enabled env then emit ForceRefresh w
             else emit GetProxy w) in H.
  assert (Hw1 : log w1 = (log w ++ [proxy_event i])%list)
    by apply emit_proxy_log.
  unfold post in H.
  set (w2 := {| sent_count := S (sent_count w1);
                log := (log w1 ++ [Post o i (upstream env (sent_count w1))])%list |})
    in H.
  assert (Hw2 : log w2 = (log w ++ [proxy_event i;
                                     Post o i (upstream env (sent_count w1))])%list).
  { unfold w2. simpl. rewrite Hw1, <- app_assoc. reflexivity. }
  clearbody w2. clearbody w1.
  set (s := upstream env (sent_count w1)) in *.
  assert (Hlast : forall rest w3,
    (forall r, s = Answered r -> status_code r = 403 -> enabled env = true ->
               i = max_403_retries) ->
    log w3 = (log w2 ++ rest)%list -> closing o s rest x ->
    exists l, log w3 = (log w ++ l)%list /\ attempt_log o i l x).
  { intros rest w3 Hg E Hq. eexists. split.
    - rewrite E, Hw2, <- app_assoc. reflexivity.
    - simpl. now apply attempt_last. }
  destruct s as [r|e|e] eqn:Eu.
  - assert (Hclose : forall w3,
      Some (if code_in (status_code r) (retry_codes env)
            then if (o <? MAX_OUTER_RETRY)%nat
                 then Some (Break, emit (Sleep ((Z.of_nat o + 1) * 100)) w2)
                 else let '(oc, w) := _handle_error r w2 in Some (Finished oc, w)
            else if negb (status_code r =? 200)
                 then let '(oc, w) := _handle_error r w2 in Some (Finished oc, w)
                 else let '(oc, w) := deliver env stream r w2 in
                      Some (Finished oc, w))
      = Some (Some (x, w3)) ->
      exists rest, log w3 = (log w2 ++ rest)%list /\
                   closing o (Answered r) rest x).
    { intros w3 E. injection E as E.
      destruct (code_in (status_code r) (retry_codes env)) eqn:Ec.
      - destruct (o <? MAX_OUTER_RETRY)%nat eqn:Eo.
        + injection E as <- <-. eexists. split; [reflexivity|].
          apply close_break; [assumption|now apply Nat.ltb_lt].
        + injection E as <- <-. eexists. split; [reflexivity|].
          apply close_exhausted; [assumption|].
          apply Nat.ltb_ge in Eo. exact Eo.
      - destruct (Z.eqb_spec (status_code r) 200) as [E2|E2]; cbn [negb] in E.
        + destruct (deliver_split r w2) as [Hd Hl].
          destruct (deliver env stream r w2) as [oc w4].
          injection E as <- <-. simpl in Hd, Hl. subst oc.
          eexists. split; [exact Hl|]. now apply close_ok.
        + injection E as <- <-. eexists. split; [reflexivity|].
          now apply close_error. }
    destruct ((status_code r =? 403) && enabled env) eqn:Eb.
    + cbn [andb] in H.
      destruct (S i <=? max_403_retries)%nat eqn:El.
      * apply Nat.leb_le in El.
        destruct (IH _ _ _ _ _ El H) as (l & Hl & Ha).
        eexists. split.
        -- rewrite Hl. cbn [emit log]. rewrite Hw2, <- !app_assoc.
           reflexivity.
        -- simpl. apply andb_prop in Eb. destruct Eb as [E4 Een].
           apply attempt_retry; auto. now apply Z.eqb_eq.
      * destruct (Hclose w') as (rest & Hr & Hcl); [now rewrite H|].
        apply (Hlast rest w'); auto.
        intros r0 [= <-] _ _. apply Nat.leb_gt in El. lia.
    + cbn [andb] in H.
      destruct (Hclose w') as (rest & Hr & Hcl); [now rewrite H|].
      apply (Hlast rest w'); auto.
      intros r0 [= <-] H4 Hen. rewrite Hen, andb_true_r in Eb.
      apply Z.eqb_neq in Eb. contradiction.
  - injection H as <- <-.
    apply (Hlast []); [discriminate|now rewrite app_nil_r|constructor].
  - injection H as <- <-.
    apply (Hlast []); [discriminate|now rewrite app_nil_r|constructor].
Qed.

Lemma while_403_total fuel : forall o i w,
  (i <= max_403_retries)%nat ->
  (max_403_retries < fuel + i)%nat ->
  exists x w', while_403 env stream fuel o i w = Some (x, w').
Proof.
  induction fuel as [|fuel IH]; intros o i w Hi Hf; [simpl in Hf; lia|].
  cbn [while_403].
  assert (Hc : (i <=? max_403_retries)%nat = true) by now apply Nat.leb_le.
  rewrite Hc. cbn [negb]. unfold post.
  destruct (upstream env _) as [r|e|e]; [|eauto|eauto].
  destruct ((status_code r =? 403) && enabled env); cbn [andb].
  - destruct (S i <=? max_403_retries)%nat eqn:El.
    + apply IH; [now apply Nat.leb_le|lia].
    + destruct (code_in _ _); [destruct (_ <? _)%nat; eauto|].
      * destruct (_handle_error _ _); eauto.
      * destruct (negb _); [destruct (_handle_error _ _)
                           |destruct (deliver _ _ _ _)]; eauto.
  - destruct (code_in _ _); [destruct (_ <? _)%nat; eauto|].
    + destruct (_handle_error _ _); eauto.
    + destruct (negb _); [destruct (_handle_error _ _)
                         |destruct (deliver _ _ _ _)]; eauto.
Qed.

End Shape.
End ClientFacts.

Module ClientRuns.
Import Client ClientFacts.

Section Runs.
Variable env : Env.
Variable stream : bool.

Lemma attempt_never_loop_end o i l :
  ~ attempt_log env stream o i l LoopEnd.
Proof.
  intros Ha. remember LoopEnd as x eqn:Ex.
  induction Ha as [i s rest x Hi Hg Hc|]; [|auto]. subst x. inversion Hc.
Qed.

Lemma for_outer_shape fuel os : forall w out w',
  for_outer env stream fuel os w = Some (out, w') ->
  exists l, log w' = (log w ++ l)%list /\ run_log env stream os l out.
Proof.
  induction os as [|o os IH]; intros w out w' H; simpl in H.
  - injection H as <- <-. exists []. rewrite app_nil_r.
    split; [reflexivity|constructor].
  - destruct (while_403 env stream fuel o 0 w) as [[x w1]|] eqn:Hw;
      [|discriminate].
    destruct (while_403_shape env stream fuel o 0 w x w1 (Nat.le_0_l _) Hw)
      as (l & Hl & Ha).
    destruct x as [| |oc].
    + now apply attempt_never_loop_end in Ha.
    + destruct (IH _ _ _ H) as (l' & Hl' & Hr).
      exists (l ++ l')%list. split.
      * rewrite Hl', Hl, app_assoc. reflexivity.
      * now apply run_next.
    + injection H as <- <-. exists l. split; [exact Hl|].
      now apply run_stop.
Qed.

Lemma for_outer_total fuel os w :
  (max_403_retries < fuel)%nat ->
  exists out w', for_outer env stream fuel os w = Some (out, w').
Proof.
  intros Hf. revert w. induction os as [|o os IH]; intros w; simpl; [eauto|].
  destruct (while_403_total env stream fuel o 0 w (Nat.le_0_l _))
    as (x & w1 & Hw); [lia|].
  rewrite Hw. destruct x; eauto.
Qed.

(** [_request] returns, and its events and outcome are those of the outer
    loop over the attempts 0, 1, 2, 3. *)
Lemma request_runs token :
  token <> "" ->
  exists out w,
    _request env token stream = Some (out, w) /\
    run_log env stream (seq 0 (S MAX_OUTER_RETRY)) (log w) out.
Proof.
  intros Ht. unfold _request.
  assert (E : negb (Py.truthy token) = false)
    by (destruct token; [now elim Ht|reflexivity]).
  rewrite E.
  destruct (for_outer_total (S (S max_403_retries))
              (seq 0 (S MAX_OUTER_RETRY)) start) as (out & w & H);
    [unfold max_403_retries; lia|].
  exists out, w. split; [exact H|].
  destruct (for_outer_shape _ _ _ _ _ H) as (l & Hl & Hr).
  simpl in Hl. now rewrite Hl.
Qed.

(** Requests and proxy refreshes found in the events of one attempt. *)
Lemma delivered_quiet r :
  (forall o' j s', ~ In (Post o' j s') (delivered_events env stream r)) /\
  ~ In ForceRefresh (delivered_events env stream r).
Proof.
  unfold delivered_events, deliver.
  destruct stream; [|destruct (process_normal env r)]; simpl;
    (split; [intros o' j s' H|intros H]);
    repeat (destruct H as [H|H]; try discriminate); contradiction.
Qed.

Lemma closing_quiet o s rest x :
  closing env stream o s rest x ->
  (forall o' j s', ~ In (Post o' j s') rest) /\ ~ In ForceRefresh rest.
Proof.
  intros Hc. destruct Hc; try apply delivered_quiet;
    (split; [intros o' j s' Hin|intros Hin]); simpl in Hin;
    repeat (destruct Hin as [Hin|Hin]; try discriminate); contradiction.
Qed.

Lemma proxy_event_not_post i o j s : proxy_event env i <> Post o j s.
Proof. unfold proxy_event. destruct (_ && _); discriminate. Qed.

Lemma attempt_log_posts o i l x :
  attempt_log env stream o i l x ->
  (forall o' j s, In (Post o' j s) l ->
     o' = o /\ (i <= j <= max_403_retries)%nat /\
     ((i < j)%nat ->
      enabled env = true /\
      exists r, In (Post o (j - 1) (Answered r)) l /\ status_code r = 403)) /\
  (In ForceRefresh l ->
     enabled env = true /\
     ((0 < i)%nat \/
      exists j r, In (Post o j (Answered r)) l /\ status_code r = 403)).
Proof.
  induction 1 as [i s rest x Hi Hg Hc|i r l x Hi Hen H4 Ha [IHp IHf]].
  - destruct (closing_quiet _ _ _ _ Hc) as [Hnp Hnf]. split.
    + intros o' j s' [Hin|[Hin|Hin]].
      * now apply proxy_event_not_post in Hin.
      * injection Hin as <- <- <-. repeat split; try lia.
      * now apply Hnp in Hin.
    + intros [Hin|[Hin|Hin]]; [|discriminate|contradiction].
      unfold proxy_event in Hin.
      destruct (0 <? i)%nat eqn:E0; [|discriminate].
      destruct (enabled env); [|discriminate].
      split; [reflexivity|left; now apply Nat.ltb_lt].
  - split.
    + intros o' j s' [Hin|[Hin|[Hin|Hin]]].
      * now apply proxy_event_not_post in Hin.
      * injection Hin as <- <- <-. repeat split; try lia.
      * discriminate.
      * destruct (IHp _ _ _ Hin) as (-> & Hj & Hr).
        split; [reflexivity|]. split; [lia|]. intros Hlt.
        split; [assumption|].
        destruct (Nat.eq_dec j (S i)) as [->|Hne].
        -- exists r. split; [|assumption].
           right. left. f_equal. lia.
        -- destruct Hr as (_ & r' & Hin' & H4'); [lia|].
           exists r'. split; [|assumption]. right. right. right. exact Hin'.
    + intros _. split; [assumption|]. right. exists i, r.
      split; [|assumption]. right. now left.
Qed.

Lemma run_log_posts os l out :
  run_log env stream os l out ->
  (forall o j s, In (Post o j s) l ->
     In o os /\ (j <= max_403_retries)%nat /\
     ((0 < j)%nat ->
      enabled env = true /\
      exists r, In (Post o (j - 1) (Answered r)) l /\ status_code r = 403)) /\
  (In ForceRefresh l ->
     enabled env = true /\
     exists o j r, In (Post o j (Answered r)) l /\ status_code r = 403).
Proof.
  induction 1 as [|o os l out Ha|o os l l' out Ha Hr [IHp IHf]].
  - split; [intros o j s []|intros []].
  - destruct (attempt_log_posts _ _ _ _ Ha) as [Hp Hf]. split.
    + intros o' j s Hin. destruct (Hp _ _ _ Hin) as (-> & Hj & Hret).
      split; [now left|]. split; [lia|exact Hret].
    + intros Hin. destruct (Hf Hin) as (Hen & [H0|(j & r & Hin' & H4)]);
        [lia|]. eauto 6.
  - destruct (attempt_log_posts _ _ _ _ Ha) as [Hp Hf]. split.
    + intros o' j s Hin. apply in_app_or in Hin. destruct Hin as [Hin|Hin].
      * destruct (Hp _ _ _ Hin) as (-> & Hj & Hret).
        split; [now left|]. split; [lia|]. intros H0.
        destruct (Hret H0) as (Hen & r & Hin' & H4).
        split; [assumption|]. exists r. split; [|assumption].
        apply in_or_app. now left.
      * destruct (IHp _ _ _ Hin) as (Ho & Hj & Hret).
        split; [now right|]. split; [assumption|]. intros H0.
        destruct (Hret H0) as (Hen & r & Hin' & H4).
        split; [assumption|]. exists r. split; [|assumption].
        apply in_or_app. now right.
    + intros Hin. apply in_app_or in Hin. destruct Hin as [Hin|Hin].
      * destruct (Hf Hin) as (Hen & [H0|(j & r & Hin' & H4)]); [lia|].
        split; [assumption|]. exists o, j, r. split; [|assumption].
        apply in_or_app. now left.
      * destruct (IHf Hin) as (Hen & o' & j & r & Hin' & H4).
        split; [assumption|]. exists o', j, r. split; [|assumption].
        apply in_or_app. now right.
Qed.

End Runs.
End ClientRuns.

Module ClientSleeps.
Import Client ClientFacts ClientRuns.

Section Sleeps.
Variable env : Env.
Variable stream : bool.

(** An outer backoff: [(o + 1) * 0.1 s] after a retryable answer of attempt
    [o], with a further attempt left. *)
Definition backoff_of (l : list event) (ms : Z) : Prop :=
  exists o, (o < MAX_OUTER_RETRY)%nat /\ ms = (Z.of_nat o + 1) * 100 /\
    exists i r, In (Post o i (Answered r)) l /\
                code_in (status_code r) (retry_codes env) = true.

Lemma delivered_no_sleep r ms : ~ In (Sleep ms) (delivered_events env stream r).
Proof.
  unfold delivered_events, deliver.
  destruct stream; [|destruct (process_normal env r)]; simpl; intros H;
    repeat (destruct H as [H|H]; try discriminate); contradiction.
Qed.

Lemma closing_sleep o s rest x ms :
  closing env stream o s rest x -> In (Sleep ms) rest ->
  (o < MAX_OUTER_RETRY)%nat /\ ms = (Z.of_nat o + 1) * 100 /\
  exists r, s = Answered r /\ code_in (status_code r) (retry_codes env) = true.
Proof.
  intros Hc Hin. destruct Hc; simpl in Hin;
    try (now apply delivered_no_sleep in Hin);
    repeat (destruct Hin as [Hin|Hin]; try discriminate); try contradiction.
  injection Hin as <-. eauto.
Qed.

Lemma proxy_event_not_sleep i ms : proxy_event env i <> Sleep ms.
Proof. unfold proxy_event. destruct (_ && _); discriminate. Qed.

Lemma attempt_log_sleep o i l x ms :
  attempt_log env stream o i l x -> In (Sleep ms) l ->
  ms = 500 \/ backoff_of l ms.
Proof.
  induction 1 as [i s rest x Hi Hg Hc|i r l x Hi Hen H4 Ha IH].
  - intros [Hin|[Hin|Hin]].
    + now apply proxy_event_not_sleep in Hin.
    + discriminate.
    + destruct (closing_sleep _ _ _ _ _ Hc Hin) as (Ho & -> & r & -> & Hr).
      right. exists o. repeat split; auto. exists i, r.
      split; [right; now left|assumption].
  - intros [Hin|[Hin|[Hin|Hin]]].
    + now apply proxy_event_not_sleep in Hin.
    + discriminate.
    + injection Hin as <-. now left.
    + destruct (IH Hin) as [->|(o' & Ho & -> & j & r' & Hin' & Hr)];
        [now left|].
      right. exists o'. repeat split; auto. exists j, r'.
      split; [|assumption]. right. right. right. exact Hin'.
Qed.

Lemma run_log_sleep os l out ms :
  run_log env stream os l out -> In (Sleep ms) l ->
  ms = 500 \/ backoff_of l ms.
Proof.
  induction 1 as [|o os l out Ha|o os l l' out Ha Hr IH]; intros Hin.
  - contradiction.
  - eapply attempt_log_sleep; eauto.
  - apply in_app_or in Hin. destruct Hin as [Hin|Hin].
    + destruct (attempt_log_sleep _ _ _ _ _ Ha Hin)
        as [->|(o' & Ho & -> & j & r & Hin' & Hc)]; [now left|].
      right. exists o'. repeat split; auto. exists j, r.
      split; [apply in_or_app; now left|assumption].
    + destruct (IH Hin) as [->|(o' & Ho & -> & j & r & Hin' & Hc)];
        [now left|].
      right. exists o'. repeat split; auto. exists j, r.
      split; [apply in_or_app; now right|assumption].
Qed.

End Sleeps.
End ClientSleeps.

(** ** One iteration of the inner loop, by the answer it gets *)

Module ClientSteps.
Import Client ClientFacts.

Section Steps.
Variable env : Env.
Variable stream : bool.

(** The world after the proxy lookup and the request of an iteration,
    followed by the events [rest]. *)
Definition after_post (w : World) (o i : nat) (s : Sent) (rest : list event)
  : World :=
  {| sent_count := S (sent_count w);
     log := (log w ++ proxy_event env i :: Post o i s :: rest)%list |}.

Lemma world_eq n l l' : l = l' ->
  {| sent_count := n; log := l |} = {| sent_count := n; log := l' |}.
Proof. now intros ->. Qed.

Lemma step_head fuel o i w :
  (i <= max_403_retries)%nat ->
  while_403 env stream (S fuel) o i w =
  let w1 := emit (proxy_event env i) w in
  match post env o i w1 with
  | (RequestsError e, w) => Some (Finished (Raised (network_error e)), w)
  | (OtherException e, w) => Some (Finished (Raised (request_error e)), w)
  | (Answered response, w) =>
      let blocked := (status_code response =? 403) && enabled env in
      if blocked && (S i <=? max_403_retries)%nat
      then while_403 env stream fuel o (S i) (emit (Sleep 500) w)
      else if code_in (status_code response) (retry_codes env)
      then
        if (o <? MAX_OUTER_RETRY)%nat
        then Some (Break, emit (Sleep ((Z.of_nat o + 1) * 100)) w)
        else let '(oc, w) := _handle_error response w in Some (Finished oc, w)
      else if negb (status_code response =? 200)
      then let '(oc, w) := _handle_error response w in Some (Finished oc, w)
      else let '(oc, w) := deliver env stream response w in
           Some (Finished oc, w)
  end.
Proof.
  intros Hi. cbn [while_403].
  assert (Hc : (i <=? max_403_retries)%nat = true) by now apply Nat.leb_le.
  rewrite Hc. cbn [negb]. unfold proxy_event.
  destruct ((0 <? i)%nat && enabled env); cbv zeta; unfold post;
    destruct (upstream env _) as [r|e|e]; try reflexivity;
    destruct ((status_code r =? 403) && enabled env); reflexivity.
Qed.

(** A 403 with the pool enabled and a retry left: sleep and go round. *)
Lemma step_retry fuel o i w r :
  (S i <= max_403_retries)%nat ->
  upstream env (sent_count w) = Answered r ->
  status_code r = 403 -> enabled env = true ->
  while_403 env stream (S fuel) o i w
  = while_403 env stream fuel o (S i)
      (after_post w o i (Answered r) [Sleep 500]).
Proof.
  intros Hi U S4 Hen. rewrite step_head by lia. cbv zeta.
  unfold post. cbn [emit sent_count log]. rewrite U, S4, Hen.
  assert (Hc : (S i <=? max_403_retries)%nat = true) by now apply Nat.leb_le.
  rewrite Hc. cbn [Z.eqb Pos.eqb andb]. f_equal. unfold after_post, emit.
  cbn [sent_count log]. apply world_eq. now rewrite <- !app_assoc.
Qed.

(** A retryable status with an outer attempt left: back off and break. *)
Lemma step_break fuel o i w r :
  (i <= max_403_retries)%nat ->
  upstream env (sent_count w) = Answered r ->
  (status_code r =? 403) && enabled env = false ->
  code_in (status_code r) (retry_codes env) = true ->
  (o < MAX_OUTER_RETRY)%nat ->
  while_403 env stream (S fuel) o i w
  = Some (Break, after_post w o i (Answered r)
                   [Sleep ((Z.of_nat o + 1) * 100)]).
Proof.
  intros Hi U Hb Hc Ho. rewrite step_head by lia. cbv zeta.
  unfold post. cbn [emit sent_count log]. rewrite U, Hb, Hc.
  assert (Hlt : (o <? MAX_OUTER_RETRY)%nat = true) by now apply Nat.ltb_lt.
  rewrite Hlt. cbn [andb]. do 2 f_equal. unfold after_post, emit.
  cbn [sent_count log]. apply world_eq. now rewrite <- !app_assoc.
Qed.

(** A retryable status on the last outer attempt: the error is raised. *)
Lemma step_exhausted fuel o i w r :
  (i <= max_403_retries)%nat ->
  upstream env (sent_count w) = Answered r ->
  (status_code r =? 403) && enabled env = false ->
  code_in (status_code r) (retry_codes env) = true ->
  (MAX_OUTER_RETRY <= o)%nat ->
  while_403 env stream (S fuel) o i w
  = Some (Finished (Raised (http_error r)),
          after_post w o i (Answered r)
            [TaskRecordFailure (status_code r) (error_msg r)]).
Proof.
  intros Hi U Hb Hc Ho. rewrite step_head by lia. cbv zeta.
  unfold post. cbn [emit sent_count log]. rewrite U, Hb, Hc.
  assert (Hlt : (o <? MAX_OUTER_RETRY)%nat = false) by now apply Nat.ltb_ge.
  rewrite Hlt. cbn [andb]. unfold _handle_error. do 2 f_equal.
  unfold after_post, emit.
  cbn [sent_count log]. apply world_eq. now rewrite <- !app_assoc.
Qed.

(** A 200 that is not configured as retryable: the response is delivered. *)
Lemma step_ok fuel o i w r :
  (i <= max_403_retries)%nat ->
  upstream env (sent_count w) = Answered r ->
  status_code r = 200 ->
  code_in 200 (retry_codes env) = false ->
  while_403 env stream (S fuel) o i w
  = Some (Finished (fst (deliver env stream r
                           (after_post w o i (Answered r) []))),
          snd (deliver env stream r (after_post w o i (Answered r) []))).
Proof.
  intros Hi U S2 Hc. rewrite step_head by lia. cbv zeta.
  unfold post. cbn [emit sent_count log]. rewrite U, S2, Hc.
  cbn [Z.eqb Pos.eqb andb negb].
  assert (E : {| sent_count := S (sent_count w);
                 log := ((log w ++ [proxy_event env i])
                         ++ [Post o i (Answered r)])%list |}
              = after_post w o i (Answered r) []).
  { unfold after_post. apply world_eq. now rewrite <- app_assoc. }
  rewrite E. now destruct (deliver env stream r _).
Qed.

End Steps.
End ClientSteps.

Module ClientProps.
Import Client ClientFacts ClientRuns ClientSleeps ClientSteps.

Definition is_force_refresh (e : event) : bool :=
  match e with ForceRefresh => true | _ => false end.

Definition is_record_failure (e : event) : bool :=
  match e with TaskRecordFailure _ _ => true | _ => false end.

Lemma truthy_token token : token <> "" -> negb (Py.truthy token) = false.
Proof. intros H. destruct token; [now elim H|reflexivity]. Qed.

Lemma le_max n : (n <=? 5)%nat = true -> (n <= max_403_retries)%nat.
Proof. intros H. now apply Nat.leb_le in H. Qed.

(** The events of the call up to the third answer, for the answers
    403, 403, 200 with a rotating pool. *)
Definition rotation_log (r0 r1 r2 : Response) : list event :=
  [GetProxy; Post 0 0 (Answered r0); Sleep 500;
   ForceRefresh; Post 0 1 (Answered r1); Sleep 500;
   ForceRefresh; Post 0 2 (Answered r2)].

Lemma rotation_scenario env token stream r0 r1 r2 :
  token <> "" ->
  enabled env = true ->
  code_in 200 (retry_codes env) = false ->
  upstream env 0 = Answered r0 -> status_code r0 = 403 ->
  upstream env 1 = Answered r1 -> status_code r1 = 403 ->
  upstream env 2 = Answered r2 -> status_code r2 = 200 ->
  _request env token stream
  = Some (deliver env stream r2
            {| sent_count := 3; log := rotation_log r0 r1 r2 |}).
Proof.
  intros Ht Hen Hc U0 S0 U1 S1 U2 S2. unfold _request.
  rewrite (truthy_token _ Ht).
  change (S (S max_403_retries)) with 7%nat.
  cbn [for_outer seq MAX_OUTER_RETRY].
  rewrite step_retry with (r := r0); [|now apply le_max|assumption..].
  rewrite step_retry with (r := r1); [|now apply le_max|assumption..].
  rewrite step_ok with (r := r2); [|now apply le_max|assumption..].
  unfold after_post, proxy_event, rotation_log. rewrite Hen.
  cbn [sent_count log start app Nat.ltb Nat.leb andb].
  now destruct (deliver env stream r2 _).
Qed.

(** The events of the call up to the third answer, for the answers
    429, 429, 200. *)
Definition backoff_log (r0 r1 r2 : Response) : list event :=
  [GetProxy; Post 0 0 (Answered r0); Sleep 100;
   GetProxy; Post 1 0 (Answered r1); Sleep 200;
   GetProxy; Post 2 0 (Answered r2)].

Lemma backoff_scenario env token stream r0 r1 r2 :
  token <> "" ->
  retry_codes env = default_retry_codes ->
  upstream env 0 = Answered r0 -> status_code r0 = 429 ->
  upstream env 1 = Answered r1 -> status_code r1 = 429 ->
  upstream env 2 = Answered r2 -> status_code r2 = 200 ->
  _request env token stream
  = Some (deliver env stream r2
            {| sent_count := 3; log := backoff_log r0 r1 r2 |}).
Proof.
  intros Ht Hc U0 S0 U1 S1 U2 S2. unfold _request.
  rewrite (truthy_token _ Ht).
  change (S (S max_403_retries)) with 7%nat.
  cbn [for_outer seq MAX_OUTER_RETRY].
  rewrite step_break with (r := r0);
    [|now apply le_max|assumption|now rewrite S0|now rewrite S0, Hc
     |unfold MAX_OUTER_RETRY; lia].
  rewrite step_break with (r := r1);
    [|now apply le_max|assumption|now rewrite S1|now rewrite S1, Hc
     |unfold MAX_OUTER_RETRY; lia].
  rewrite step_ok with (r := r2);
    [|now apply le_max|assumption|assumption|now rewrite Hc].
  unfold after_post, proxy_event, backoff_log.
  cbn [sent_count log start app Nat.ltb Nat.leb andb].
  now destruct (deliver env stream r2 _).
Qed.

(** The events of a call whose four outer attempts all get a retryable
    status. *)
Definition exhausted_log (r0 r1 r2 r3 : Response) : list event :=
  [GetProxy; Post 0 0 (Answered r0); Sleep 100;
   GetProxy; Post 1 0 (Answered r1); Sleep 200;
   GetProxy; Post 2 0 (Answered r2); Sleep 300;
   GetProxy; Post 3 0 (Answered r3);
   TaskRecordFailure (status_code r3) (error_msg r3)].

(** An answer that is retried by the outer loop and not by the inner one. *)
Definition outer_retryable (env : Env) (r : Response) : Prop :=
  code_in (status_code r) (retry_codes env) = true /\
  (status_code r =? 403) && enabled env = false.

Lemma exhausted_scenario env token stream r0 r1 r2 r3 :
  token <> "" ->
  upstream env 0 = Answered r0 -> outer_retryable env r0 ->
  upstream env 1 = Answered r1 -> outer_retryable env r1 ->
  upstream env 2 = Answered r2 -> outer_retryable env r2 ->
  upstream env 3 = Answered r3 -> outer_retryable env r3 ->
  _request env token stream
  = Some (Raised (http_error r3),
          {| sent_count := 4; log := exhausted_log r0 r1 r2 r3 |}).
Proof.
  intros Ht U0 [C0 B0] U1 [C1 B1] U2 [C2 B2] U3 [C3 B3]. unfold _request.
  rewrite (truthy_token _ Ht).
  change (S (S max_403_retries)) with 7%nat.
  cbn [for_outer seq MAX_OUTER_RETRY].
  rewrite step_break with (r := r0);
    [|now apply le_max|assumption..|unfold MAX_OUTER_RETRY; lia].
  rewrite step_break with (r := r1);
    [|now apply le_max|assumption..|unfold MAX_OUTER_RETRY; lia].
  rewrite step_break with (r := r2);
    [|now apply le_max|assumption..|unfold MAX_OUTER_RETRY; lia].
  rewrite step_exhausted with (r := r3);
    [|now apply le_max|assumption..|unfold MAX_OUTER_RETRY; lia].
  reflexivity.
Qed.

Definition is_sleep (e : event) : bool :=
  match e with Sleep _ => true | _ => false end.

Lemma deliver_cases env stream r w :
  let '(out, w') := deliver env stream r w in
  (stream = true -> out = Returned (StreamOf r)) /\
  (forall content, stream = false -> process_normal env r = inr content ->
                   out = Returned (Completion content)) /\
  exists rest,
    log w' = (log w ++ TaskResetFailure :: rest)%list /\
    filter is_force_refresh rest = [] /\
    filter is_record_failure rest = [] /\
    filter is_sleep rest = [].
Proof.
  unfold deliver. destruct stream.
  - split; [reflexivity|]. split; [discriminate|].
    exists [TaskUpdateLimits]. simpl. now rewrite <- app_assoc.
  - destruct (process_normal env r) as [e|c].
    + split; [discriminate|]. split; [discriminate|].
      exists []. simpl. auto.
    + split; [discriminate|]. split; [now intros content _ [= ->]|].
      exists [TaskUpdateLimits]. simpl. now rewrite <- app_assoc.
Qed.

(** C3. With a rotating pool and the answers 403, 403, 200 the call gets
    through to the third response: it returns the stream (or what
    [process_normal] makes of the response), [force_refresh] is called
    exactly twice, each time after a 0.5 s sleep that follows a 403, and no
    failure is reported to the token manager.  In every call a request of
    the inner loop carries a retry count of at most 5, and a retry (a count
    above 0, or a [force_refresh]) happens only with the pool enabled and
    after a request answered 403. *)
Theorem rotation_retry (env : Env) (token : string) (stream : bool) :
  token <> "" ->
  (exists out w,
     _request env token stream = Some (out, w) /\
     (forall o i s, In (Post o i s) (log w) ->
        (i <= max_403_retries)%nat /\
        ((0 < i)%nat ->
         enabled env = true /\
         exists r, In (Post o (i - 1) (Answered r)) (log w) /\
                   status_code r = 403)) /\
     (In ForceRefresh (log w) ->
        enabled env = true /\
        exists o i r, In (Post o i (Answered r)) (log w) /\
                      status_code r = 403)) /\
  (forall r0 r1 r2,
     enabled env = true ->
     code_in 200 (retry_codes env) = false ->
     upstream env 0 = Answered r0 -> status_code r0 = 403 ->
     upstream env 1 = Answered r1 -> status_code r1 = 403 ->
     upstream env 2 = Answered r2 -> status_code r2 = 200 ->
     exists out w,
       _request env token stream = Some (out, w) /\
       (stream = true -> out = Returned (StreamOf r2)) /\
       (forall content, stream = false ->
          process_normal env r2 = inr content ->
          out = Returned (Completion content)) /\
       (exists rest,
          log w = (rotation_log r0 r1 r2 ++ TaskResetFailure :: rest)%list) /\
       List.length (filter is_force_refresh (log w)) = 2%nat /\
       filter is_record_failure (log w) = []).
Proof.
  intros Ht. split.
  - destruct (request_runs env stream token Ht) as (out & w & Hr & Hl).
    exists out, w. split; [exact Hr|].
    destruct (run_log_posts env stream _ _ _ Hl) as [Hp Hf].
    split; [|exact Hf].
    intros o i s Hin. destruct (Hp o i s Hin) as (_ & Hi & Hret). auto.
  - intros r0 r1 r2 Hen Hc U0 S0 U1 S1 U2 S2.
    pose proof (rotation_scenario env token stream r0 r1 r2 Ht Hen Hc
                  U0 S0 U1 S1 U2 S2) as Hr.
    pose proof (deliver_cases env stream r2
                  {| sent_count := 3; log := rotation_log r0 r1 r2 |}) as Hd.
    destruct (deliver env stream r2 _) as [out w].
    destruct Hd as (Hs & Hn & rest & Hl & Hf & Hrf & _).
    exists out, w. split; [exact Hr|]. split; [exact Hs|].
    split; [exact Hn|]. cbn [log] in Hl. split; [eauto|].
    rewrite Hl, !filter_app. cbn [filter is_force_refresh is_record_failure
      rotation_log]. rewrite Hf, Hrf. split; reflexivity.
Qed.

Definition r403 : Response :=
  {| status_code := 403; json_str := None; text := "Forbidden" |}.
Definition r429 : Response :=
  {| status_code := 429; json_str := Some "{'error': 'Too Many Requests'}";
     text := "" |}.
Definition r200 : Response :=
  {| status_code := 200; json_str := None; text := "" |}.

Definition env_rotation : Env :=
  {| retry_codes := default_retry_codes;
     enabled := true;
     upstream := fun n => match n with
                          | 0%nat | 1%nat => Answered r403
                          | _ => Answered r200
                          end;
     process_normal := fun _ => inr "hello" |}.

Lemma rotation_retry_witness :
  exists out w,
    _request env_rotation "sso-rw=abc;sso=abc" true = Some (out, w) /\
    out = Returned (StreamOf r200) /\
    List.length (filter is_force_refresh (log w)) = 2%nat /\
    filter is_record_failure (log w) = [].
Proof.
  assert (Hne : "sso-rw=abc;sso=abc" <> "") by discriminate.
  destruct (proj2 (rotation_retry env_rotation "sso-rw=abc;sso=abc" true Hne)
              r403 r403 r200 eq_refl eq_refl eq_refl eq_refl eq_refl eq_refl
              eq_refl eq_refl)
    as (out & w & H1 & Hs & _ & _ & Hf & Hr).
  exists out, w. split; [exact H1|]. split; [now apply Hs|]. split; assumption.
Defined.

Example rotation_run :
  _request env_rotation "sso-rw=abc;sso=abc" true
  = Some (Returned (StreamOf r200),
          {| sent_count := 3;
             log := [GetProxy; Post 0 0 (Answered r403); Sleep 500;
                     ForceRefresh; Post 0 1 (Answered r403); Sleep 500;
                     ForceRefresh; Post 0 2 (Answered r200);
                     TaskResetFailure; TaskUpdateLimits] |}).
Proof. reflexivity. Qed.

(** Without a rotating pool a 403 ends the call: the failure is reported to
    the token manager and [HTTP_ERROR] is raised. *)
Example static_403_is_terminal :
  _request {| retry_codes := default_retry_codes; enabled := false;
              upstream := fun _ => Answered r403;
              process_normal := fun _ => inr "hello" |}
    "sso-rw=abc;sso=abc" true
  = Some (Raised (http_error r403),
          {| sent_count := 1;
             log := [GetProxy; Post 0 0 (Answered r403);
                     TaskRecordFailure 403 (error_msg r403)] |}).
Proof. reflexivity. Qed.

(** C4. With the default retryable codes and the answers 429, 429, 200 the
    call gets through on the third outer attempt, after sleeps of 100 ms
    and 200 ms and no other.  In every call a request belongs to one of the
    outer attempts 0 to 3, and every sleep is the 0.5 s of the inner loop
    or the backoff [(o + 1) * 100] ms after a retryable answer of attempt
    [o < 3].  When all four attempts get a retryable status, the call
    raises [HTTP_ERROR] with the status of the last answer. *)
Theorem outer_retry_backoff (env : Env) (token : string) (stream : bool) :
  token <> "" ->
  (exists out w,
     _request env token stream = Some (out, w) /\
     (forall o i s, In (Post o i s) (log w) -> (o <= MAX_OUTER_RETRY)%nat) /\
     (forall ms, In (Sleep ms) (log w) ->
                 ms = 500 \/ backoff_of env (log w) ms)) /\
  (forall r0 r1 r2,
     retry_codes env = default_retry_codes ->
     upstream env 0 = Answered r0 -> status_code r0 = 429 ->
     upstream env 1 = Answered r1 -> status_code r1 = 429 ->
     upstream env 2 = Answered r2 -> status_code r2 = 200 ->
     exists out w,
       _request env token stream = Some (out, w) /\
       (stream = true -> out = Returned (StreamOf r2)) /\
       (forall content, stream = false ->
          process_normal env r2 = inr content ->
          out = Returned (Completion content)) /\
       (exists rest,
          log w = (backoff_log r0 r1 r2 ++ TaskResetFailure :: rest)%list) /\
       filter is_sleep (log w) = [Sleep 100; Sleep 200] /\
       filter is_record_failure (log w) = []) /\
  (forall r0 r1 r2 r3,
     upstream env 0 = Answered r0 -> outer_retryable env r0 ->
     upstream env 1 = Answered r1 -> outer_retryable env r1 ->
     upstream env 2 = Answered r2 -> outer_retryable env r2 ->
     upstream env 3 = Answered r3 -> outer_retryable env r3 ->
     _request env token stream
     = Some (Raised (http_error r3),
             {| sent_count := 4; log := exhausted_log r0 r1 r2 r3 |}) /\
     error_code (http_error r3) = "HTTP_ERROR" /\
     status (http_error r3) = Some (status_code r3)).
Proof.
  intros Ht. split; [|split].
  - destruct (request_runs env stream token Ht) as (out & w & Hr & Hl).
    exists out, w. split; [exact Hr|]. split.
    + intros o i s Hin.
      destruct (run_log_posts env stream _ _ _ Hl) as [Hp _].
      destruct (Hp o i s Hin) as (Ho & _). apply in_seq in Ho.
      unfold MAX_OUTER_RETRY in *. lia.
    + intros ms Hin. exact (run_log_sleep env stream _ _ _ ms Hl Hin).
  - intros r0 r1 r2 Hc U0 S0 U1 S1 U2 S2.
    pose proof (backoff_scenario env token stream r0 r1 r2 Ht Hc
                  U0 S0 U1 S1 U2 S2) as Hr.
    pose proof (deliver_cases env stream r2
                  {| sent_count := 3; log := backoff_log r0 r1 r2 |}) as Hd.
    destruct (deliver env stream r2 _) as [out w].
    destruct Hd as (Hs & Hn & rest & Hl & _ & Hrf & Hsl).
    exists out, w. split; [exact Hr|]. split; [exact Hs|].
    split; [exact Hn|]. cbn [log] in Hl. split; [eauto|].
    rewrite Hl, !filter_app. cbn [filter is_sleep is_record_failure
      backoff_log]. rewrite Hsl, Hrf. split; reflexivity.
  - intros r0 r1 r2 r3 U0 H0 U1 H1 U2 H2 U3 H3.
    split; [now apply exhausted_scenario|split; reflexivity].
Qed.

Definition env_backoff : Env :=
  {| retry_codes := default_retry_codes;
     enabled := true;
     upstream := fun n => match n with
                          | 0%nat | 1%nat => Answered r429
                          | _ => Answered r200
                          end;
     process_normal := fun _ => inr "hello" |}.

Definition env_exhausted : Env :=
  {| retry_codes := default_retry_codes;
     enabled := true;
     upstream := fun _ => Answered r429;
     process_normal := fun _ => inr "hello" |}.

Lemma outer_retry_backoff_witness :
  (exists out w,
     _request env_backoff "sso-rw=abc;sso=abc" false = Some (out, w) /\
     out = Returned (Completion "hello") /\
     filter is_sleep (log w) = [Sleep 100; Sleep 200]) /\
  _request env_exhausted "sso-rw=abc;sso=abc" true
  = Some (Raised (http_error r429),
          {| sent_count := 4; log := exhausted_log r429 r429 r429 r429 |}).
Proof.
  assert (Hne : "sso-rw=abc;sso=abc" <> "") by discriminate. split.
  - destruct (proj1 (proj2 (outer_retry_backoff env_backoff
                              "sso-rw=abc;sso=abc" false Hne))
                r429 r429 r200 eq_refl eq_refl eq_refl eq_refl eq_refl eq_refl
                eq_refl)
      as (out & w & H1 & _ & Hn & _ & Hs & _).
    exists out, w. split; [exact H1|]. split; [now apply Hn|assumption].
  - assert (Hr : outer_retryable env_exhausted r429) by (split; reflexivity).
    exact (proj1 (proj2 (proj2 (outer_retry_backoff env_exhausted
                                  "sso-rw=abc;sso=abc" true Hne))
                    r429 r429 r429 r429 eq_refl Hr eq_refl Hr eq_refl Hr
                    eq_refl Hr)).
Defined.

Example backoff_run :
  _request env_backoff "sso-rw=abc;sso=abc" false
  = Some (Returned (Completion "hello"),
          {| sent_count := 3;
             log := [GetProxy; Post 0 0 (Answered r429); Sleep 100;
                     GetProxy; Post 1 0 (Answered r429); Sleep 200;
                     GetProxy; Post 2 0 (Answered r200);
                     TaskResetFailure; TaskUpdateLimits] |}).
Proof. reflexivity. Qed.

Example exhausted_run :
  _request env_exhausted "sso-rw=abc;sso=abc" true
  = Some (Raised {| message := "Request failed: 429 - {'error': 'Too Many Requests'}";
                    error_code := "HTTP_ERROR"; status := Some 429 |},
          {| sent_count := 4; log := exhausted_log r429 r429 r429 r429 |}).
Proof. reflexivity. Qed.

End ClientProps.

(** ** The stream translator ([app/services/grok/processer.py]) *)

Module Processer.

#[local] Set Warnings "-register-all".

(** A decoded JSON value ([orjson.loads]); numbers are integers. *)
Inductive json :=
| JNull
| JBool (b : bool)
| JInt (n : Z)
| JStr (s : string)
| JList (l : list json)
| JDict (d : list (string * json)).

(** The exceptions raised while a frame is processed. *)
Inductive exn :=
| JSONDecodeError
| AttributeError
| TypeError
| ValidationError.

(** A line of [response.iter_lines()]: empty, not decodable as JSON, or a
    JSON value. *)
Inductive line :=
| EmptyLine
| BadJson
| Json (data : json).

(** A line with the readings of the event-loop clock that go with it:
    [t_check] is read by [check_timeout] when the line is taken, [t_mark]
    by [mark_received] if it is reached. *)
Record arrival := {
  t_check : Q;
  t_mark : Q;
  body : line
}.

(** How the line iterator ends: exhausted, or raising. *)
Inductive ending :=
| Exhausted
| Broken (e : string).

(** What the generator yields: a delta chunk (model name, content, finish
    reason; its random id and creation time are left out) or the end marker
    [data: [DONE]]. *)
Inductive out :=
| Chunk (model content : string) (finish : option string)
| DONE.

(** How the generator ends: it returns, or an exception leaves it. *)
Inductive finish :=
| Completed
| Propagated (e : exn).

(** The configuration read at the start of [process_stream]. *)
Record Config := {
  filtered_tags : string;
  show_thinking : bool;
  stream_chunk_timeout : Q;
  stream_first_response_timeout : Q;
  stream_total_timeout : Q
}.

(** Collaborators outside this file: [str()] of a list or dict, the text of
    an exception, what a [str] field of the response schema makes of a
    value that is not a string ([None]: validation fails), the result of
    [_build_video_content], and, for one generated image, the chunks the
    image block yields and the text it appends. *)
Record Collab := {
  repr : json -> string;
  exn_text : exn -> string;
  schema_coerce : json -> option string;
  video_content : json -> string;
  image_block : json -> list string * string
}.

(** *** StreamTimeoutManager *)

Record StreamTimeoutManager := {
  chunk_timeout : Q;
  first_timeout : Q;
  total_timeout : Q;
  start_time : Q;
  last_chunk_time : Q;
  first_received : bool
}.

(** [a > b] on clock readings. *)
Definition Qgtb (a b : Q) : bool :=
  (Qnum b * QDen a <? Qnum a * QDen b)%Z.

(** [check_timeout], with [now] the clock reading. *)
Definition check_timeout (self : StreamTimeoutManager) (now : Q) : bool :=
  if negb (first_received self)
     && Qgtb (now - start_time self) (first_timeout self)
  then true
  else if Qgtb (total_timeout self) 0
          && Qgtb (now - start_time self) (total_timeout self)
  then true
  else if first_received self
          && Qgtb (now - last_chunk_time self) (chunk_timeout self)
  then true
  else false.

(** [mark_received] *)
Definition mark_received (self : StreamTimeoutManager) (now : Q)
  : StreamTimeoutManager :=
  {| chunk_timeout := chunk_timeout self;
     first_timeout := first_timeout self;
     total_timeout := total_timeout self;
     start_time := start_time self;
     last_chunk_time := now;
     first_received := true |}.

(** *** Python operations on JSON values *)

Definition truthy (v : json) : bool :=
  match v with
  | JNull => false
  | JBool b => b
  | JInt n => negb (n =? 0)
  | JStr s => Py.truthy s
  | JList l => match l with [] => false | _ => true end
  | JDict d => match d with [] => false | _ => true end
  end.

Fixpoint lookup (d : list (string * json)) (key : string) : option json :=
  match d with
  | [] => None
  | (k, v) :: d' => if String.eqb key k then Some v else lookup d' key
  end.

(** [v.get(key, default)] *)
Definition get (v : json) (key : string) (default : json) : exn + json :=
  match v with
  | JDict d => inr (match lookup d key with Some x => x | None => default end)
  | _ => inl AttributeError
  end.

(** [len(v)] *)
Definition py_len (v : json) : exn + Z :=
  match v with
  | JStr s => inr (Z.of_nat (String.length s))
  | JList l => inr (Z.of_nat (List.length l))
  | JDict d => inr (Z.of_nat (List.length d))
  | _ => inl TypeError
  end.

(** The number a value is in a comparison with an integer. *)
Definition number (v : json) : exn + Z :=
  match v with
  | JInt n => inr n
  | JBool b => inr (if b then 1 else 0)
  | _ => inl TypeError
  end.

Fixpoint chars (s : string) : list json :=
  match s with
  | EmptyString => []
  | String c s' => JStr (String c EmptyString) :: chars s'
  end.

(** The items of [for x in v]. *)
Definition py_iter (v : json) : exn + list json :=
  match v with
  | JList l => inr l
  | JStr s => inr (chars s)
  | JDict d => inr (map (fun kv => JStr (fst kv)) d)
  | _ => inl TypeError
  end.

(** [tag in token] for a truthy token that is not a list. *)
Definition tag_in (tag : string) (token : json) : exn + bool :=
  match token with
  | JStr s => inr (Py.contains tag s)
  | JDict d => inr (match lookup d tag with Some _ => true | None => false end)
  | _ => inl TypeError
  end.

(** [any(tag in token for tag in filtered_tags if token)] *)
Fixpoint any_tag_in (tags : list string) (token : json) : exn + bool :=
  match tags with
  | [] => inr false
  | tag :: rest =>
      if truthy token
      then match tag_in tag token with
           | inl e => inl e
           | inr true => inr true
           | inr false => any_tag_in rest token
           end
      else any_tag_in rest token
  end.

(** [token += s] for a string [s]. *)
Definition add_str (token : json) (s : string) : exn + json :=
  match token with
  | JStr t => inr (JStr (t ++ s))
  | _ => inl TypeError
  end.

Definition dquote : string := String (ascii_of_nat 34) EmptyString.
Definition newline : string := String (ascii_of_nat 10) EmptyString.

(** [s.replace(old, "")] for a one-character [old]. *)
Definition remove_all (old s : string) : string :=
  String.concat "" (Py.split s old).

Section Translator.
Variable cfg : Config.
Variable col : Collab.

(** [str(v)], as an f-string formats a value. *)
Definition str_of (v : json) : string :=
  match v with
  | JStr s => s
  | JInt n => Py.str_of_Z n
  | JBool true => "True"
  | JBool false => "False"
  | JNull => "None"
  | _ => repr col v
  end.

(** What a [str] field of the schema holds for a value. *)
Definition as_str (v : json) : option string :=
  match v with
  | JStr s => Some s
  | _ => schema_coerce col v
  end.

(** *** The state of [process_stream] *)

Record State := {
  is_image : bool;
  is_thinking : bool;
  thinking_finished : bool;
  model : json;
  video_progress_started : bool;
  last_video_progress : Z;
  timeout_mgr : StreamTimeoutManager
}.

Definition init (t_start : Q) : State :=
  {| is_image := false;
     is_thinking := false;
     thinking_finished := false;
     model := JNull;
     video_progress_started := false;
     last_video_progress := -1;
     timeout_mgr :=
       {| chunk_timeout := stream_chunk_timeout cfg;
          first_timeout := stream_first_response_timeout cfg;
          total_timeout := stream_total_timeout cfg;
          start_time := t_start;
          last_chunk_time := t_start;
          first_received := false |} |}.

(** [make_chunk]: the [model] and, unless it is falsy, the [content] are
    validated as strings by the schema. *)
Definition make_chunk (st : State) (content : json) (fin : option string)
  : exn + out :=
  let m := if truthy (model st) then model st
           else JStr "grok-4-mini-thinking-tahoe" in
  match as_str m with
  | None => inl ValidationError
  | Some name =>
      if truthy content
      then match as_str content with
           | Some c => inr (Chunk name c fin)
           | None => inl ValidationError
           end
      else inr (Chunk name "" fin)
  end.

(** *** Processing one frame

    A computation inside the [try] block of the loop body: it yields
    chunks, updates the state, and ends with a value, with [continue], with
    [return], or with an exception. *)

Inductive ctl (A : Type) :=
| Val (a : A)
| Continue
| Return
| Raise (e : exn).
Arguments Val {A} a.
Arguments Continue {A}.
Arguments Return {A}.
Arguments Raise {A} e.

Definition M (A : Type) : Type := State -> list out * State * ctl A.

Definition ret {A} (a : A) : M A := fun st => ([], st, Val a).

Definition bind {A B} (m : M A) (f : A -> M B) : M B :=
  fun st =>
    let '(o1, st1, c) := m st in
    match c with
    | Val a => let '(o2, st2, c2) := f a st1 in ((o1 ++ o2)%list, st2, c2)
    | Continue => (o1, st1, Continue)
    | Return => (o1, st1, Return)
    | Raise e => (o1, st1, Raise e)
    end.

Notation "x <- m ;; k" := (bind m (fun x => k))
  (at level 61, m at next level, right associativity).
Notation "m ;;; k" := (bind m (fun _ => k))
  (at level 61, right associativity).

Definition continue_ {A} : M A := fun st => ([], st, Continue).
Definition return_ {A} : M A := fun st => ([], st, Return).
Definition raise {A} (e : exn) : M A := fun st => ([], st, Raise e).

Definition lift {A} (r : exn + A) : M A :=
  match r with inr a => ret a | inl e => raise e end.

Definition read : M State := fun st => ([], st, Val st).
Definition update (f : State -> State) : M unit :=
  fun st => ([], f st, Val tt).

(** [yield make_chunk(content, finish)] *)
Definition yield_chunk (content : json) (fin : option string) : M unit :=
  fun st =>
    match make_chunk st content fin with
    | inr c => ([c], st, Val tt)
    | inl e => ([], st, Raise e)
    end.

Definition yield_done : M unit := fun st => ([DONE], st, Val tt).

Definition when (b : bool) (m : M unit) : M unit := if b then m else ret tt.

Definition set_model (m : json) (st : State) : State :=
  {| is_image := is_image st; is_thinking := is_thinking st;
     thinking_finished := thinking_finished st; model := m;
     video_progress_started := video_progress_started st;
     last_video_progress := last_video_progress st;
     timeout_mgr := timeout_mgr st |}.

Definition set_is_image (b : bool) (st : State) : State :=
  {| is_image := b; is_thinking := is_thinking st;
     thinking_finished := thinking_finished st; model := model st;
     video_progress_started := video_progress_started st;
     last_video_progress := last_video_progress st;
     timeout_mgr := timeout_mgr st |}.

Definition set_is_thinking (b : bool) (st : State) : State :=
  {| is_image := is_image st; is_thinking := b;
     thinking_finished := thinking_finished st; model := model st;
     video_progress_started := video_progress_started st;
     last_video_progress := last_video_progress st;
     timeout_mgr := timeout_mgr st |}.

Definition set_thinking_finished (b : bool) (st : State) : State :=
  {| is_image := is_image st; is_thinking := is_thinking st;
     thinking_finished := b; model := model st;
     video_progress_started := video_progress_started st;
     last_video_progress := last_video_progress st;
     timeout_mgr := timeout_mgr st |}.

Definition set_video_progress_started (b : bool) (st : State) : State :=
  {| is_image := is_image st; is_thinking := is_thinking st;
     thinking_finished := thinking_finished st; model := model st;
     video_progress_started := b;
     last_video_progress := last_video_progress st;
     timeout_mgr := timeout_mgr st |}.

Definition set_last_video_progress (n : Z) (st : State) : State :=
  {| is_image := is_image st; is_thinking := is_thinking st;
     thinking_finished := thinking_finished st; model := model st;
     video_progress_started := video_progress_started st;
     last_video_progress := n;
     timeout_mgr := timeout_mgr st |}.

Definition set_timeout_mgr (t : StreamTimeoutManager) (st : State) : State :=
  {| is_image := is_image st; is_thinking := is_thinking st;
     thinking_finished := thinking_finished st; model := model st;
     video_progress_started := video_progress_started st;
     last_video_progress := last_video_progress st;
     timeout_mgr := t |}.

(** The video branch: progress lines and the final asset. *)
Definition video_frame (video_resp : json) : M unit :=
  progress <- lift (get video_resp "progress" (JInt 0)) ;;
  v_url <- lift (get video_resp "videoUrl" JNull) ;;
  p <- lift (number progress) ;;
  st <- read ;;
  when (p >? last_video_progress st)
    (update (set_last_video_progress p) ;;;
     when (show_thinking cfg)
       (if negb (video_progress_started st)
        then update (set_video_progress_started true) ;;;
             yield_chunk (JStr ("<think>Video generated " ++ str_of progress
                                 ++ "%" ++ newline)) None
        else if p <? 100
        then yield_chunk (JStr ("Video generated " ++ str_of progress
                                 ++ "%" ++ newline)) None
        else yield_chunk (JStr ("Video generated " ++ str_of progress
                                 ++ "%</think>" ++ newline)) None)) ;;;
  when (truthy v_url) (yield_chunk (JStr (video_content col v_url)) None) ;;;
  continue_.

(** The chunks one image block yields. *)
Fixpoint yield_all (cs : list string) : M unit :=
  match cs with
  | [] => ret tt
  | c :: cs' => yield_chunk (JStr c) None ;;; yield_all cs'
  end.

(** The loop over the generated images: the chunks of each image block are
    yielded, its text is appended to [content]. *)
Fixpoint image_loop (imgs : list json) (content : string) : M string :=
  match imgs with
  | [] => ret content
  | img :: rest =>
      let '(chunks, text) := image_block col img in
      yield_all chunks ;;;
      image_loop rest (content ++ text)
  end.

(** The image branch. *)
Definition image_frame (grok_resp token : json) : M unit :=
  model_resp <- lift (get grok_resp "modelResponse" JNull) ;;
  if truthy model_resp
  then
    imgs <- lift (get model_resp "generatedImageUrls" (JList [])) ;;
    items <- lift (py_iter imgs) ;;
    content <- image_loop items "" ;;
    yield_chunk (JStr (Py.strip content)) (Some "stop") ;;;
    return_
  else when (truthy token) (yield_chunk token None).

(** The loop over the web search results, appending to [token]. *)
Fixpoint search_loop (results : list json) (token : json) : M json :=
  match results with
  | [] => ret token
  | result :: rest =>
      title <- lift (get result "title" (JStr "")) ;;
      url <- lift (get result "url" (JStr "")) ;;
      preview <- lift (get result "preview" (JStr "")) ;;
      let preview_clean :=
        match preview with
        | JStr p => remove_all newline p
        | _ => ""
        end in
      token <- lift (add_str token
                 (newline ++ "- [" ++ str_of title ++ "](" ++ str_of url
                  ++ " " ++ dquote ++ preview_clean ++ dquote ++ ")")) ;;
      search_loop rest token
  end.

(** The conversation branch. *)
Definition chat_frame (grok_resp token : json) : M unit :=
  match token with
  | JList _ => continue_
  | _ =>
    filtered <- lift (any_tag_in (Py.split (filtered_tags cfg) ",") token) ;;
    if filtered then continue_ else
    current_is_thinking <- lift (get grok_resp "isThinking" (JBool false)) ;;
    message_tag <- lift (get grok_resp "messageTag" JNull) ;;
    st <- read ;;
    if thinking_finished st && truthy current_is_thinking then continue_ else
    card <- lift (get grok_resp "toolUsageCardId" JNull) ;;
    token <-
      (if truthy card
       then
         web_search <- lift (get grok_resp "webSearchResults" JNull) ;;
         if truthy web_search
         then
           if truthy current_is_thinking
           then
             if show_thinking cfg
             then
               results <- lift (get web_search "results" (JList [])) ;;
               items <- lift (py_iter results) ;;
               token <- search_loop items token ;;
               lift (add_str token newline)
             else continue_
           else continue_
         else continue_
       else ret token) ;;
    when (truthy token)
      (let content :=
         match message_tag with
         | JStr "header" => JStr (newline ++ newline ++ str_of token
                                   ++ newline ++ newline)
         | _ => token
         end in
       let now_thinking := truthy current_is_thinking in
       let '(content, should_skip, finished) :=
         if negb (is_thinking st) && now_thinking
         then if show_thinking cfg
              then (JStr ("<think>" ++ newline ++ str_of content), false, false)
              else (content, true, false)
         else if is_thinking st && negb now_thinking
         then (if show_thinking cfg
               then JStr (newline ++ "</think>" ++ newline ++ str_of content)
               else content, false, true)
         else if now_thinking
         then (content, negb (show_thinking cfg), false)
         else (content, false, false) in
       when finished (update (set_thinking_finished true)) ;;;
       when (negb should_skip) (yield_chunk content None) ;;;
       update (set_is_thinking now_thinking))
  end.

(** The body of the [try] block for a decoded frame; [now] is the clock
    reading of [mark_received]. *)
Definition process_frame (data : json) (now : Q) : M unit :=
  error <- lift (get data "error" JNull) ;;
  if truthy error
  then
    error_msg <- lift (get error "message" (JStr "Unknown error")) ;;
    yield_chunk (JStr ("Error: " ++ str_of error_msg)) (Some "stop") ;;;
    yield_done ;;;
    return_
  else
    result <- lift (get data "result" (JDict [])) ;;
    grok_resp <- lift (get result "response" (JDict [])) ;;
    _ <- lift (py_len grok_resp) ;;
    if negb (truthy grok_resp) then continue_ else
    update (fun st => set_timeout_mgr (mark_received (timeout_mgr st) now) st) ;;;
    user_resp <- lift (get grok_resp "userResponse" JNull) ;;
    when (truthy user_resp)
      (m <- lift (get user_resp "model" JNull) ;;
       when (truthy m) (update (set_model m))) ;;;
    video_resp <- lift (get grok_resp "streamingVideoGenerationResponse" JNull) ;;
    if truthy video_resp then video_frame video_resp else
    attachment <- lift (get grok_resp "imageAttachmentInfo" JNull) ;;
    when (truthy attachment) (update (set_is_image true)) ;;;
    token <- lift (get grok_resp "token" (JStr "")) ;;
    st <- read ;;
    if is_image st then image_frame grok_resp token
    else chat_frame grok_resp token.

(** *** The loop of [process_stream] *)

(** The handler of the outer [except Exception]: one error chunk and the
    end marker, unless the chunk cannot be built. *)
Definition on_error (st : State) (text : string) : list out * finish :=
  match make_chunk st (JStr ("Process error: " ++ text)) (Some "error") with
  | inr c => ([c; DONE], Completed)
  | inl e => ([], Propagated e)
  end.

(** A terminal stop chunk and the end marker, yielded outside the inner
    [try] block. *)
Definition stop_and_done (st : State) : list out * finish :=
  match make_chunk st (JStr "") (Some "stop") with
  | inr c => ([c; DONE], Completed)
  | inl e => on_error st (exn_text col e)
  end.

Definition prepend (o : list out) (r : list out * finish)
  : list out * finish :=
  ((o ++ fst r)%list, snd r).

Fixpoint stream_loop (st : State) (lines : list arrival) (e : ending)
  : list out * finish :=
  match lines with
  | [] =>
      match e with
      | Exhausted => stop_and_done st
      | Broken text => on_error st text
      end
  | a :: rest =>
      if check_timeout (timeout_mgr st) (t_check a)
      then stop_and_done st
      else
        match body a with
        | EmptyLine => stream_loop st rest e
        | BadJson => stream_loop st rest e
        | Json data =>
            let '(o, st', c) := process_frame data (t_mark a) st in
            match c with
            | Return => (o, Completed)
            | _ => prepend o (stream_loop st' rest e)
            end
        end
  end.

(** [process_stream]: what the generator yields for the lines of the
    response, and how it ends; [t_start] is the clock reading when the
    timeout manager is created. *)
Definition process_stream (t_start : Q) (lines : list arrival) (e : ending)
  : list out * finish :=
  stream_loop (init t_start) lines e.

End Translator.

Arguments Val {A} a.
Arguments Continue {A}.
Arguments Return {A}.
Arguments Raise {A} e.

End Processer.

Module ProcesserExamples.
Import Processer.

Definition cfg0 : Config :=
  {| filtered_tags := "xaiartifact,xai:tool_usage_card,grok:render";
     show_thinking := true;
     stream_chunk_timeout := 120;
     stream_first_response_timeout := 30;
     stream_total_timeout := 600 |}.

Definition col0 : Collab :=
  {| repr := fun _ => "...";
     exn_text := fun _ => "validation error";
     schema_coerce := fun _ => None;
     video_content := fun _ => "<video></video>";
     image_block := fun img => ([], "![Generated Image](/images/" ++
                                    (match img with JStr s => s | _ => "" end)
                                    ++ ")" ++ newline) |}.

Definition response_of (fields : list (string * json)) : line :=
  Json (JDict [("result", JDict [("response", JDict fields)])]).

Definition at_ (t : Q) (l : line) : arrival :=
  {| t_check := t; t_mark := t; body := l |}.

Definition default_model : string := "grok-4-mini-thinking-tahoe".

Example stream_of_tokens :
  process_stream cfg0 col0 0
    [at_ 1 (response_of [("userResponse", JDict [("model", JStr "grok-3")])]);
     at_ 2 (response_of [("token", JStr "think"); ("isThinking", JBool true)]);
     at_ 3 EmptyLine;
     at_ 4 (response_of [("token", JStr "Hel"); ("isThinking", JBool false)]);
     at_ 5 (response_of [("token", JStr "<xaiartifact>")]);
     at_ 6 (response_of [("token", JStr "lo")])] Exhausted
  = ([Chunk "grok-3" ("<think>" ++ newline ++ "think") None;
      Chunk "grok-3" (newline ++ "</think>" ++ newline ++ "Hel") None;
      Chunk "grok-3" "lo" None;
      Chunk "grok-3" "" (Some "stop"); DONE], Completed).
Proof. vm_compute. reflexivity. Qed.

Example stream_vendor_error :
  process_stream cfg0 col0 0
    [at_ 1 (response_of [("token", JStr "Hi")]);
     at_ 2 (Json (JDict [("error", JDict [("message", JStr "rate limited")])]));
     at_ 3 (response_of [("token", JStr "more")])] Exhausted
  = ([Chunk default_model "Hi" None;
      Chunk default_model "Error: rate limited" (Some "stop"); DONE],
     Completed).
Proof. vm_compute. reflexivity. Qed.

Example stream_image :
  process_stream cfg0 col0 0
    [at_ 1 (response_of [("imageAttachmentInfo", JDict [("id", JInt 1)]);
                         ("token", JStr "Drawing")]);
     at_ 2 (response_of [("modelResponse",
              JDict [("generatedImageUrls", JList [JStr "a/b.png"])])]);
     at_ 3 (response_of [("token", JStr "more")])] Exhausted
  = ([Chunk default_model "Drawing" None;
      Chunk default_model "![Generated Image](/images/a/b.png)" (Some "stop")],
     Completed).
Proof. vm_compute. reflexivity. Qed.

Example stream_video :
  process_stream cfg0 col0 0
    [at_ 1 (response_of [("streamingVideoGenerationResponse",
              JDict [("progress", JInt 10)])]);
     at_ 2 (response_of [("streamingVideoGenerationResponse",
              JDict [("progress", JInt 10)])]);
     at_ 3 (response_of [("streamingVideoGenerationResponse",
              JDict [("progress", JInt 100); ("videoUrl", JStr "u/v.mp4")])])]
    Exhausted
  = ([Chunk default_model ("<think>Video generated 10%" ++ newline) None;
      Chunk default_model ("Video generated 100%</think>" ++ newline) None;
      Chunk default_model "<video></video>" None;
      Chunk default_model "" (Some "stop"); DONE], Completed).
Proof. vm_compute. reflexivity. Qed.

(** No frame for more than [first_timeout]: the next line ends the stream. *)
Example stream_first_timeout :
  process_stream cfg0 col0 0
    [at_ 31 EmptyLine; at_ 32 (response_of [("token", JStr "late")])] Exhausted
  = ([Chunk default_model "" (Some "stop"); DONE], Completed).
Proof. vm_compute. reflexivity. Qed.

(** A line that is not JSON and a frame of the wrong shape are passed
    over. *)
Example stream_skips_bad_frames :
  process_stream cfg0 col0 0
    [at_ 1 BadJson;
     at_ 2 (Json (JDict [("result", JInt 1)]));
     at_ 3 (response_of [("token", JStr "Hi")])] Exhausted
  = ([Chunk default_model "Hi" None;
      Chunk default_model "" (Some "stop"); DONE], Completed).
Proof. vm_compute. reflexivity. Qed.

(** The line iterator raising ends the stream with the error chunk. *)
Example stream_broken :
  process_stream cfg0 col0 0
    [at_ 1 (response_of [("token", JStr "Hi")])] (Broken "connection reset")
  = ([Chunk default_model "Hi" None;
      Chunk default_model "Process error: connection reset" (Some "error");
      DONE], Completed).
Proof. vm_compute. reflexivity. Qed.

End ProcesserExamples.

Module ProcesserFacts.
Import Processer.

Lemma Qgtb_lt a b : Qgtb a b = true <-> (b < a)%Q.
Proof. unfold Qgtb, Qlt. apply Z.ltb_lt. Qed.

(** The deadlines in the words of the specification: no first frame within
    [first_timeout] of the start, no frame within [chunk_timeout] of the
    last one, or more than [total_timeout] since the start. *)
Definition deadline_violated (tm : StreamTimeoutManager) (now : Q) : Prop :=
  (first_received tm = false /\ (first_timeout tm < now - start_time tm)%Q) \/
  (first_received tm = true /\
   (chunk_timeout tm < now - last_chunk_time tm)%Q) \/
  (total_timeout tm < now - start_time tm)%Q.

(** The deadlines [check_timeout] looks at: the total one only when
    [total_timeout] is positive. *)
Definition deadline_checked (tm : StreamTimeoutManager) (now : Q) : Prop :=
  (first_received tm = false /\ (first_timeout tm < now - start_time tm)%Q) \/
  (first_received tm = true /\
   (chunk_timeout tm < now - last_chunk_time tm)%Q) \/
  ((0 < total_timeout tm)%Q /\ (total_timeout tm < now - start_time tm)%Q).

Lemma check_timeout_iff tm now :
  check_timeout tm now = true <-> deadline_checked tm now.
Proof.
  unfold check_timeout, deadline_checked.
  destruct (first_received tm); cbn [negb andb].
  - destruct (Qgtb (total_timeout tm) 0
              && Qgtb (now - start_time tm) (total_timeout tm)) eqn:Et.
    + split; [|reflexivity]. intros _. right. right.
      apply andb_prop in Et. destruct Et as [E1 E2].
      split; now apply Qgtb_lt.
    + destruct (Qgtb (now - last_chunk_time tm) (chunk_timeout tm)) eqn:Ec.
      * split; [|reflexivity]. intros _. right. left.
        split; [reflexivity|now apply Qgtb_lt].
      * split; [discriminate|].
        intros [[H _]|[[_ H]|[H1 H2]]]; [discriminate| |].
        -- apply Qgtb_lt in H. congruence.
        -- apply Qgtb_lt in H1, H2. rewrite H1, H2 in Et. discriminate.
  - destruct (Qgtb (now - start_time tm) (first_timeout tm)) eqn:Ef.
    + split; [|reflexivity]. intros _. left.
      split; [reflexivity|now apply Qgtb_lt].
    + destruct (Qgtb (total_timeout tm) 0
                && Qgtb (now - start_time tm) (total_timeout tm)) eqn:Et.
      * split; [|reflexivity]. intros _. right. right.
        apply andb_prop in Et. destruct Et as [E1 E2].
        split; now apply Qgtb_lt.
      * split; [discriminate|].
        intros [[_ H]|[[H _]|[H1 H2]]]; [|discriminate|].
        -- apply Qgtb_lt in H. congruence.
        -- apply Qgtb_lt in H1, H2. rewrite H1, H2 in Et. discriminate.
Qed.

Section Loop.
Variable cfg : Config.
Variable col : Collab.

(** The model name a chunk built in state [st] carries, when the schema
    accepts it. *)
Definition chunk_model (st : State) : option string :=
  as_str col (if truthy (model st) then model st
              else JStr "grok-4-mini-thinking-tahoe").

(** The loop over a prefix of the lines: what is yielded, and the state in
    which the next line is awaited ([None] when the generator has ended). *)
Fixpoint feed (st : State) (lines : list arrival)
  : list out * option State :=
  match lines with
  | [] => ([], Some st)
  | a :: rest =>
      if check_timeout (timeout_mgr st) (t_check a)
      then (fst (stop_and_done col st), None)
      else
        match body a with
        | EmptyLine => feed st rest
        | BadJson => feed st rest
        | Json data =>
            let '(o, st', c) := process_frame cfg col data (t_mark a) st in
            match c with
            | Return => (o, None)
            | _ => let '(o', r) := feed st' rest in ((o ++ o')%list, r)
            end
        end
  end.

Lemma prepend_app o1 o2 r :
  prepend o1 (prepend o2 r) = prepend (o1 ++ o2)%list r.
Proof. unfold prepend. simpl. now rewrite app_assoc. Qed.

Lemma prepend_nil r : prepend [] r = r.
Proof. now destruct r. Qed.

Lemma stream_loop_app pre : forall st o st' rest e,
  feed st pre = (o, Some st') ->
  stream_loop cfg col st (pre ++ rest) e
  = prepend o (stream_loop cfg col st' rest e).
Proof.
  induction pre as [|a pre IH]; intros st o st' rest e H; simpl in H.
  - injection H as <- <-. now rewrite prepend_nil.
  - cbn [app stream_loop].
    destruct (check_timeout (timeout_mgr st) (t_check a)); [discriminate|].
    destruct (body a) as [| |data]; [now apply IH|now apply IH|].
    destruct (process_frame cfg col data (t_mark a) st) as [[o1 st1] c].
    assert (Hgo : forall o' r, feed st1 pre = (o', r) ->
              ((o1 ++ o')%list, r) = (o, Some st') ->
              prepend o1 (stream_loop cfg col st1 (pre ++ rest) e)
              = prepend o (stream_loop cfg col st' rest e)).
    { intros o' r Hf [= <- ->]. rewrite (IH _ _ _ rest e Hf).
      apply prepend_app. }
    destruct c; try discriminate;
      destruct (feed st1 pre) as [o' r] eqn:Hf; eapply Hgo; eauto.
Qed.

Lemma stop_and_done_ok st name :
  chunk_model st = Some name ->
  stop_and_done col st = ([Chunk name "" (Some "stop"); DONE], Completed).
Proof.
  unfold chunk_model, stop_and_done, make_chunk. intros ->. reflexivity.
Qed.

Lemma on_error_ok st name text :
  chunk_model st = Some name ->
  on_error col st text
  = ([Chunk name ("Process error: " ++ text) (Some "error"); DONE], Completed).
Proof.
  unfold chunk_model, on_error, make_chunk. intros ->. reflexivity.
Qed.

End Loop.
End ProcesserFacts.

(** ** What a frame that does not end the stream yields *)

Module FrameFacts.
Import Processer.

(** A chunk with no finish reason. *)
Definition plain (x : out) : Prop := exists m c, x = Chunk m c None.

(** A computation that yields only plain chunks unless it returns. *)
Definition tame {A} (m : M A) : Prop :=
  forall st o st' c, m st = (o, st', c) -> c <> Return -> Forall plain o.

Section Tame.
Variable cfg : Config.
Variable col : Collab.

Lemma tame_ret {A} (a : A) : tame (ret a).
Proof. intros st o st' c [= <- _ _] _. constructor. Qed.

Lemma tame_continue {A} : tame (@continue_ A).
Proof. intros st o st' c [= <- _ _] _. constructor. Qed.

Lemma tame_return {A} : tame (@return_ A).
Proof. intros st o st' c [= <- _ <-] H. now elim H. Qed.

Lemma tame_raise {A} e : tame (@raise A e).
Proof. intros st o st' c [= <- _ _] _. constructor. Qed.

Lemma tame_lift {A} (r : exn + A) : tame (lift r).
Proof. destruct r; [apply tame_raise|apply tame_ret]. Qed.

Lemma tame_read : tame read.
Proof. intros st o st' c [= <- _ _] _. constructor. Qed.

Lemma tame_update f : tame (update f).
Proof. intros st o st' c [= <- _ _] _. constructor. Qed.

Lemma tame_yield content : tame (yield_chunk col content None).
Proof.
  intros st o st' c H _. unfold yield_chunk, make_chunk in H.
  destruct (as_str col _) as [name|]; [|injection H as <- _ _; constructor].
  destruct (truthy content).
  - destruct (as_str col content);
      injection H as <- _ _; repeat constructor. now exists name, s.
  - injection H as <- _ _. repeat constructor. now exists name, "".
Qed.

Lemma tame_bind {A B} (m : M A) (f : A -> M B) :
  tame m -> (forall a, tame (f a)) -> tame (bind m f).
Proof.
  intros Hm Hf st o st' c H Hc. unfold bind in H.
  destruct (m st) as [[o1 st1] c1] eqn:Em.
  destruct c1 as [a| | |e].
  - destruct (f a st1) as [[o2 st2] c2] eqn:Ef. injection H as <- <- <-.
    apply Forall_app. split.
    + apply (Hm _ _ _ _ Em). discriminate.
    + apply (Hf a _ _ _ _ Ef Hc).
  - injection H as <- <- <-. apply (Hm _ _ _ _ Em). discriminate.
  - injection H as <- <- <-. now elim Hc.
  - injection H as <- <- <-. apply (Hm _ _ _ _ Em). discriminate.
Qed.

Lemma tame_when b m : tame m -> tame (when b m).
Proof. intros H. destruct b; [exact H|apply tame_ret]. Qed.

(** A chunk followed by [return]: either the chunk is not built and nothing
    is yielded, or the generator returns. *)
Lemma tame_yield_return content fin (k : M unit) :
  (forall st, snd (k st) = Return) ->
  tame (bind (yield_chunk col content fin) (fun _ => k)).
Proof.
  intros Hk st o st' c H Hc. unfold bind, yield_chunk in H.
  destruct (make_chunk col st content fin) as [e|x].
  - injection H as <- _ _. constructor.
  - specialize (Hk st). destruct (k st) as [[o2 st2] c2]. simpl in Hk.
    injection H as _ _ <-. contradiction.
Qed.

Lemma tame_yield_all cs : tame (yield_all col cs).
Proof.
  induction cs as [|c cs IH]; simpl; [apply tame_ret|].
  apply tame_bind; [apply tame_yield|intros _; exact IH].
Qed.

Lemma tame_image_loop imgs : forall content, tame (image_loop col imgs content).
Proof.
  induction imgs as [|img imgs IH]; intros content; simpl; [apply tame_ret|].
  destruct (image_block col img) as [chunks text].
  apply tame_bind; [apply tame_yield_all|intros _; apply IH].
Qed.

Lemma tame_search_loop results : forall token,
  tame (search_loop col results token).
Proof.
  induction results as [|r results IH]; intros token; simpl;
    [apply tame_ret|].
  repeat (apply tame_bind; [apply tame_lift|intros]). apply IH.
Qed.

Ltac tame_step :=
  match goal with
  | |- tame (bind (yield_chunk _ _ (Some _)) _) =>
      apply tame_yield_return; intros; reflexivity
  | |- tame (bind _ _) => apply tame_bind; [|intros]
  | |- tame (lift _) => apply tame_lift
  | |- tame (ret _) => apply tame_ret
  | |- tame continue_ => apply tame_continue
  | |- tame return_ => apply tame_return
  | |- tame read => apply tame_read
  | |- tame (update _) => apply tame_update
  | |- tame (yield_chunk _ _ None) => apply tame_yield
  | |- tame (when _ _) => apply tame_when
  | |- tame (image_loop _ _ _) => apply tame_image_loop
  | |- tame (search_loop _ _ _) => apply tame_search_loop
  | |- tame (if ?b then _ else _) => destruct b
  | |- tame (let '(_, _) := ?x in _) => destruct x
  | |- tame (match ?x with _ => _ end) => destruct x
  end.

Lemma tame_video_frame video_resp : tame (video_frame cfg col video_resp).
Proof. unfold video_frame. repeat tame_step. Qed.

Lemma tame_image_frame grok_resp token :
  tame (image_frame col grok_resp token).
Proof. unfold image_frame. repeat tame_step. Qed.

Lemma tame_chat_frame grok_resp token :
  tame (chat_frame cfg col grok_resp token).
Proof. unfold chat_frame. destruct token; repeat tame_step. Qed.

(** A frame that does not end the stream yields plain chunks only: no
    finish reason, no end marker. *)
Lemma tame_process_frame data now : tame (process_frame cfg col data now).
Proof.
  unfold process_frame. repeat tame_step.
  - apply tame_video_frame.
  - apply tame_image_frame.
  - apply tame_chat_frame.
Qed.

Lemma feed_plain lines : forall st o st',
  ProcesserFacts.feed cfg col st lines = (o, Some st') -> Forall plain o.
Proof.
  induction lines as [|a lines IH]; intros st o st' H; simpl in H.
  - injection H as <- _. constructor.
  - destruct (check_timeout (timeout_mgr st) (t_check a)); [discriminate|].
    destruct (body a) as [| |data]; [eauto|eauto|].
    destruct (process_frame cfg col data (t_mark a) st) as [[o1 st1] c] eqn:E.
    assert (Hgo : c <> Return ->
              (let '(o', r) := ProcesserFacts.feed cfg col st1 lines in
               ((o1 ++ o')%list, r)) = (o, Some st') -> Forall plain o).
    { intros Hc H'.
      destruct (ProcesserFacts.feed cfg col st1 lines) as [o' r] eqn:Hf.
      injection H' as <- ->. apply Forall_app. split.
      - exact (tame_process_frame _ _ _ _ _ _ E Hc).
      - eauto. }
    destruct c; try discriminate; apply Hgo; auto; discriminate.
Qed.

End Tame.
End FrameFacts.

Module StreamProps.
Import Processer ProcesserFacts FrameFacts ProcesserExamples.

(** The statement that a violated deadline always ends the stream with the
    stop chunk and the end marker and nothing more: when a line arrives
    with a deadline violated, the total one included, ... *)
Definition timeout_stops_on_line : Prop :=
  forall cfg col t_start pre a rest e o st name,
    feed cfg col (init cfg t_start) pre = (o, Some st) ->
    chunk_model col st = Some name ->
    deadline_violated (timeout_mgr st) (t_check a) ->
    process_stream cfg col t_start (pre ++ a :: rest) e
    = ((o ++ [Chunk name "" (Some "stop"); DONE])%list, Completed).

(** ... and when the line iterator ends, at the clock reading [t_end], with
    a deadline violated. *)
Definition timeout_stops_at_end : Prop :=
  forall cfg col t_start pre e (t_end : Q) o st name,
    feed cfg col (init cfg t_start) pre = (o, Some st) ->
    chunk_model col st = Some name ->
    deadline_violated (timeout_mgr st) t_end ->
    process_stream cfg col t_start pre e
    = ((o ++ [Chunk name "" (Some "stop"); DONE])%list, Completed).

(** A configuration with the total deadline switched off. *)
Definition cfg_no_total : Config :=
  {| filtered_tags := "xaiartifact";
     show_thinking := true;
     stream_chunk_timeout := 120;
     stream_first_response_timeout := 30;
     stream_total_timeout := 0 |}.

(** With [stream_total_timeout] 0 the total deadline is never checked: the
    frames keep being read and translated.  And a deadline that passes
    while no line arrives is not noticed: when the iterator then raises,
    the stream ends with the error chunk. *)
Lemma deadlines_checked_on_arrival :
  ~ timeout_stops_on_line /\ ~ timeout_stops_at_end.
Proof.
  split; intros H.
  - specialize (H cfg_no_total col0 0%Q []
                  (at_ 1 (response_of [("token", JStr "Hi")]))
                  [at_ 2 (response_of [("token", JStr "there")])] Exhausted
                  [] (init cfg_no_total 0) default_model eq_refl eq_refl).
    assert (Hv : deadline_violated (timeout_mgr (init cfg_no_total 0))
                   (t_check (at_ 1 (response_of [("token", JStr "Hi")])))).
    { right. right. reflexivity. }
    specialize (H Hv). vm_compute in H. discriminate.
  - specialize (H cfg0 col0 0%Q [] (Broken "read timed out") 120%Q
                  [] (init cfg0 0) default_model eq_refl eq_refl).
    assert (Hv : deadline_violated (timeout_mgr (init cfg0 0)) 120).
    { left. split; reflexivity. }
    specialize (H Hv). vm_compute in H. discriminate.
Qed.

Example total_timeout_zero_run :
  process_stream cfg_no_total col0 0
    [at_ 1 (response_of [("token", JStr "Hi")]);
     at_ 2 (response_of [("token", JStr "there")])] Exhausted
  = ([Chunk default_model "Hi" None; Chunk default_model "there" None;
      Chunk default_model "" (Some "stop"); DONE], Completed).
Proof. vm_compute. reflexivity. Qed.

Example silent_then_broken_run :
  process_stream cfg0 col0 0 [] (Broken "read timed out")
  = ([Chunk default_model "Process error: read timed out" (Some "error");
      DONE], Completed).
Proof. vm_compute. reflexivity. Qed.

(** C5, amended. When a line arrives from upstream with a deadline that
    [check_timeout] looks at violated (no first frame within
    [first_timeout] of the start, no frame within [chunk_timeout] of the
    last one, or more than a positive [total_timeout] since the start),
    the stream yields, after the plain chunks of the lines before, exactly
    the stop chunk and the end marker, and ends: the later lines and the
    way the iterator ends do not matter.  [check_timeout] fires exactly on
    those deadlines. *)
Theorem timeout_stops (cfg : Config) (col : Collab) (t_start : Q)
  (pre : list arrival) (a : arrival) (rest : list arrival) (e : ending)
  (o : list out) (st : State) (name : string) :
  feed cfg col (init cfg t_start) pre = (o, Some st) ->
  chunk_model col st = Some name ->
  deadline_checked (timeout_mgr st) (t_check a) ->
  process_stream cfg col t_start (pre ++ a :: rest) e
  = ((o ++ [Chunk name "" (Some "stop"); DONE])%list, Completed) /\
  Forall plain o /\
  (forall tm now, check_timeout tm now = true <-> deadline_checked tm now) /\
  (forall tm now, (0 < total_timeout tm)%Q ->
     (deadline_checked tm now <-> deadline_violated tm now)).
Proof.
  intros Hf Hm Hd. split; [|split; [|split]].
  - unfold process_stream. rewrite (stream_loop_app cfg col _ _ _ _ _ e Hf).
    cbn [stream_loop]. apply check_timeout_iff in Hd. rewrite Hd.
    rewrite (stop_and_done_ok col st name Hm). reflexivity.
  - exact (feed_plain cfg col _ _ _ _ Hf).
  - apply check_timeout_iff.
  - intros tm now Hpos. unfold deadline_checked, deadline_violated. tauto.
Qed.

Lemma timeout_stops_witness :
  process_stream cfg0 col0 0
    ([at_ 1 (response_of [("token", JStr "Hi")])] ++
     at_ 122 EmptyLine :: [at_ 123 (response_of [("token", JStr "late")])])
    Exhausted
  = (([Chunk default_model "Hi" None]
      ++ [Chunk default_model "" (Some "stop"); DONE])%list, Completed).
Proof.
  refine (proj1 (timeout_stops cfg0 col0 0
            [at_ 1 (response_of [("token", JStr "Hi")])]
            (at_ 122 EmptyLine)
            [at_ 123 (response_of [("token", JStr "late")])] Exhausted
            [Chunk default_model "Hi" None] _ default_model _ _ _)).
  - vm_compute. reflexivity.
  - reflexivity.
  - right. left. split; [reflexivity|]. vm_compute. reflexivity.
Defined.

(** The statement that an error raised while a frame is processed, other
    than a decoding error, ends the stream with an error chunk and the end
    marker. *)
Definition frame_error_aborts : Prop :=
  forall cfg col st a data rest e o st' ex,
    body a = Json data ->
    check_timeout (timeout_mgr st) (t_check a) = false ->
    process_frame cfg col data (t_mark a) st = (o, st', Raise ex) ->
    exists name text,
      stream_loop cfg col st (a :: rest) e
      = ((o ++ [Chunk name text (Some "error"); DONE])%list, Completed).

(** A frame whose [result] is not an object raises [AttributeError]; it is
    passed over and the next frame is translated. *)
Lemma frame_error_is_skipped : ~ frame_error_aborts.
Proof.
  intros H.
  destruct (H cfg0 col0 (init cfg0 0) (at_ 1 (Json (JDict [("result", JInt 1)])))
              (JDict [("result", JInt 1)])
              [at_ 2 (response_of [("token", JStr "Hi")])] Exhausted
              [] (init cfg0 0) AttributeError eq_refl eq_refl eq_refl)
    as (name & text & E).
  vm_compute in E. discriminate.
Qed.

(** C7, amended. A line that is not decodable JSON is passed over: nothing
    is yielded, the state is kept, and the stream goes on with the next
    line.  A frame whose processing raises any other exception is passed
    over as well: what it yielded before stays, only plain chunks, and the
    stream goes on with the next line.  Only an exception of the line
    iterator ends the stream with the single chunk [Process error: ...]
    of finish reason [error], followed by the end marker. *)
Theorem frame_errors (cfg : Config) (col : Collab) :
  (forall st a rest e,
     body a = BadJson ->
     check_timeout (timeout_mgr st) (t_check a) = false ->
     stream_loop cfg col st (a :: rest) e = stream_loop cfg col st rest e /\
     feed cfg col st [a] = ([], Some st)) /\
  (forall st a data rest e o st' ex,
     body a = Json data ->
     check_timeout (timeout_mgr st) (t_check a) = false ->
     process_frame cfg col data (t_mark a) st = (o, st', Raise ex) ->
     stream_loop cfg col st (a :: rest) e
     = prepend o (stream_loop cfg col st' rest e) /\
     Forall plain o) /\
  (forall t_start pre o st name text,
     feed cfg col (init cfg t_start) pre = (o, Some st) ->
     chunk_model col st = Some name ->
     process_stream cfg col t_start pre (Broken text)
     = ((o ++ [Chunk name ("Process error: " ++ text) (Some "error"); DONE])%list,
        Completed) /\
     Forall plain o).
Proof.
  split; [|split].
  - intros st a rest e Hb Hc. simpl. rewrite Hc, Hb. split; reflexivity.
  - intros st a data rest e o st' ex Hb Hc Hp. split.
    + cbn [stream_loop]. rewrite Hc, Hb, Hp. reflexivity.
    + apply (tame_process_frame cfg col _ _ _ _ _ _ Hp). discriminate.
  - intros t_start pre o st name text Hf Hm. split.
    + unfold process_stream.
      rewrite <- (app_nil_r pre).
      rewrite (stream_loop_app cfg col _ _ _ _ _ (Broken text) Hf).
      cbn [stream_loop]. rewrite (on_error_ok col st name text Hm).
      reflexivity.
    + exact (feed_plain cfg col _ _ _ _ Hf).
Qed.

Lemma frame_errors_witness :
  stream_loop cfg0 col0 (init cfg0 0)
    (at_ 1 BadJson :: [at_ 2 (response_of [("token", JStr "Hi")])]) Exhausted
  = stream_loop cfg0 col0 (init cfg0 0)
      [at_ 2 (response_of [("token", JStr "Hi")])] Exhausted /\
  stream_loop cfg0 col0 (init cfg0 0)
    (at_ 1 (Json (JDict [("result", JInt 1)]))
     :: [at_ 2 (response_of [("token", JStr "Hi")])]) Exhausted
  = prepend [] (stream_loop cfg0 col0 (init cfg0 0)
                  [at_ 2 (response_of [("token", JStr "Hi")])] Exhausted) /\
  process_stream cfg0 col0 0 [at_ 1 (response_of [("token", JStr "Hi")])]
    (Broken "connection reset")
  = (([Chunk default_model "Hi" None]
      ++ [Chunk default_model "Process error: connection reset" (Some "error");
          DONE])%list, Completed).
Proof.
  destruct (frame_errors cfg0 col0) as (Hbad & Hskip & Hbroken).
  split; [|split].
  - refine (proj1 (Hbad (init cfg0 0) (at_ 1 BadJson) _ Exhausted _ _));
      reflexivity.
  - refine (proj1 (Hskip (init cfg0 0) (at_ 1 (Json (JDict [("result", JInt 1)])))
                     (JDict [("result", JInt 1)]) _ Exhausted [] (init cfg0 0)
                     AttributeError _ _ _)); reflexivity.
  - refine (proj1 (Hbroken 0%Q [at_ 1 (response_of [("token", JStr "Hi")])]
                     [Chunk default_model "Hi" None] _ default_model
                     "connection reset" _ _)).
    + vm_compute. reflexivity.
    + reflexivity.
Defined.

End StreamProps.

(** * Further properties of the credential pool *)

(** ** The cookie handed out by [get_token] and read back by [_extract_sso] *)

Module Sso.
Import Token.

(** [c] occurs in [s]. *)
Fixpoint has_char (c : ascii) (s : string) : bool :=
  match s with
  | EmptyString => false
  | String a s' => Ascii.eqb a c || has_char c s'
  end.

Lemma append_assoc_char cur b k :
  (cur ++ String b EmptyString) ++ k = cur ++ String b k.
Proof. induction cur as [|a cur IH]; simpl; [reflexivity|now rewrite IH]. Qed.

Lemma append_nil_r s : s ++ "" = s.
Proof. induction s as [|a s IH]; simpl; [reflexivity|now rewrite IH]. Qed.

(** A match that begins inside [k] and would run over a character the
    separator does not contain lies within [k]. *)
Lemma startswith_before sep : forall k c t,
  has_char c sep = false ->
  Py.startswith (k ++ String c t) sep = true ->
  Py.startswith k sep = true.
Proof.
  induction sep as [|a sep IH]; intros k c t Hc H; [reflexivity|].
  simpl in Hc. apply orb_false_elim in Hc. destruct Hc as [Hac Hc].
  destruct k as [|b k]; simpl in H |- *.
  - rewrite Hac in H. discriminate.
  - apply andb_prop in H. destruct H as [Hab H]. rewrite Hab. simpl.
    eapply IH; eauto.
Qed.

Lemma split_go_through sep k : forall cur c t,
  Py.contains sep k = false ->
  has_char c sep = false ->
  Py.split_go sep 0 cur (k ++ String c t)
  = Py.split_go sep 0 (cur ++ k) (String c t).
Proof.
  induction k as [|b k IH]; intros cur c t Hk Hc.
  - simpl. now rewrite append_nil_r.
  - simpl in Hk. apply orb_false_elim in Hk. destruct Hk as [Hs Hk].
    change ((String b k) ++ String c t) with (String b (k ++ String c t)).
    cbn [Py.split_go].
    destruct (Py.startswith (String b (k ++ String c t)) sep) eqn:E.
    + apply (startswith_before sep (String b k) c t Hc) in E. congruence.
    + rewrite IH by assumption. now rewrite append_assoc_char.
Qed.

Lemma split_go_plain sep k : forall cur,
  Py.contains sep k = false ->
  Py.split_go sep 0 cur k = [cur ++ k].
Proof.
  induction k as [|b k IH]; intros cur Hk.
  - simpl. now rewrite append_nil_r.
  - simpl in Hk. apply orb_false_elim in Hk. destruct Hk as [Hs Hk].
    cbn [Py.split_go]. rewrite Hs, IH by assumption.
    now rewrite append_assoc_char.
Qed.

Lemma contains_app sep a : forall s,
  Py.contains sep s = true -> Py.contains sep (a ++ s) = true.
Proof.
  induction a as [|c a IH]; intros s H; [exact H|].
  simpl. rewrite IH by assumption. apply orb_true_r.
Qed.

Lemma split_cookie k :
  Py.contains "sso=" k = false ->
  Py.split ("sso-rw=" ++ k ++ ";sso=" ++ k) "sso="
  = ["sso-rw=" ++ k ++ ";"; k].
Proof.
  intros Hk. unfold Py.split.
  change (Py.split_go "sso=" 0 "" ("sso-rw=" ++ k ++ ";sso=" ++ k))
    with (Py.split_go "sso=" 0 "sso-rw=" (k ++ String ";" ("sso=" ++ k))).
  rewrite split_go_through by (assumption || reflexivity).
  change (Py.split_go "sso=" 0 ("sso-rw=" ++ k) (String ";" ("sso=" ++ k)))
    with ((("sso-rw=" ++ k) ++ ";") :: Py.split_go "sso=" 0 "" k).
  rewrite split_go_plain by assumption. simpl. f_equal.
Qed.

End Sso.

Module SsoProps.
Import Token TokenFacts Sso.

Lemma In_get_some {V} (d : Dict.t V) k v : In (k, v) d -> Dict.get d k <> None.
Proof.
  induction d as [|[k' v'] d IH]; simpl; [contradiction|].
  intros [[= -> ->]|Hin].
  - now rewrite String.eqb_refl.
  - destruct (String.eqb k k'); [discriminate|auto].
Qed.

Lemma extract_sso_cookie k :
  Py.contains ";" k = false ->
  Py.contains "sso=" k = false ->
  _extract_sso ("sso-rw=" ++ k ++ ";sso=" ++ k) = Some k.
Proof.
  intros Hsemi Hsso. unfold _extract_sso.
  assert (Hc : Py.contains "sso=" ("sso-rw=" ++ k ++ ";sso=" ++ k) = true).
  { change ("sso-rw=" ++ k ++ ";sso=" ++ k)
      with ("sso-rw=" ++ (k ++ ";sso=" ++ k)).
    apply contains_app, contains_app. reflexivity. }
  rewrite Hc, split_cookie by assumption. cbn [nth].
  unfold Py.split. rewrite split_go_plain by assumption. reflexivity.
Qed.

Lemma chosen_get tokens field key :
  NoDup (map fst tokens) -> chosen tokens field key ->
  exists data, Dict.get tokens key = Some data /\ keptb field data = true.
Proof.
  intros Hnd (pre & data & post & E & Hk & _). exists data.
  split; [|exact Hk].
  apply DictOps.get_unique; [exact Hnd|].
  subst. apply in_or_app. right. now left.
Qed.

(** X1. The cookie [get_token] hands out leads back to the record it was
    selected from, unless that is a premium record whose key the standard
    partition stores too.  On the store [get_token] has reloaded, with
    distinct keys in each partition: the cookie is the one of a key chosen
    in a partition, the premium one for a heavy request; when the key holds
    neither [;] nor [sso=], [_extract_sso] recovers it from the cookie, and
    [_find_token] returns the partition and the record of the choice when
    that partition is the standard one or the standard one does not hold the
    key; when the choice is premium and the standard partition holds the
    key, [_find_token] returns the standard record. *)
Theorem get_token_round_trip (s : Durable.System) (model auth : string) :
  snd (Durable.get_token s model) = inr auth ->
  let td := token_data (Durable.manager (fst (Durable.get_token s model))) in
  let heavy := String.eqb model "grok-4-heavy" in
  let field := if heavy then "heavyremainingQueries" else "remainingQueries" in
  NoDup (map fst (normal td)) ->
  NoDup (map fst (super td)) ->
  exists key ty data,
    auth = Durable.cookie key /\
    (heavy = true -> ty = SUPER) /\
    chosen (partition td ty) field key /\
    Dict.get (partition td ty) key = Some data /\
    keptb field data = true /\
    (Py.contains ";" key = false -> Py.contains "sso=" key = false ->
     _extract_sso auth = Some key /\
     (ty = NORMAL \/ Dict.get (normal td) key = None ->
      _find_token td key = Some (ty, data)) /\
     (forall d, ty = SUPER -> Dict.get (normal td) key = Some d ->
      _find_token td key = Some (NORMAL, d))).
Proof.
  intros Hget td heavy field Hn Hs.
  change (get_token td model = inr auth) in Hget.
  rewrite Durable.get_token_cookie in Hget.
  pose proof (SelectionProps.select_token_chosen td model) as Hc.
  cbv zeta in Hc. fold heavy in Hc. fold field in Hc.
  destruct (select_token td model) as [e|key]; [discriminate|].
  injection Hget as <-.
  assert (Hty : exists ty, (heavy = true -> ty = SUPER) /\
                           chosen (partition td ty) field key).
  { destruct heavy.
    - exists SUPER. split; [reflexivity|exact Hc].
    - destruct Hc as [Hc|[_ Hc]].
      + exists NORMAL. split; [discriminate|exact Hc].
      + exists SUPER. split; [reflexivity|exact Hc]. }
  destruct Hty as (ty & Hh & Hch).
  assert (Hnd : NoDup (map fst (partition td ty))) by (destruct ty; assumption).
  destruct (chosen_get _ _ _ Hnd Hch) as (data & Hg & Hk).
  exists key, ty, data.
  split; [reflexivity|]. split; [exact Hh|]. split; [exact Hch|].
  split; [exact Hg|]. split; [exact Hk|].
  intros Hsemi Hsso. split; [now apply extract_sso_cookie|]. split.
  - intros [->|Hnone]; unfold _find_token.
    + simpl in Hg. now rewrite Hg.
    + rewrite Hnone. destruct ty; simpl in Hg; [congruence|now rewrite Hg].
  - intros d _ Hd. unfold _find_token. now rewrite Hd.
Qed.

Lemma get_token_round_trip_witness :
  let s := Durable.started false (Some TokenExamples.pool1) in
  let td := token_data (Durable.manager (fst (Durable.get_token s "grok-3"))) in
  exists key ty data,
    "sso-rw=e;sso=e" = Durable.cookie key /\
    Dict.get (partition td ty) key = Some data /\
    (Py.contains ";" key = false -> Py.contains "sso=" key = false ->
     _extract_sso "sso-rw=e;sso=e" = Some key /\
     (ty = NORMAL \/ Dict.get (normal td) key = None ->
      _find_token td key = Some (ty, data))).
Proof.
  intros s td.
  destruct (get_token_round_trip s "grok-3" "sso-rw=e;sso=e")
    as (key & ty & data & Hc & _ & _ & Hg & _ & Hr).
  - reflexivity.
  - vm_compute. repeat constructor; simpl; intuition discriminate.
  - vm_compute. repeat constructor; simpl; intuition discriminate.
  - exists key, ty, data. split; [exact Hc|]. split; [exact Hg|].
    intros H1 H2. destruct (Hr H1 H2) as (He & Hf & _). auto.
Defined.

(** A key stored in both partitions and handed out for a heavy request: the
    cookie leads to the standard record. *)
Example round_trip_to_standard :
  let td := {| normal := [("k", TokenExamples.rec_with "active" 2 0 0)];
               super := [("k", TokenExamples.rec_with "active" 0 5 (-1))] |} in
  get_token td "grok-4-heavy" = inr "sso-rw=k;sso=k" /\
  _extract_sso "sso-rw=k;sso=k" = Some "k" /\
  _find_token td "k" = Some (NORMAL, TokenExamples.rec_with "active" 2 0 0).
Proof. repeat split. Qed.

(** A key that holds [;] is cut at it: the failure is booked on another
    key, or on none. *)
Example extract_sso_cut : _extract_sso "sso-rw=a;b;sso=a;b" = Some "a".
Proof. reflexivity. Qed.

End SsoProps.

Module PoolAdminFacts.
Import Token TokenFacts Pool TokenAdmin.

Lemma TokenType_eq_dec (a b : TokenType) : {a = b} + {a <> b}.
Proof. decide equality. Defined.

Lemma find_token_none td sso :
  _find_token td sso = None ->
  forall ty, Dict.get (partition td ty) sso = None.
Proof.
  unfold _find_token. intros H ty.
  destruct (Dict.get (normal td) sso) eqn:En; [discriminate|].
  destruct (Dict.get (super td) sso) eqn:Es; [discriminate|].
  now destruct ty.
Qed.

(** [_find_token] stops at the standard partition. *)
Lemma find_token_super td sso data :
  _find_token td sso = Some (SUPER, data) -> Dict.get (normal td) sso = None.
Proof.
  unfold _find_token. destruct (Dict.get (normal td) sso); [discriminate|].
  reflexivity.
Qed.

Lemma find_token_store self sso ty data data' :
  _find_token (token_data self) sso = Some (ty, data) ->
  _find_token (token_data (store_record self ty sso data')) sso
  = Some (ty, data').
Proof.
  intros Hf. pose proof (find_token_get _ _ _ _ Hf) as Hg.
  unfold _find_token, store_record. destruct ty; simpl in *.
  - now rewrite Dict.get_set_same.
  - rewrite (find_token_super _ _ _ Hf). now rewrite Dict.get_set_same.
Qed.

Lemma get_store_other self ty sso data' ty' k :
  k <> sso ->
  Dict.get (partition (token_data (store_record self ty sso data')) ty') k
  = Dict.get (partition (token_data self) ty') k.
Proof.
  intros Hne. unfold store_record. destruct ty, ty'; simpl;
    try reflexivity; apply Dict.get_set_other; congruence.
Qed.

Lemma keys_store self ty sso data data' ty' :
  Dict.get (partition (token_data self) ty) sso = Some data ->
  map fst (partition (token_data (store_record self ty sso data')) ty')
  = map fst (partition (token_data self) ty').
Proof.
  intros Hg. unfold store_record.
  assert (Hm : Dict.mem (partition (token_data self) ty) sso = true)
    by (unfold Dict.mem; now rewrite Hg).
  destruct ty, ty'; simpl in *; try reflexivity;
    now apply Dict.keys_set_mem.
Qed.

Lemma store_other_partition self ty sso data' ty' :
  ty <> ty' ->
  partition (token_data (store_record self ty sso data')) ty'
  = partition (token_data self) ty'.
Proof. unfold store_record. destruct ty, ty'; simpl; congruence. Qed.

Lemma expired_kept_keys p p' : expired_kept p p' -> map fst p = map fst p'.
Proof.
  induction 1 as [|x y p p' [Hk _] _ IH]; simpl; [reflexivity|].
  now rewrite Hk, IH.
Qed.

(** The record [record_failure] and [reset_failure] work on. *)
Lemma record_failure_cases self a st msg now :
  record_failure self a st msg now = self \/
  exists sso ty data,
    _extract_sso a = Some sso /\
    _find_token (token_data self) sso = Some (ty, data) /\
    record_failure self a st msg now
    = _mark_dirty (store_record self ty sso (failed data st msg now)).
Proof.
  unfold record_failure.
  destruct (st =? STATSIG_INVALID); [now left|].
  destruct (_extract_sso a) as [sso|]; [|now left].
  destruct (negb (Py.truthy sso)); [now left|].
  destruct (_find_token (token_data self) sso) as [[ty data]|] eqn:Hf;
    [|now left].
  right. exists sso, ty, data. auto.
Qed.

Lemma reset_failure_cases self a :
  reset_failure self a = self \/
  exists sso ty data,
    _extract_sso a = Some sso /\
    _find_token (token_data self) sso = Some (ty, data) /\
    reset_failure self a = _mark_dirty (store_record self ty sso (cleared data)).
Proof.
  unfold reset_failure.
  destruct (_extract_sso a) as [sso|]; [|now left].
  destruct (negb (Py.truthy sso)); [now left|].
  destruct (_find_token (token_data self) sso) as [[ty data]|] eqn:Hf;
    [|now left].
  destruct (get_failedCount data >? 0); [|now left].
  right. exists sso, ty, data. auto.
Qed.

Lemma update_limits_cases self sso normal heavy :
  match _find_token (token_data self) sso with
  | Some (ty, data) =>
      update_limits self sso normal heavy
      = _mark_dirty (store_record self ty sso (with_limits data normal heavy))
  | None => update_limits self sso normal heavy = self
  end.
Proof.
  unfold update_limits, _find_token. cbn [update_limits_in partition].
  destruct (Dict.get (Token.normal (token_data self)) sso); [reflexivity|].
  destruct (Dict.get (super (token_data self)) sso); reflexivity.
Qed.

End PoolAdminFacts.

Module PoolAdminProps.
Import Token TokenFacts Pool TokenAdmin PoolAdminFacts.

(** X2. Failure bookkeeping touches one record: [record_failure] and
    [reset_failure] keep the keys of both partitions, in their order, and
    leave every record alone that is not stored under the [sso] value of the
    cookie. *)
Theorem failure_bookkeeping_frame (self : Manager) (a msg : string)
  (st now : Z) (ty : TokenType) :
  let after_failure := token_data (record_failure self a st msg now) in
  let after_success := token_data (reset_failure self a) in
  map fst (partition after_failure ty) = map fst (partition (token_data self) ty)
  /\ map fst (partition after_success ty)
     = map fst (partition (token_data self) ty)
  /\ forall k, _extract_sso a <> Some k ->
       Dict.get (partition after_failure ty) k
       = Dict.get (partition (token_data self) ty) k /\
       Dict.get (partition after_success ty) k
       = Dict.get (partition (token_data self) ty) k.
Proof.
  cbv zeta. split; [|split].
  - symmetry. apply expired_kept_keys, record_failure_kept.
  - symmetry. apply expired_kept_keys, reset_failure_kept.
  - intros k Hk. split.
    + destruct (record_failure_cases self a st msg now)
        as [->|(sso & ty0 & data & He & _ & ->)]; [reflexivity|].
      cbn [token_data _mark_dirty]. apply get_store_other. congruence.
    + destruct (reset_failure_cases self a)
        as [->|(sso & ty0 & data & He & _ & ->)]; [reflexivity|].
      cbn [token_data _mark_dirty]. apply get_store_other. congruence.
Qed.

(** X3. A key stored in both partitions has its failures booked on the
    standard record: the premium partition is left as it was, and so is
    what a heavy request is given. *)
Theorem failure_booked_on_standard (self : Manager) (a sso msg : string)
  (st now : Z) :
  _extract_sso a = Some sso ->
  Dict.mem (normal (token_data self)) sso = true ->
  let self' := record_failure self a st msg now in
  super (token_data self') = super (token_data self) /\
  select_token (token_data self') "grok-4-heavy"
  = select_token (token_data self) "grok-4-heavy".
Proof.
  intros He Hm. cbv zeta.
  assert (Hs : super (token_data (record_failure self a st msg now))
               = super (token_data self)).
  { destruct (record_failure_cases self a st msg now)
      as [->|(sso' & ty & data & He' & Hf & ->)]; [reflexivity|].
    rewrite He in He'. injection He' as <-.
    destruct ty.
    - reflexivity.
    - apply find_token_super in Hf. unfold Dict.mem in Hm.
      rewrite Hf in Hm. discriminate. }
  split; [exact Hs|].
  pose proof (expired_kept_keys _ _ (record_failure_kept self a st msg now NORMAL))
    as Hk.
  apply (f_equal (@List.length string)) in Hk. rewrite !length_map in Hk.
  simpl in Hk. unfold select_token. cbn [String.eqb Ascii.eqb Bool.eqb].
  rewrite Hs, Hk. reflexivity.
Qed.

Lemma failure_booked_on_standard_witness :
  let self := {| token_data := {| normal := [("abc", fresh_record 0)];
                                  super := [("abc", fresh_record 1)] |};
                 _save_pending := false |} in
  let self' := record_failure self "sso-rw=abc;sso=abc" 401 "no" 5 in
  super (token_data self') = super (token_data self) /\
  select_token (token_data self') "grok-4-heavy"
  = select_token (token_data self) "grok-4-heavy".
Proof.
  apply (failure_booked_on_standard _ "sso-rw=abc;sso=abc" "abc");
    reflexivity.
Defined.

(** X4. Server errors sideline a credential without expiring it: the third
    failure with a status outside [400..499] leaves the status as it was,
    yet the record is no longer eligible for selection; one success
    afterwards makes it eligible again, provided it was not expired and its
    quota is not exhausted. *)
Theorem server_errors_sideline (self : Manager) (a sso msg field : string)
  (st now : Z) (ty : TokenType) (data : TokenData) :
  _extract_sso a = Some sso ->
  sso <> "" ->
  _find_token (token_data self) sso = Some (ty, data) ->
  st <> STATSIG_INVALID ->
  st < 400 \/ 500 <= st ->
  MAX_FAILURES - 1 <= get_failedCount data ->
  let self' := record_failure self a st msg now in
  let self'' := reset_failure self' a in
  exists data' data'',
    _find_token (token_data self') sso = Some (ty, data') /\
    status data' = status data /\
    keptb field data' = false /\
    _find_token (token_data self'') sso = Some (ty, data'') /\
    keptb field data''
    = negb (is_expired data) && negb (get_remaining data field =? 0).
Proof.
  intros He Hne Hf Hst Hrange Hcount. cbv zeta.
  assert (Ht : negb (Py.truthy sso) = false)
    by (destruct sso; [congruence|reflexivity]).
  assert (E1 : record_failure self a st msg now
               = _mark_dirty (store_record self ty sso (failed data st msg now))).
  { unfold record_failure. apply Z.eqb_neq in Hst. now rewrite Hst, He, Ht, Hf. }
  pose proof (find_token_store self sso ty data (failed data st msg now) Hf)
    as Hf'.
  assert (Hcnt : get_failedCount (failed data st msg now)
                 = get_failedCount data + 1) by reflexivity.
  assert (Hstatus : status (failed data st msg now) = status data).
  { cbn [status failed].
    replace ((400 <=? st) && (st <? 500)) with false; [reflexivity|].
    symmetry. apply andb_false_iff. destruct Hrange.
    - left. apply Z.leb_gt. lia.
    - right. apply Z.ltb_ge. lia. }
  assert (E2 : reset_failure (record_failure self a st msg now) a
               = _mark_dirty
                   (store_record (record_failure self a st msg now) ty sso
                      (cleared (failed data st msg now)))).
  { unfold reset_failure. rewrite He, Ht. rewrite E1 at 1.
    cbn [token_data _mark_dirty]. rewrite Hf'.
    replace (get_failedCount (failed data st msg now) >? 0) with true;
      [reflexivity|].
    symmetry. apply Z.gtb_lt. rewrite Hcnt. unfold MAX_FAILURES in Hcount.
    lia. }
  exists (failed data st msg now), (cleared (failed data st msg now)).
  split; [rewrite E1; exact Hf'|]. split; [exact Hstatus|]. split.
  - unfold keptb. rewrite Hcnt.
    replace (get_failedCount data + 1 <? MAX_FAILURES) with false.
    + now rewrite andb_false_r.
    + symmetry. apply Z.ltb_ge. lia.
  - split.
    + rewrite E2. cbn [token_data _mark_dirty].
      apply (find_token_store _ sso ty (failed data st msg now)).
      rewrite E1. exact Hf'.
    + unfold keptb, is_expired. cbn [status cleared]. rewrite Hstatus.
      replace (get_failedCount (cleared (failed data st msg now))) with 0
        by reflexivity.
      replace (get_remaining (cleared (failed data st msg now)) field)
        with (get_remaining data field) by reflexivity.
      cbn [Z.ltb Z.compare MAX_FAILURES]. now rewrite andb_true_r.
Qed.

Lemma server_errors_sideline_witness :
  let self := PoolProps.m0 (TokenExamples.rec_with "active" 2 7 7) in
  let self' := record_failure self PoolProps.auth_abc 502 "bad gateway" 9 in
  let self'' := reset_failure self' PoolProps.auth_abc in
  exists data' data'',
    _find_token (token_data self') "abc" = Some (NORMAL, data') /\
    status data' = status (TokenExamples.rec_with "active" 2 7 7) /\
    keptb "remainingQueries" data' = false /\
    _find_token (token_data self'') "abc" = Some (NORMAL, data'') /\
    keptb "remainingQueries" data''
    = negb (is_expired (TokenExamples.rec_with "active" 2 7 7))
      && negb (get_remaining (TokenExamples.rec_with "active" 2 7 7)
                 "remainingQueries" =? 0).
Proof.
  apply (server_errors_sideline _ PoolProps.auth_abc "abc" "bad gateway"
           "remainingQueries" 502 9 NORMAL
           (TokenExamples.rec_with "active" 2 7 7));
    first [reflexivity | discriminate | (right; lia) | (simpl; lia)
          | (vm_compute; discriminate)].
Defined.

(** X5. [update_limits] writes the quotas it is given and nothing else: an
    absent argument leaves its field, status and failure fields are kept,
    every other record is untouched, and an unknown key leaves the manager
    as it was, not even marked for saving. *)
Theorem update_limits_spec (self : Manager) (sso : string)
  (normal heavy : option Z) :
  let self' := update_limits self sso normal heavy in
  match _find_token (token_data self) sso with
  | None => self' = self
  | Some (ty, data) =>
      exists data',
        _find_token (token_data self') sso = Some (ty, data') /\
        remainingQueries data'
        = match normal with Some n => Some n | None => remainingQueries data end
        /\ heavyremainingQueries data'
           = match heavy with
             | Some n => Some n
             | None => heavyremainingQueries data
             end
        /\ status data' = status data
        /\ failedCount data' = failedCount data
        /\ lastFailureReason data' = lastFailureReason data
        /\ _save_pending self' = true
        /\ forall ty' k, k <> sso ->
             Dict.get (partition (token_data self') ty') k
             = Dict.get (partition (token_data self) ty') k
  end.
Proof.
  cbv zeta. pose proof (update_limits_cases self sso normal heavy) as Hc.
  destruct (_find_token (token_data self) sso) as [[ty data]|] eqn:Hf;
    [|exact Hc].
  rewrite Hc. exists (with_limits data normal heavy).
  cbn [token_data _mark_dirty _save_pending].
  split; [now apply find_token_store with (data := data)|].
  repeat (split; [reflexivity|]).
  intros ty' k Hk. now apply get_store_other.
Qed.

(** In a store with distinct keys, a key stored in one partition only whose
    standard quota [update_limits] has set to 0 is not the choice of a
    standard request on that store. *)
Lemma limits_zero_not_chosen (self : Manager) (sso model : string)
  (heavy : option Z) :
  String.eqb model "grok-4-heavy" = false ->
  NoDup (map fst (normal (token_data self))) ->
  NoDup (map fst (super (token_data self))) ->
  Dict.mem (normal (token_data self)) sso = false \/
  Dict.mem (super (token_data self)) sso = false ->
  select_token (token_data (update_limits self sso (Some 0) heavy)) model
  <> inr sso.
Proof.
  intros Hm Hn Hs Hone Hsel.
  destruct (SelectionProps.select_token_kept _ _ _ Hsel)
    as (ty & data & Hin & _ & _ & _ & Hrem).
  rewrite Hm in Hrem.
  pose proof (update_limits_cases self sso (Some 0) heavy) as Hc.
  destruct (_find_token (token_data self) sso) as [[ty0 d0]|] eqn:Hf.
  - rewrite Hc in Hin. cbn [token_data _mark_dirty] in Hin.
    pose proof (find_token_get _ _ _ _ Hf) as Hg.
    assert (Hnd : forall t, NoDup (map fst (partition (token_data self) t)))
      by (intros []; assumption).
    destruct (TokenType_eq_dec ty0 ty) as [->|Hne].
    + apply DictOps.get_unique in Hin;
        [|rewrite (keys_store self ty sso d0 _ ty Hg); apply Hnd].
      rewrite (find_token_get _ _ _ _
                 (find_token_store self sso ty d0
                    (with_limits d0 (Some 0) heavy) Hf)) in Hin.
      injection Hin as <-. apply Hrem. reflexivity.
    + rewrite store_other_partition in Hin by assumption.
      apply SsoProps.In_get_some in Hin.
      assert (M0 : Dict.mem (partition (token_data self) ty0) sso = true)
        by (unfold Dict.mem; now rewrite Hg).
      assert (M1 : Dict.mem (partition (token_data self) ty) sso = true).
      { unfold Dict.mem.
        destruct (Dict.get (partition (token_data self) ty) sso);
          [reflexivity|contradiction]. }
      destruct ty0, ty; simpl in M0, M1; try congruence;
        destruct Hone; congruence.
  - rewrite Hc in Hin. apply SsoProps.In_get_some in Hin.
    now rewrite (find_token_none _ _ Hf ty) in Hin.
Qed.

(** X6. A credential whose standard quota was reported as 0 is not handed
    out for a standard request once the report has reached the store
    selection reads: with a storage backend, where [select_token] does not
    reload, and in any mode after a round of the saver.  The key is stored
    in one partition only, the keys of a partition are distinct. *)
Theorem exhausted_not_selected (s : Durable.System) (sso model : string)
  (heavy : option Z) :
  let self := Durable.manager s in
  String.eqb model "grok-4-heavy" = false ->
  NoDup (map fst (normal (token_data self))) ->
  NoDup (map fst (super (token_data self))) ->
  Dict.mem (normal (token_data self)) sso = false \/
  Dict.mem (super (token_data self)) sso = false ->
  _find_token (token_data self) sso <> None ->
  let s1 := Durable.with_manager s (update_limits self sso (Some 0) heavy) in
  (Durable._storage s = true ->
   snd (Durable.select_token s1 model) <> inr sso) /\
  snd (Durable.select_token (Durable.batch_save s1) model) <> inr sso.
Proof.
  intros self Hm Hn Hs Hone Hfound s1.
  pose proof (limits_zero_not_chosen self sso model heavy Hm Hn Hs Hone)
    as Hcore.
  assert (Hp : _save_pending (Durable.manager s1) = true).
  { pose proof (update_limits_cases self sso (Some 0) heavy) as Hc.
    destruct (_find_token (token_data self) sso) as [[ty d]|];
      [|congruence].
    subst s1. cbn [Durable.manager Durable.with_manager]. now rewrite Hc. }
  split.
  - intros Est. unfold Durable.select_token. cbn [snd].
    rewrite Durable.reload_storage by exact Est. exact Hcore.
  - unfold Durable.select_token. cbn [snd].
    rewrite Durable.reload_saved by exact Hp. exact Hcore.
Qed.

Lemma exhausted_not_selected_witness :
  let s :=
    Durable.started false
      (Some {| normal := [("abc", fresh_record 0)];
               super := [("xyz", fresh_record 1)] |}) in
  let s1 :=
    Durable.with_manager s
      (update_limits (Durable.manager s) "abc" (Some 0) None) in
  snd (Durable.select_token (Durable.batch_save s1) "grok-3") <> inr "abc".
Proof.
  intros s s1. apply (exhausted_not_selected s "abc" "grok-3" None).
  - reflexivity.
  - simpl. constructor; [intros []|constructor].
  - simpl. constructor; [intros []|constructor].
  - right. reflexivity.
  - discriminate.
Defined.

(** Without a storage backend and before the saver has run, the selection
    reloads the file and hands the key out again. *)
Example exhausted_selected_before_save :
  let s :=
    Durable.started false
      (Some {| normal := [("abc", fresh_record 0)];
               super := [("xyz", fresh_record 1)] |}) in
  let s1 :=
    Durable.with_manager s
      (update_limits (Durable.manager s) "abc" (Some 0) None) in
  Token.select_token (token_data (Durable.manager s1)) "grok-3" = inr "xyz" /\
  snd (Durable.select_token s1 "grok-3") = inr "abc".
Proof. split; reflexivity. Qed.

Lemma delete_step_get (p : Dict.t TokenData) token k :
  Dict.get (if Dict.mem p token then DictOps.remove p token else p) k
  = if String.eqb k token then None else Dict.get p k.
Proof.
  unfold Dict.mem. destruct (String.eqb_spec k token) as [->|Hne].
  - destruct (Dict.get p token) eqn:E; [apply DictOps.get_remove_same|exact E].
  - destruct (Dict.get p token); [|reflexivity].
    apply DictOps.get_remove_other. congruence.
Qed.

Lemma delete_loop_get tokens : forall p k,
  Dict.get (delete_loop p tokens) k
  = if existsb (String.eqb k) tokens then None else Dict.get p k.
Proof.
  unfold delete_loop.
  induction tokens as [|t tokens IH]; intros p k; simpl; [reflexivity|].
  rewrite IH, delete_step_get.
  destruct (String.eqb k t); simpl; [|reflexivity].
  now destruct (existsb (String.eqb k) tokens).
Qed.

Lemma existsb_In k tokens : In k tokens <-> existsb (String.eqb k) tokens = true.
Proof.
  rewrite existsb_exists. split.
  - intros H. exists k. split; [assumption|apply String.eqb_refl].
  - intros (x & Hin & E). apply String.eqb_eq in E. now subst.
Qed.

Lemma delete_token_partition self tokens ty :
  partition (token_data (delete_token self tokens ty)) ty
  = delete_loop (partition (token_data self) ty) tokens.
Proof.
  unfold delete_token. destruct tokens; [reflexivity|].
  cbn [token_data _mark_dirty]. apply partition_set_same.
Qed.

Lemma delete_token_other self tokens ty ty' :
  ty <> ty' ->
  partition (token_data (delete_token self tokens ty)) ty'
  = partition (token_data self) ty'.
Proof.
  intros Hne. unfold delete_token. destruct tokens; [reflexivity|].
  cbn [token_data _mark_dirty]. now apply partition_set_other.
Qed.

(** X7. [delete_token] removes exactly the listed keys from the named
    partition: a listed key is absent afterwards, every other key keeps its
    record, the other partition is untouched; an empty list leaves the
    manager as it was, a non-empty one marks it for saving. *)
Theorem delete_token_spec (self : Manager) (tokens : list string)
  (ty : TokenType) :
  let self' := delete_token self tokens ty in
  (forall k, In k tokens ->
     Dict.get (partition (token_data self') ty) k = None) /\
  (forall k, ~ In k tokens ->
     Dict.get (partition (token_data self') ty) k
     = Dict.get (partition (token_data self) ty) k) /\
  (forall ty', ty' <> ty ->
     partition (token_data self') ty' = partition (token_data self) ty') /\
  (tokens = [] -> self' = self) /\
  (tokens <> [] -> _save_pending self' = true).
Proof.
  cbv zeta. split; [|split; [|split; [|split]]].
  - intros k Hin. rewrite delete_token_partition, delete_loop_get.
    apply existsb_In in Hin. now rewrite Hin.
  - intros k Hin. rewrite delete_token_partition, delete_loop_get.
    destruct (existsb (String.eqb k) tokens) eqn:E; [|reflexivity].
    apply existsb_In in E. contradiction.
  - intros ty' Hne. apply delete_token_other. congruence.
  - intros ->. reflexivity.
  - intros Hne. destruct tokens; [congruence|reflexivity].
Qed.

(** A deleted key is the choice on the store [delete_token] leaves only if
    the other partition holds it. *)
Lemma deleted_not_chosen (self : Manager) (tokens : list string)
  (ty : TokenType) (model k : string) :
  In k tokens ->
  select_token (token_data (delete_token self tokens ty)) model = inr k ->
  exists ty', ty' <> ty /\
    Dict.mem (partition (token_data self) ty') k = true.
Proof.
  intros Hk Hsel.
  destruct (SelectionProps.select_token_kept _ _ _ Hsel)
    as (ty1 & data & Hin & _).
  apply SsoProps.In_get_some in Hin.
  destruct (TokenType_eq_dec ty ty1) as [<-|Hne].
  - rewrite delete_token_partition, delete_loop_get in Hin.
    apply existsb_In in Hk. rewrite Hk in Hin. contradiction.
  - exists ty1. split; [congruence|].
    rewrite delete_token_other in Hin by assumption.
    unfold Dict.mem.
    destruct (Dict.get (partition (token_data self) ty1) k);
      [reflexivity|contradiction].
Qed.

(** X8. A deleted credential is handed out afterwards only if the other
    partition stores it too, once the deletion has reached the store
    selection reads: with a storage backend, where [select_token] does not
    reload, and in any mode after a round of the saver. *)
Theorem deleted_not_selected (s : Durable.System) (tokens : list string)
  (ty : TokenType) (model k : string) :
  let self := Durable.manager s in
  In k tokens ->
  let s1 := Durable.with_manager s (delete_token self tokens ty) in
  (Durable._storage s = true ->
   snd (Durable.select_token s1 model) = inr k ->
   exists ty', ty' <> ty /\
     Dict.mem (partition (token_data self) ty') k = true) /\
  (snd (Durable.select_token (Durable.batch_save s1) model) = inr k ->
   exists ty', ty' <> ty /\
     Dict.mem (partition (token_data self) ty') k = true).
Proof.
  intros self Hk s1.
  assert (Hp : _save_pending (Durable.manager s1) = true).
  { subst s1. cbn [Durable.manager Durable.with_manager].
    destruct tokens; [contradiction|reflexivity]. }
  split.
  - intros Est. unfold Durable.select_token. cbn [snd].
    rewrite Durable.reload_storage by exact Est.
    now apply deleted_not_chosen.
  - unfold Durable.select_token. cbn [snd].
    rewrite Durable.reload_saved by exact Hp.
    now apply deleted_not_chosen.
Qed.

Lemma deleted_not_selected_witness :
  let s :=
    Durable.started false
      (Some {| normal := [("abc", fresh_record 0)];
               super := [("abc", fresh_record 1)] |}) in
  exists ty', ty' <> NORMAL /\
    Dict.mem (partition (token_data (Durable.manager s)) ty') "abc" = true.
Proof.
  intros s.
  apply (deleted_not_selected s ["abc"] NORMAL "grok-3" "abc").
  - simpl. now left.
  - reflexivity.
Defined.

(** Without a storage backend and before the saver has run, the selection
    reloads the file and hands the deleted key out, though no partition in
    memory held it any more. *)
Example deleted_selected_before_save :
  let s :=
    Durable.started false
      (Some {| normal := [("abc", fresh_record 0)]; super := [] |}) in
  let s1 :=
    Durable.with_manager s (delete_token (Durable.manager s) ["abc"] NORMAL) in
  Token.select_token (token_data (Durable.manager s1)) "grok-3"
  = inl (NO_AVAILABLE_TOKEN "grok-3" 0 0) /\
  snd (Durable.select_token s1 "grok-3") = inr "abc".
Proof. split; reflexivity. Qed.

Lemma set_partition_back td ty p :
  set_partition (set_partition td ty p) ty (partition td ty) = td.
Proof. destruct td, ty; reflexivity. Qed.

(** X9. Adding a key that the partition does not hold and deleting it again
    gives back the store as it was; the manager is marked for saving. *)
Theorem add_then_delete (self : Manager) (k : string) (ty : TokenType)
  (clock : list Z) :
  Dict.get (partition (token_data self) ty) k = None ->
  let self' := delete_token (add_token self [k] ty clock) [k] ty in
  token_data self' = token_data self /\ _save_pending self' = true.
Proof.
  intros Hk. cbv zeta. split; [|reflexivity].
  unfold delete_token, add_token. cbn [token_data _mark_dirty].
  rewrite partition_set_same. cbn [add_loop].
  unfold delete_loop. cbn [fold_left].
  destruct (negb (Py.truthy k) || negb (Py.truthy (Py.strip k))).
  - unfold Dict.mem. rewrite Hk.
    destruct (token_data self), ty; reflexivity.
  - unfold Dict.mem. rewrite Dict.get_set_same.
    rewrite DictOps.remove_set_absent by assumption.
    apply set_partition_back.
Qed.

Lemma add_then_delete_witness :
  let self := PoolProps.m0 (fresh_record 0) in
  let self' := delete_token (add_token self ["new"] NORMAL [5]) ["new"] NORMAL in
  token_data self' = token_data self /\ _save_pending self' = true.
Proof. apply (add_then_delete _ "new" NORMAL [5]). reflexivity. Defined.

Lemma strip_truthy t : Py.truthy (Py.strip t) = true -> Py.truthy t = true.
Proof. destruct t; [discriminate|reflexivity]. Qed.

Lemma cleaned_tags_idem tags : cleaned_tags (cleaned_tags tags) = cleaned_tags tags.
Proof.
  unfold cleaned_tags. induction tags as [|t tags IH]; [reflexivity|].
  cbn [filter].
  destruct (Py.truthy t && Py.truthy (Py.strip t)) eqn:E; [|exact IH].
  apply andb_prop in E. destruct E as [_ E].
  cbn [map filter]. rewrite ProxyFacts.strip_idem, E. cbn [andb map].
  now rewrite ProxyFacts.strip_idem, IH.
Qed.

Lemma cleaned_tags_clean tags :
  Forall (fun t => t <> "" /\ Py.strip t = t) (cleaned_tags tags).
Proof.
  unfold cleaned_tags. induction tags as [|t tags IH]; [constructor|].
  cbn [filter].
  destruct (Py.truthy t && Py.truthy (Py.strip t)) eqn:E; [|exact IH].
  apply andb_prop in E. destruct E as [_ E].
  cbn [map]. constructor; [|exact IH]. split.
  - intros H. rewrite H in E. discriminate.
  - apply ProxyFacts.strip_idem.
Qed.

Lemma set_set {V} (p : Dict.t V) k v v' :
  Dict.set (Dict.set p k v) k v' = Dict.set p k v'.
Proof.
  induction p as [|[k0 v0] p IH]; simpl.
  - now rewrite String.eqb_refl.
  - destruct (String.eqb k k0) eqn:E; simpl; rewrite E; [reflexivity|].
    now rewrite IH.
Qed.

Lemma store_store self ty k d1 d2 :
  _mark_dirty (store_record (_mark_dirty (store_record self ty k d1)) ty k d2)
  = _mark_dirty (store_record self ty k d2).
Proof.
  unfold _mark_dirty, store_record. cbn [token_data _save_pending].
  rewrite partition_set_same, set_set.
  destruct (token_data self), ty; reflexivity.
Qed.

(** X10. [update_token_tags] looks in the named partition only and answers
    [TOKEN_NOT_FOUND], with the first ten characters of the key, when the
    key is not there.  Otherwise it replaces the tags of that record, and
    only them, by the non-blank ones among the given tags, each stripped:
    no stored tag is empty or has surrounding whitespace, and storing the
    stored tags again changes nothing. *)
Theorem update_token_tags_spec (self : Manager) (token : string)
  (ty : TokenType) (tgs : list string) :
  match Dict.get (partition (token_data self) ty) token with
  | None =>
      update_token_tags self token ty tgs
      = inl (TOKEN_NOT_FOUND (substring 0 10 token))
  | Some data =>
      exists self' data',
        update_token_tags self token ty tgs = inr self' /\
        Dict.get (partition (token_data self') ty) token = Some data' /\
        data' = with_tags data (tags data') /\
        Forall (fun t => t <> "" /\ Py.strip t = t) (tags data') /\
        (forall t, In t (tags data') <->
           exists t0, In t0 tgs /\ Py.strip t0 <> "" /\ t = Py.strip t0) /\
        update_token_tags self' token ty (tags data') = inr self'
  end.
Proof.
  unfold update_token_tags.
  destruct (Dict.get (partition (token_data self) ty) token) as [data|] eqn:Hg;
    [|reflexivity].
  eexists. exists (with_tags data (cleaned_tags tgs)).
  split; [reflexivity|].
  cbn [token_data _mark_dirty store_record].
  rewrite partition_set_same, Dict.get_set_same.
  split; [reflexivity|]. split; [reflexivity|].
  split; [apply cleaned_tags_clean|]. split.
  - intros t. cbn [tags with_tags]. unfold cleaned_tags.
    rewrite in_map_iff. split.
    + intros (t0 & <- & Hin). apply filter_In in Hin. destruct Hin as [Hin E].
      apply andb_prop in E. destruct E as [_ E].
      exists t0. split; [assumption|]. split; [|reflexivity].
      intros H. rewrite H in E. discriminate.
    + intros (t0 & Hin & Hne & ->). exists t0. split; [reflexivity|].
      apply filter_In. split; [assumption|].
      assert (E : Py.truthy (Py.strip t0) = true)
        by (destruct (Py.strip t0); [congruence|reflexivity]).
      now rewrite E, (strip_truthy _ E).
  - cbn [tags with_tags]. rewrite cleaned_tags_idem. f_equal.
    apply store_store.
Qed.

End PoolAdminProps.

(** ** The video affinity map: [register_video_token], [get_video_token],
    [_cleanup_video_map] *)

Module VideoMap.

(** One entry [{"token": ..., "timestamp": ...}]; the time is
    [int(time.time())], in seconds. *)
Record Entry := {
  token : string;
  timestamp : Z
}.

Definition _video_map_max_age : Z := 3600.

(** [_cleanup_video_map], with the clock it reads. *)
Definition _cleanup_video_map (m : Dict.t Entry) (current_time : Z)
  : Dict.t Entry :=
  filter
    (fun kv => negb (current_time - timestamp (snd kv) >? _video_map_max_age))
    m.

(** [register_video_token]: the clock is read once by the clean-up and once
    more for the stored entry. *)
Definition register_video_token (m : Dict.t Entry)
  (video_id auth_token : string) (t_cleanup now : Z) : Dict.t Entry :=
  Dict.set (_cleanup_video_map m t_cleanup) video_id
    {| token := auth_token; timestamp := now |}.

(** [get_video_token]: the answer and the map it leaves. *)
Definition get_video_token (m : Dict.t Entry) (video_id : string) (now : Z)
  : option string * Dict.t Entry :=
  match Dict.get m video_id with
  | Some entry =>
      if now - timestamp entry <? _video_map_max_age
      then (Some (token entry), m)
      else (None, DictOps.remove m video_id)
  | None => (None, m)
  end.

(** A later registration. *)
Record Registration := {
  reg_video_id : string;
  reg_auth_token : string;
  reg_t_cleanup : Z;
  reg_now : Z
}.

Definition register_all (m : Dict.t Entry) (rs : list Registration)
  : Dict.t Entry :=
  fold_left
    (fun m r =>
       register_video_token m (reg_video_id r) (reg_auth_token r)
         (reg_t_cleanup r) (reg_now r))
    rs m.

End VideoMap.

Module VideoMapProps.
Import VideoMap.

(** The clean-up keeps what is at most [_video_map_max_age] old. *)
Lemma cleanup_keeps m video_id e current_time :
  Dict.get m video_id = Some e ->
  current_time - timestamp e <= _video_map_max_age ->
  Dict.get (_cleanup_video_map m current_time) video_id = Some e.
Proof.
  intros Hg Hage. induction m as [|[k v] m IH]; simpl in *; [discriminate|].
  destruct (String.eqb video_id k) eqn:E.
  - injection Hg as ->.
    replace (current_time - timestamp e >? _video_map_max_age) with false
      by (symmetry; rewrite Z.gtb_ltb; apply Z.ltb_ge; lia).
    simpl. now rewrite E.
  - destruct (negb (current_time - timestamp v >? _video_map_max_age)); simpl;
      [rewrite E|]; auto.
Qed.

Lemma register_all_keeps rs : forall m video_id e,
  Dict.get m video_id = Some e ->
  Forall (fun r => reg_video_id r <> video_id /\
                   reg_t_cleanup r - timestamp e <= _video_map_max_age) rs ->
  Dict.get (register_all m rs) video_id = Some e.
Proof.
  induction rs as [|r rs IH]; intros m video_id e Hg Hrs; [exact Hg|].
  inversion Hrs as [|? ? [Hid Hage] Hrest]; subst.
  unfold register_all. cbn [fold_left]. apply IH; [|assumption].
  unfold register_video_token. rewrite Dict.get_set_other by assumption.
  now apply cleanup_keeps.
Qed.

(** X11. A registered video is served for less than an hour: while other
    videos are registered no later than 3600 seconds after it, a lookup less
    than 3600 seconds after the registration returns the registered cookie
    and leaves the map alone; a lookup 3600 seconds after it or later
    returns nothing and removes the entry. *)
Theorem video_token_ttl (m : Dict.t Entry) (video_id auth_token : string)
  (t_cleanup t0 t1 : Z) (rs : list Registration) :
  Forall (fun r => reg_video_id r <> video_id /\
                   reg_t_cleanup r - t0 <= _video_map_max_age) rs ->
  let m1 :=
    register_all (register_video_token m video_id auth_token t_cleanup t0) rs in
  (t1 - t0 < 3600 -> get_video_token m1 video_id t1 = (Some auth_token, m1)) /\
  (3600 <= t1 - t0 ->
   fst (get_video_token m1 video_id t1) = None /\
   Dict.get (snd (get_video_token m1 video_id t1)) video_id = None).
Proof.
  intros Hrs. cbv zeta.
  set (m0 := register_video_token m video_id auth_token t_cleanup t0).
  assert (Hg : Dict.get (register_all m0 rs) video_id
               = Some {| token := auth_token; timestamp := t0 |}).
  { apply register_all_keeps; [apply Dict.get_set_same|exact Hrs]. }
  unfold get_video_token. rewrite Hg. cbn [timestamp token]. split.
  - intros Hlt.
    replace (t1 - t0 <? _video_map_max_age) with true; [reflexivity|].
    symmetry. apply Z.ltb_lt. exact Hlt.
  - intros Hge.
    replace (t1 - t0 <? _video_map_max_age) with false.
    + split; [reflexivity|apply DictOps.get_remove_same].
    + symmetry. apply Z.ltb_ge. exact Hge.
Qed.

Lemma video_token_ttl_witness :
  let m1 :=
    register_all (register_video_token [] "v1" "sso=a" 100 100)
      [{| reg_video_id := "v2"; reg_auth_token := "sso=b";
          reg_t_cleanup := 3700; reg_now := 3700 |}] in
  (200 - 100 < 3600 -> get_video_token m1 "v1" 200 = (Some "sso=a", m1)) /\
  (3600 <= 200 - 100 ->
   fst (get_video_token m1 "v1" 200) = None /\
   Dict.get (snd (get_video_token m1 "v1" 200)) "v1" = None).
Proof.
  apply (video_token_ttl [] "v1" "sso=a" 100 100 200).
  constructor; [|constructor]. split; [discriminate|vm_compute; discriminate].
Defined.

(** At an age of exactly 3600 seconds the clean-up keeps an entry that the
    lookup no longer serves. *)
Example age_3600 :
  let m := register_video_token [] "v1" "sso=a" 0 0 in
  _cleanup_video_map m 3600 = m /\ fst (get_video_token m "v1" 3600) = None.
Proof. split; reflexivity. Qed.

End VideoMapProps.

(** ** Handing out proxies: [get_proxy], [get_current_proxy] *)

Module ProxyUse.
Import Proxy.

(** [not self._current_proxy or (now - self._last_fetch_time) >=
    self._fetch_interval] *)
Definition stale (self : ProxyPool) (now : Z) : bool :=
  negb (truthy_opt (_current_proxy self))
  || (now - _last_fetch_time self >=? _fetch_interval self).

(** [get_proxy]: [now] is the clock read before the check, [t_fetch] the one
    read by a successful fetch.  The check is made twice, the second time
    under the lock. *)
Definition get_proxy (self : ProxyPool) (r : fetched) (now t_fetch : Z)
  : ProxyPool * option string :=
  if negb (_enabled self) then (self, _static_proxy self)
  else
    let self' :=
      if stale self now
      then if stale self now then _fetch_proxy self r t_fetch else self
      else self in
    (self', _current_proxy self').

(** [get_current_proxy] *)
Definition get_current_proxy (self : ProxyPool) : option string :=
  if truthy_opt (_current_proxy self) then _current_proxy self
  else _static_proxy self.

(** The calls made on the pool. *)
Inductive op :=
| Configure (proxy_url proxy_pool_url : string) (proxy_pool_interval : Z)
| GetProxy (r : fetched) (now t_fetch : Z)
| ForceRefresh (r : fetched) (t_fetch : Z).

Definition step (self : ProxyPool) (o : op) : ProxyPool :=
  match o with
  | Configure u p i => configure self u p i
  | GetProxy r now t => fst (get_proxy self r now t)
  | ForceRefresh r t => fst (force_refresh self r t)
  end.

Definition run (ops : list op) : ProxyPool := fold_left step ops init.

End ProxyUse.

Module ProxyUseProps.
Import Proxy ProxyFacts ProxyUse.

(** An address in normal form, or none. *)
Definition normal_form (o : option string) : Prop :=
  forall p, o = Some p -> _normalize_proxy p = p.

Definition normalized (self : ProxyPool) : Prop :=
  normal_form (_current_proxy self) /\ normal_form (_static_proxy self).

Lemma normal_form_some p : normal_form (Some (_normalize_proxy p)).
Proof. intros q [= <-]. apply normalize_idem. Qed.

Lemma normal_form_none : normal_form None.
Proof. intros q. discriminate. Qed.

Ltac split_tests :=
  repeat (match goal with
          | |- context [Py.truthy ?x] => destruct (Py.truthy x) eqn:?
          | |- context [_looks_like_proxy_url ?x] =>
              destruct (_looks_like_proxy_url x) eqn:?
          end; simpl).

Lemma configure_normalized self u p i :
  normalized self -> normalized (configure self u p i).
Proof.
  intros [Hc Hs]. unfold normalized, configure. split_tests;
    (split; first [exact Hc | apply normal_form_some | apply normal_form_none]).
Qed.

Lemma fetch_normalized self r t :
  normalized self -> normalized (_fetch_proxy self r t).
Proof.
  intros [Hc Hs]. unfold _fetch_proxy.
  assert (Hf : normalized
    {| _pool_url := _pool_url self; _static_proxy := _static_proxy self;
       _current_proxy :=
         if negb (truthy_opt (_current_proxy self)) then _static_proxy self
         else _current_proxy self;
       _last_fetch_time := _last_fetch_time self;
       _fetch_interval := _fetch_interval self;
       _enabled := _enabled self |}).
  { split; simpl; [|exact Hs].
    now destruct (negb (truthy_opt (_current_proxy self))). }
  destruct r as [st text| |]; try exact Hf.
  destruct (Z.eq_dec st 200) as [->|Hne].
  - destruct (_validate_proxy (_normalize_proxy (Py.strip text))); [|exact Hf].
    split; simpl; [apply normal_form_some|exact Hs].
  - destruct st as [|q|q]; try exact Hf.
    repeat (destruct q as [q|q|]; try exact Hf). congruence.
Qed.

Lemma step_normalized self o : normalized self -> normalized (step self o).
Proof.
  intros H. destruct o as [u p i|r now t|r t]; simpl.
  - now apply configure_normalized.
  - unfold get_proxy. destruct (negb (_enabled self)); [exact H|].
    simpl. destruct (stale self now); [|exact H]. now apply fetch_normalized.
  - unfold force_refresh. destruct (negb (_enabled self)); [exact H|].
    simpl. now apply fetch_normalized.
Qed.

Lemma run_normalized_from ops : forall self,
  normalized self -> normalized (fold_left step ops self).
Proof.
  induction ops as [|o ops IH]; intros self H; [exact H|].
  simpl. apply IH. now apply step_normalized.
Qed.

(** An address in normal form does not begin with one of the three
    spellings that [_normalize_proxy] rewrites. *)
Lemma normal_form_scheme p :
  _normalize_proxy p = p ->
  Py.startswith p "socks5://" = false /\
  Py.startswith p "sock5://" = false /\
  Py.startswith p "sock5h://" = false.
Proof.
  intros H.
  repeat split;
    match goal with
    | |- Py.startswith p ?pre = false =>
        destruct (Py.startswith p pre) eqn:E; [exfalso|reflexivity];
        apply prefix_drop in E; rewrite E in H;
        set (t := Py.drop _ p) in *; clearbody t
    end.
  - rewrite (proj1 (proj2 (proj2 (ProxyProps.normalize_alias t)))) in H.
    discriminate.
  - rewrite (proj1 (ProxyProps.normalize_alias t)) in H. discriminate.
  - rewrite (proj1 (proj2 (ProxyProps.normalize_alias t))) in H.
    discriminate.
Qed.

(** X12. Whatever calls were made on the pool since it was created, the
    address it hands out next ([get_proxy], [force_refresh] or
    [get_current_proxy]) is in normal form when there is one: it never
    begins with [socks5://], [sock5://] or [sock5h://]. *)
Theorem handed_out_normalized (ops : list op) (r : fetched)
  (now t_fetch : Z) (p : string) :
  let self := run ops in
  snd (get_proxy self r now t_fetch) = Some p \/
  snd (force_refresh self r t_fetch) = Some p \/
  get_current_proxy self = Some p ->
  _normalize_proxy p = p /\
  Py.startswith p "socks5://" = false /\
  Py.startswith p "sock5://" = false /\
  Py.startswith p "sock5h://" = false.
Proof.
  cbv zeta. intros H.
  assert (Hn : normalized (run ops)).
  { apply run_normalized_from. split; apply normal_form_none. }
  assert (Hp : _normalize_proxy p = p).
  { destruct H as [H|[H|H]].
    - pose proof (step_normalized _ (GetProxy r now t_fetch) Hn) as [Hc Hs].
      simpl in Hc, Hs. unfold get_proxy in *.
      destruct (negb (_enabled (run ops))); simpl in *; auto.
    - pose proof (step_normalized _ (ForceRefresh r t_fetch) Hn) as [Hc Hs].
      simpl in Hc, Hs. unfold force_refresh in *.
      destruct (negb (_enabled (run ops))); simpl in *; auto.
    - unfold get_current_proxy in H. destruct Hn as [Hc Hs].
      destruct (truthy_opt (_current_proxy (run ops))); auto. }
  split; [exact Hp|]. now apply normal_form_scheme.
Qed.

Lemma handed_out_normalized_witness :
  _normalize_proxy "socks5h://10.0.0.7:1080" = "socks5h://10.0.0.7:1080" /\
  Py.startswith "socks5h://10.0.0.7:1080" "socks5://" = false /\
  Py.startswith "socks5h://10.0.0.7:1080" "sock5://" = false /\
  Py.startswith "socks5h://10.0.0.7:1080" "sock5h://" = false.
Proof.
  apply (handed_out_normalized
           [Configure "" "https://pool.example/next" 300]
           (Responded 200 " sock5://10.0.0.7:1080 ") 10 11).
  left. reflexivity.
Defined.

Lemma validate_truthy p : _validate_proxy p = true -> Py.truthy p = true.
Proof. unfold _validate_proxy. destruct (Py.truthy p); [reflexivity|discriminate]. Qed.

(** X13. An address fetched from the pool source is served from the cache:
    when a [get_proxy] call fetches a valid address, it returns that address
    in normal form, and every [get_proxy] call made less than
    [_fetch_interval] after the fetch returns the same address and leaves
    the pool as it is, whatever the source would answer. *)
Theorem fetched_proxy_is_cached (self : ProxyPool) (text : string)
  (now t_fetch now' : Z) :
  _enabled self = true ->
  stale self now = true ->
  _validate_proxy (_normalize_proxy (Py.strip text)) = true ->
  now' - t_fetch < _fetch_interval self ->
  let r := get_proxy self (Responded 200 text) now t_fetch in
  snd r = Some (_normalize_proxy (Py.strip text)) /\
  forall r' t', get_proxy (fst r) r' now' t' = r.
Proof.
  intros Hen Hst Hv Hlt. cbv zeta.
  set (p := _normalize_proxy (Py.strip text)) in *.
  set (self1 := {| _pool_url := _pool_url self;
                   _static_proxy := _static_proxy self;
                   _current_proxy := Some p;
                   _last_fetch_time := t_fetch;
                   _fetch_interval := _fetch_interval self;
                   _enabled := _enabled self |}).
  assert (E : get_proxy self (Responded 200 text) now t_fetch
              = (self1, Some p)).
  { unfold get_proxy. rewrite Hen, Hst. cbn [negb]. unfold _fetch_proxy.
    fold p. rewrite Hv. reflexivity. }
  rewrite E. cbn [fst snd]. split; [reflexivity|]. intros r' t'.
  unfold get_proxy, stale, self1.
  cbn [_enabled _current_proxy _last_fetch_time _fetch_interval truthy_opt].
  rewrite Hen, (validate_truthy _ Hv). cbn [negb orb].
  replace (now' - t_fetch >=? _fetch_interval self) with false; [reflexivity|].
  symmetry. rewrite Z.geb_leb. apply Z.leb_gt. exact Hlt.
Qed.

Lemma fetched_proxy_is_cached_witness :
  let self := configure init "" "https://pool.example/next" 300 in
  let r := get_proxy self (Responded 200 " sock5://10.0.0.7:1080 ") 1000 1001 in
  snd r = Some (_normalize_proxy (Py.strip " sock5://10.0.0.7:1080 ")) /\
  forall r' t', get_proxy (fst r) r' 1300 t' = r.
Proof.
  apply (fetched_proxy_is_cached
           (configure init "" "https://pool.example/next" 300)
           " sock5://10.0.0.7:1080 " 1000 1001 1300);
    first [reflexivity | (vm_compute; reflexivity)].
Defined.

(** A fetch that gives a valid address. *)
Definition fetch_ok (r : fetched) : bool :=
  match r with
  | Responded 200 text => _validate_proxy (_normalize_proxy (Py.strip text))
  | _ => false
  end.

Lemma fetch_failed self r t :
  fetch_ok r = false ->
  truthy_opt (_current_proxy self) = true ->
  _fetch_proxy self r t = self.
Proof.
  intros Hr Hc. unfold _fetch_proxy. rewrite Hc. cbn [negb].
  assert (E : {| _pool_url := _pool_url self;
                 _static_proxy := _static_proxy self;
                 _current_proxy := _current_proxy self;
                 _last_fetch_time := _last_fetch_time self;
                 _fetch_interval := _fetch_interval self;
                 _enabled := _enabled self |} = self) by now destruct self.
  rewrite E. destruct r as [st text| |]; try reflexivity.
  destruct st as [|q|q]; try reflexivity.
  repeat (destruct q as [q|q|]; try reflexivity).
  simpl in Hr. now rewrite Hr.
Qed.

(** X14. A refresh that fails keeps the address in use and does not advance
    the refresh clock: when the cached address has gone stale and the fetch
    gives no valid address (an error status, a timeout, an exception, or a
    body that is not a proxy address), [get_proxy] returns the previous
    address, leaves the pool unchanged, and every later call fetches
    again. *)
Theorem failed_refresh_keeps_proxy (self : ProxyPool) (r : fetched)
  (now t_fetch now' : Z) :
  _enabled self = true ->
  truthy_opt (_current_proxy self) = true ->
  stale self now = true ->
  fetch_ok r = false ->
  now <= now' ->
  get_proxy self r now t_fetch = (self, _current_proxy self) /\
  stale self now' = true.
Proof.
  intros Hen Hc Hst Hr Hle. split.
  - unfold get_proxy. rewrite Hen, Hst. cbn [negb].
    now rewrite (fetch_failed _ _ _ Hr Hc).
  - unfold stale in *. rewrite Hc in *. cbn [negb orb] in *.
    rewrite Z.geb_leb in *. apply Z.leb_le in Hst. apply Z.leb_le. lia.
Qed.

Lemma failed_refresh_keeps_proxy_witness :
  let self :=
    {| _pool_url := Some "https://pool.example/next";
       _static_proxy := None;
       _current_proxy := Some "http://10.0.0.7:8080";
       _last_fetch_time := 100; _fetch_interval := 300; _enabled := true |} in
  get_proxy self (Responded 200 "10.0.0.8:8080") 400 401
  = (self, _current_proxy self) /\
  stale self 402 = true.
Proof.
  apply (failed_refresh_keeps_proxy _ (Responded 200 "10.0.0.8:8080") 400 401 402);
    first [reflexivity | (vm_compute; discriminate)].
Defined.

End ProxyUseProps.

(** ** Further properties of the request executor *)

Module RequestFacts.
Import Client ClientFacts ClientRuns.

Definition is_post (e : event) : bool :=
  match e with Post _ _ _ => true | _ => false end.

Definition is_report (e : event) : bool :=
  match e with TaskRecordFailure _ _ => true | _ => false end.

Definition is_reset (e : event) : bool :=
  match e with TaskResetFailure => true | _ => false end.

Section Counting.
Variable env : Env.
Variable stream : bool.

Lemma no_post_filter l :
  (forall o j s, ~ In (Post o j s) l) -> filter is_post l = [].
Proof.
  induction l as [|e l IH]; intros H; [reflexivity|]. simpl.
  destruct e; simpl; try (apply IH; intros o j s Hin; apply (H o j s);
                          now right).
  exfalso. eapply H. now left.
Qed.

Lemma proxy_event_kind i :
  is_post (proxy_event env i) = false /\
  is_report (proxy_event env i) = false /\
  is_reset (proxy_event env i) = false.
Proof. unfold proxy_event. now destruct (_ && _). Qed.

(** A run of the inner loop that breaks out belongs to an outer attempt
    that has a successor. *)
Lemma attempt_break_outer o i l :
  attempt_log env stream o i l Break -> (o < MAX_OUTER_RETRY)%nat.
Proof.
  intros H. remember Break as x eqn:Ex.
  induction H as [i s rest x Hi Hg Hc|i r l x Hi Hen H4 Ha IH]; [|auto].
  subst x. inversion Hc; assumption.
Qed.

Lemma attempt_posts_bound o i l x :
  attempt_log env stream o i l x ->
  (List.length (filter is_post l) + i <= S max_403_retries)%nat /\
  (enabled env = false -> List.length (filter is_post l) = 1%nat).
Proof.
  unfold max_403_retries.
  induction 1 as [i s rest x Hi Hg Hc|i r l x Hi Hen H4 Ha [IHb IHd]];
    unfold max_403_retries in *.
  - destruct (closing_quiet _ _ _ _ _ _ Hc) as [Hnp _].
    cbn [filter]. rewrite (proj1 (proxy_event_kind i)). cbn [is_post filter].
    rewrite (no_post_filter _ Hnp). simpl. split; [lia|reflexivity].
  - cbn [filter]. rewrite (proj1 (proxy_event_kind i)). cbn [is_post filter].
    simpl. split; [lia|congruence].
Qed.

Lemma run_posts_bound os l out :
  run_log env stream os l out ->
  (List.length (filter is_post l)
   <= S max_403_retries * List.length os)%nat /\
  (enabled env = false ->
   List.length (filter is_post l) <= List.length os)%nat.
Proof.
  unfold max_403_retries.
  induction 1 as [|o os l out Ha|o os l l' out Ha Hr [IHb IHd]].
  - simpl. split; lia.
  - destruct (attempt_posts_bound _ _ _ _ Ha) as [Hb Hd].
    unfold max_403_retries in Hb. cbn [List.length]. split.
    + lia.
    + intros Hen. rewrite (Hd Hen). lia.
  - destruct (attempt_posts_bound _ _ _ _ Ha) as [Hb Hd].
    unfold max_403_retries in Hb.
    rewrite filter_app, length_app. cbn [List.length]. split.
    + lia.
    + intros Hen. rewrite (Hd Hen). specialize (IHd Hen). lia.
Qed.

(** The outer loop over attempts that end at [MAX_OUTER_RETRY] is left from
    inside an inner loop. *)
Lemma run_ends_inside os : forall l out,
  run_log env stream os l out ->
  os <> [] -> last os 0%nat = MAX_OUTER_RETRY ->
  exists o l0 l1, In o os /\ l = (l0 ++ l1)%list /\
                  attempt_log env stream o 0 l1 (Finished out).
Proof.
  induction os as [|o os IH]; intros l out H Hne Hlast; [congruence|].
  inversion H as [|? ? ? ? Ha|? ? l1 l2 ? Ha Hr]; subst.
  - exists o, [], l. split; [now left|]. split; [reflexivity|assumption].
  - destruct os as [|o' os].
    + simpl in Hlast. subst o. apply attempt_break_outer in Ha. lia.
    + destruct (IH _ _ Hr) as (o1 & l0 & l3 & Hin & -> & Ha1);
        [discriminate|exact Hlast|].
      exists o1, (l1 ++ l0)%list, l3. split; [now right|].
      split; [now rewrite app_assoc|assumption].
Qed.

(** The failure reports and the success notice among the events [l] of a
    run of the inner loop that ends in [x]: none when it breaks out; when it
    finishes, either no report, with a success notice if it returns, or the
    one report of the HTTP error it raises, and no success notice. *)
Definition reports_ok (l : list event) (x : InnerExit) : Prop :=
  match x with
  | Finished out =>
      (filter is_report l = [] /\
       (forall res, out = Returned res -> filter is_reset l <> [])) \/
      (exists r, filter is_report l
                 = [TaskRecordFailure (status_code r) (error_msg r)] /\
                 out = Raised (http_error r) /\
                 filter is_reset l = [])
  | _ => filter is_report l = [] /\ filter is_reset l = []
  end.

Lemma delivered_reports r :
  filter is_report (delivered_events env stream r) = [] /\
  (forall res, delivered env stream r = Returned res ->
               filter is_reset (delivered_events env stream r) <> []).
Proof.
  unfold delivered_events, delivered, deliver.
  destruct stream; [|destruct (process_normal env r)]; simpl;
    (split; [reflexivity|discriminate]).
Qed.

Lemma closing_reports o s rest x :
  closing env stream o s rest x -> reports_ok rest x.
Proof.
  intros Hc. destruct Hc; simpl.
  - split; reflexivity.
  - right. exists r. auto.
  - right. exists r. auto.
  - left. apply delivered_reports.
  - left. split; [reflexivity|discriminate].
  - left. split; [reflexivity|discriminate].
Qed.

Lemma attempt_reports o i l x :
  attempt_log env stream o i l x -> reports_ok l x.
Proof.
  induction 1 as [i s rest x Hi Hg Hc|i r l x Hi Hen H4 Ha IH].
  - apply closing_reports in Hc.
    destruct (proxy_event_kind i) as (_ & Hr & Hs).
    unfold reports_ok in *. cbn [filter]. rewrite Hr, Hs.
    cbn [is_report is_reset]. exact Hc.
  - destruct (proxy_event_kind i) as (_ & Hr & Hs).
    unfold reports_ok in *. cbn [filter]. rewrite Hr, Hs.
    cbn [is_report is_reset filter]. exact IH.
Qed.

Lemma run_reports os l out :
  run_log env stream os l out ->
  os <> [] -> last os 0%nat = MAX_OUTER_RETRY ->
  reports_ok l (Finished out).
Proof.
  induction 1 as [|o os l out Ha|o os l l' out Ha Hr IH]; intros Hne Hlast.
  - congruence.
  - now apply attempt_reports in Ha.
  - pose proof (attempt_break_outer _ _ _ Ha) as Ho.
    apply attempt_reports in Ha. destruct Ha as [Ha1 Ha2].
    destruct os as [|o' os]; [simpl in Hlast; lia|].
    specialize (IH ltac:(discriminate) Hlast).
    unfold reports_ok in *. rewrite !filter_app, Ha1, Ha2. exact IH.
Qed.

End Counting.
End RequestFacts.

Module RequestProps.
Import Client ClientFacts ClientRuns RequestFacts.

Lemma last_attempt : last (seq 0 (S MAX_OUTER_RETRY)) 0%nat = MAX_OUTER_RETRY.
Proof. reflexivity. Qed.

(** [_request] with its events and outcome, for any token. *)
Lemma request_cases env token stream :
  (token = "" /\
   _request env token stream
   = Some (Raised {| message := "Auth token missing";
                     error_code := "NO_AUTH_TOKEN"; status := None |}, start))
  \/
  (token <> "" /\
   exists out w,
     _request env token stream = Some (out, w) /\
     run_log env stream (seq 0 (S MAX_OUTER_RETRY)) (log w) out).
Proof.
  destruct token as [|c token].
  - left. split; reflexivity.
  - right. split; [discriminate|]. apply request_runs. discriminate.
Qed.

(** X15. [_request] always comes back, and one call sends at most 24
    requests: four outer attempts of at most six requests each.  Without a
    rotating pool it sends at most four. *)
Theorem request_bound (env : Env) (token : string) (stream : bool) :
  exists out w,
    _request env token stream = Some (out, w) /\
    (List.length (filter is_post (log w)) <= 24)%nat /\
    (enabled env = false ->
     (List.length (filter is_post (log w)) <= 4)%nat).
Proof.
  destruct (request_cases env token stream)
    as [[_ H]|[_ (out & w & H & Hr)]].
  - eexists. eexists. split; [exact H|]. simpl. split; [lia|intros _; lia].
  - exists out, w. split; [exact H|].
    destruct (run_posts_bound _ _ _ _ _ Hr) as [Hb Hd]. exact (conj Hb Hd).
Qed.

Lemma closing_raises env stream o s rest e :
  closing env stream o s rest (Finished (Raised e)) ->
  In (error_code e) ["HTTP_ERROR"; "NETWORK_ERROR"; "REQUEST_ERROR"] \/
  (stream = false /\ exists r, process_normal env r = inl e).
Proof.
  intros Hc. remember (Finished (Raised e)) as x eqn:Ex.
  destruct Hc as [r|r|r|r Hcode H200|t|t]; try discriminate;
    injection Ex as Ex; try (subst e; left; simpl; tauto).
  right. unfold delivered, deliver in Ex. destruct stream; [discriminate|].
  split; [reflexivity|]. exists r.
  destruct (process_normal env r); [|discriminate].
  simpl in Ex. now injection Ex as ->.
Qed.

Lemma attempt_raises env stream o i l x :
  attempt_log env stream o i l x ->
  forall e, x = Finished (Raised e) ->
  In (error_code e) ["HTTP_ERROR"; "NETWORK_ERROR"; "REQUEST_ERROR"] \/
  (stream = false /\ exists r, process_normal env r = inl e).
Proof.
  induction 1 as [i s rest x Hi Hg Hc|i r l x Hi Hen H4 Ha IH]; intros e ->.
  - eapply closing_raises; eauto.
  - now apply IH.
Qed.

(** X16. The errors [_request] raises: [NO_AUTH_TOKEN] for an empty token
    and nothing else then; otherwise an [HTTP_ERROR], a [NETWORK_ERROR], a
    [REQUEST_ERROR], or, when not streaming, the error [process_normal]
    raised for a response.  The [MAX_RETRIES_EXCEEDED] error after the
    loops is never reached. *)
Theorem request_errors (env : Env) (token : string) (stream : bool)
  (e : GrokApiException) (w : World) :
  _request env token stream = Some (Raised e, w) ->
  (token = "" /\ error_code e = "NO_AUTH_TOKEN" /\ log w = []) \/
  (token <> "" /\
   (In (error_code e) ["HTTP_ERROR"; "NETWORK_ERROR"; "REQUEST_ERROR"] \/
    (stream = false /\ exists r, process_normal env r = inl e))).
Proof.
  intros H.
  destruct (request_cases env token stream)
    as [[Ht H0]|[Ht (out & w0 & H0 & Hr)]]; rewrite H0 in H.
  - injection H as <- <-. left. auto.
  - injection H as -> ->. right. split; [assumption|].
    destruct (run_ends_inside _ _ _ _ _ Hr) as (o & l0 & l1 & _ & _ & Ha);
      [discriminate|apply last_attempt|].
    eapply attempt_raises; eauto.
Qed.

Lemma request_errors_witness :
  ("tok" = "" /\
   error_code (http_error ClientProps.r429) = "NO_AUTH_TOKEN" /\
   ClientProps.exhausted_log ClientProps.r429 ClientProps.r429
     ClientProps.r429 ClientProps.r429 = []) \/
  ("tok" <> "" /\
   (In (error_code (http_error ClientProps.r429))
       ["HTTP_ERROR"; "NETWORK_ERROR"; "REQUEST_ERROR"] \/
    (true = false /\
     exists r, process_normal ClientProps.env_exhausted r
               = inl (http_error ClientProps.r429)))).
Proof.
  apply (request_errors ClientProps.env_exhausted "tok" true
           (http_error ClientProps.r429)
           {| sent_count := 4;
              log := ClientProps.exhausted_log ClientProps.r429
                       ClientProps.r429 ClientProps.r429 ClientProps.r429 |}).
  reflexivity.
Defined.

(** X17. What a call tells the token manager: at most one failure report,
    and then the call raises the HTTP error of the reported response and
    sends no success notice; a call that returns has sent a success notice
    and no failure report. *)
Theorem request_reports (env : Env) (token : string) (stream : bool)
  (out : Outcome) (w : World) :
  _request env token stream = Some (out, w) ->
  (filter is_report (log w) = [] /\
   (forall res, out = Returned res -> filter is_reset (log w) <> [])) \/
  (exists r,
     filter is_report (log w)
     = [TaskRecordFailure (status_code r) (error_msg r)] /\
     out = Raised (http_error r) /\
     filter is_reset (log w) = []).
Proof.
  intros H.
  destruct (request_cases env token stream)
    as [[Ht H0]|[Ht (out0 & w0 & H0 & Hr)]]; rewrite H0 in H.
  - injection H as <- <-. left. split; [reflexivity|discriminate].
  - injection H as -> ->. apply (run_reports _ _ _ _ _ Hr); [discriminate|apply last_attempt].
Qed.

Lemma request_reports_witness :
  let l := ClientProps.exhausted_log ClientProps.r429 ClientProps.r429
             ClientProps.r429 ClientProps.r429 in
  let out := Raised (http_error ClientProps.r429) in
  (filter is_report l = [] /\
   (forall res, out = Returned res -> filter is_reset l <> [])) \/
  (exists r,
     filter is_report l = [TaskRecordFailure (status_code r) (error_msg r)] /\
     out = Raised (http_error r) /\
     filter is_reset l = []).
Proof.
  apply (request_reports ClientProps.env_exhausted "tok" true
           (Raised (http_error ClientProps.r429))
           {| sent_count := 4;
              log := ClientProps.exhausted_log ClientProps.r429
                       ClientProps.r429 ClientProps.r429 ClientProps.r429 |}).
  reflexivity.
Defined.

End RequestProps.

(** ** Around the request: [_retry], [_upload], [_extract_content] *)

Module Retry.
Import Client.

Definition MAX_RETRY : nat := 3.

(** The [GrokApiException] the [try] block of [_retry] catches: raised by
    [_request], or by [get_token], whose error has the code
    [NO_AVAILABLE_TOKEN] and a context without [status]. *)
Inductive Thrown :=
| FromRequest (e : GrokApiException)
| FromPool (e : Token.GrokApiException).

Definition error_code_of (t : Thrown) : string :=
  match t with
  | FromRequest e => error_code e
  | FromPool _ => "NO_AVAILABLE_TOKEN"
  end.

(** [e.context.get("status") if e.context else None] *)
Definition status_of (t : Thrown) : option Z :=
  match t with
  | FromRequest e => status e
  | FromPool _ => None
  end.

(** The surroundings of one pass of the loop: the token store [get_token]
    selects from, and the surroundings of the [_request] call. *)
Record Attempt := {
  store : Token.TokenStore;
  env : Env
}.

(** The observable steps of [_retry]: a [_request] call with the cookie it
    was given and its events, and the sleep between two passes.  The image
    uploads and the video session only shape the payload. *)
Inductive step :=
| Tried (i : nat) (token : string) (events : list event)
| Slept (ms : Z).

Inductive RetryOutcome :=
| Gave (r : Result)
| Threw (e : Thrown).

(** The [try] block of one pass. *)
Definition try_body (model : string) (stream : bool) (i : nat) (a : Attempt)
  : option ((Thrown + Result) * list step) :=
  match Token.get_token (store a) model with
  | inl e => Some (inl (FromPool e), [])
  | inr token =>
      match _request (env a) token stream with
      | None => None
      | Some (Returned r, w) => Some (inr r, [Tried i token (log w)])
      | Some (Raised e, w) =>
          Some (inl (FromRequest e), [Tried i token (log w)])
      end
  end.

(** [status not in retry_codes] *)
Definition status_in (st : option Z) (codes : list Z) : bool :=
  match st with
  | Some n => code_in n codes
  | None => false
  end.

(** The loop [for i in range(MAX_RETRY)] and the [raise] after it. *)
Fixpoint retry_loop (model : string) (stream : bool)
  (attempts : nat -> Attempt) (passes : list nat)
  (last_err : option Thrown)
  (steps : list step) : option (RetryOutcome * list step) :=
  match passes with
  | [] =>
      Some (Threw (match last_err with
                   | Some e => e
                   | None => FromRequest {| message := "Request failed";
                                            error_code := "REQUEST_ERROR";
                                            status := None |}
                   end), steps)
  | i :: rest =>
      match try_body model stream i (attempts i) with
      | None => None
      | Some (inr r, l) => Some (Gave r, (steps ++ l)%list)
      | Some (inl e, l) =>
          let steps := (steps ++ l)%list in
          if negb (existsb (String.eqb (error_code_of e))
                     ["HTTP_ERROR"; "NO_AVAILABLE_TOKEN"])
          then Some (Threw e, steps)
          else if negb (status_in (status_of e)
                          (retry_codes (env (attempts i))))
          then Some (Threw e, steps)
          else
            retry_loop model stream attempts rest (Some e)
              (if (i <? MAX_RETRY - 1)%nat
               then (steps ++ [Slept 500])%list else steps)
      end
  end.

(** [_retry] *)
Definition _retry (model : string) (stream : bool)
  (attempts : nat -> Attempt) : option (RetryOutcome * list step) :=
  retry_loop model stream attempts (seq 0 MAX_RETRY) None [].

(** What [ImageUploadManager.upload] gave for one image, as
    [asyncio.gather(..., return_exceptions=True)] collects it. *)
Inductive Uploaded :=
| UploadRaised
| UploadPair (fid furi : string)
| UploadOther.

(** The loop of [_upload] over [zip(urls, results)]. *)
Fixpoint collect (pairs : list (string * Uploaded))
  : list string * list string :=
  match pairs with
  | [] => ([], [])
  | (url, result) :: rest =>
      let '(ids, uris) := collect rest in
      match result with
      | UploadPair fid furi =>
          if Py.truthy fid then (fid :: ids, furi :: uris) else (ids, uris)
      | _ => (ids, uris)
      end
  end.

(** [_upload] *)
Definition _upload (urls : list string) (results : list Uploaded)
  : list string * list string :=
  match urls with
  | [] => ([], [])
  | _ => collect (combine urls results)
  end.

End Retry.

Module RetryProps.
Import Client ClientProps Retry.

Lemma cookie_not_empty td model c : Token.get_token td model = inr c -> c <> "".
Proof.
  unfold Token.get_token. destruct (Token.select_token td model);
    [discriminate|]. intros [= <-]. discriminate.
Qed.

(** X18. [_retry] goes round again only for an error that carries a
    status: an error without one ends the loop at once and is raised, with
    no sleep.  This holds for the pool's [NO_AVAILABLE_TOKEN], although its
    code is in the list of retryable codes, and for [NETWORK_ERROR] and
    [REQUEST_ERROR]. *)
Theorem retry_needs_status (model : string) (stream : bool)
  (attempts : nat -> Attempt) (i : nat) (rest : list nat)
  (last_err : option Thrown) (steps l : list step) (e : Thrown) :
  try_body model stream i (attempts i) = Some (inl e, l) ->
  status_of e = None ->
  retry_loop model stream attempts (i :: rest) last_err steps
  = Some (Threw e, (steps ++ l)%list) /\
  (forall pe, Token.get_token (store (attempts i)) model = inl pe ->
              e = FromPool pe /\ l = []).
Proof.
  intros Hb Hs. split.
  - cbn [retry_loop]. rewrite Hb, Hs. cbn [status_in negb].
    now destruct (negb (existsb _ _)).
  - intros pe Hp. unfold try_body in Hb. rewrite Hp in Hb.
    now injection Hb as <- <-.
Qed.

Lemma retry_needs_status_witness :
  let attempts := fun _ : nat =>
    {| store := {| Token.normal := []; Token.super := [] |};
       env := env_exhausted |} in
  retry_loop "grok-3" true attempts [0; 1; 2]%nat None []
  = Some (Threw (FromPool (Token.NO_AVAILABLE_TOKEN "grok-3" 0 0)), []) /\
  (forall pe, Token.get_token (store (attempts 0%nat)) "grok-3" = inl pe ->
              FromPool (Token.NO_AVAILABLE_TOKEN "grok-3" 0 0) = FromPool pe /\
              @nil step = []).
Proof.
  apply (retry_needs_status "grok-3" true
           (fun _ => {| store := {| Token.normal := []; Token.super := [] |};
                        env := env_exhausted |})
           0%nat [1; 2]%nat None [] []
           (FromPool (Token.NO_AVAILABLE_TOKEN "grok-3" 0 0)));
    reflexivity.
Defined.

(** The events of a [_request] call whose four outer attempts are all
    answered by [r]. *)
Definition worn_out (r : Response) : list event := exhausted_log r r r r.

Lemma try_body_worn_out model stream i a c r :
  Token.get_token (store a) model = inr c ->
  (forall n, upstream (env a) n = Answered r) ->
  outer_retryable (env a) r ->
  try_body model stream i a
  = Some (inl (FromRequest (http_error r)), [Tried i c (worn_out r)]).
Proof.
  intros Hc Hu Hr. unfold try_body. rewrite Hc.
  rewrite (exhausted_scenario (env a) c stream r r r r); auto.
  eapply cookie_not_empty; eauto.
Qed.

(** X19. A status that stays retryable wears out all the passes: when each
    of the three passes gets a cookie and has every request answered with a
    status that is retried by the outer loop, [_retry] makes three
    [_request] calls of four requests each, sleeps 0.5 s after the first
    and the second, and raises the HTTP error of the last answer. *)
Theorem retry_wears_out (model : string) (stream : bool)
  (attempts : nat -> Attempt) (c : nat -> string) (r : nat -> Response) :
  (forall i, (i < MAX_RETRY)%nat ->
     Token.get_token (store (attempts i)) model = inr (c i) /\
     (forall n, upstream (env (attempts i)) n = Answered (r i)) /\
     outer_retryable (env (attempts i)) (r i)) ->
  _retry model stream attempts
  = Some (Threw (FromRequest (http_error (r 2%nat))),
          [Tried 0 (c 0%nat) (worn_out (r 0%nat)); Slept 500;
           Tried 1 (c 1%nat) (worn_out (r 1%nat)); Slept 500;
           Tried 2 (c 2%nat) (worn_out (r 2%nat))]).
Proof.
  intros H.
  destruct (H 0%nat) as (C0 & U0 & R0); [unfold MAX_RETRY; lia|].
  destruct (H 1%nat) as (C1 & U1 & R1); [unfold MAX_RETRY; lia|].
  destruct (H 2%nat) as (C2 & U2 & R2); [unfold MAX_RETRY; lia|].
  unfold _retry. cbn [seq MAX_RETRY retry_loop].
  rewrite (try_body_worn_out _ _ _ _ _ _ C0 U0 R0).
  cbn [error_code_of status_of http_error error_code status existsb
       String.eqb Ascii.eqb Bool.eqb orb negb status_in app].
  rewrite (proj1 R0). cbn [negb Nat.ltb Nat.leb Nat.sub app].
  rewrite (try_body_worn_out _ _ _ _ _ _ C1 U1 R1).
  cbn [error_code_of status_of http_error error_code status existsb
       String.eqb Ascii.eqb Bool.eqb orb negb status_in app].
  rewrite (proj1 R1). cbn [negb Nat.ltb Nat.leb Nat.sub app].
  rewrite (try_body_worn_out _ _ _ _ _ _ C2 U2 R2).
  cbn [error_code_of status_of http_error error_code status existsb
       String.eqb Ascii.eqb Bool.eqb orb negb status_in app].
  rewrite (proj1 R2). cbn [negb Nat.ltb Nat.leb Nat.sub app].
  reflexivity.
Qed.

Lemma retry_wears_out_witness :
  let attempts := fun _ : nat =>
    {| store := {| Token.normal := [("abc", Token.fresh_record 0)];
                   Token.super := [] |};
       env := env_exhausted |} in
  _retry "grok-3" true attempts
  = Some (Threw (FromRequest (http_error r429)),
          [Tried 0 "sso-rw=abc;sso=abc" (worn_out r429); Slept 500;
           Tried 1 "sso-rw=abc;sso=abc" (worn_out r429); Slept 500;
           Tried 2 "sso-rw=abc;sso=abc" (worn_out r429)]).
Proof.
  apply (retry_wears_out "grok-3" true
           (fun _ => {| store := {| Token.normal :=
                                      [("abc", Token.fresh_record 0)];
                                    Token.super := [] |};
                        env := env_exhausted |})
           (fun _ => "sso-rw=abc;sso=abc") (fun _ => r429)).
  intros i _. split; [reflexivity|]. split; [reflexivity|].
  split; reflexivity.
Defined.

End RetryProps.

(** ** [_retry] on the token manager: the reload of each pass, the failure
    reports and the saver *)

Module RetryRun.
Import Client Retry.

(** What one pass of the loop meets besides the token manager: the
    surroundings of its [_request] call, the clock [record_failure] reads,
    and whether the saver has a round during the sleep after the pass.  The
    bookkeeping task of a failed [_request] call runs when [_retry] next
    suspends, at the start of that sleep; a round of the saver at another
    moment of the call writes the store the pass has just reloaded. *)
Record Pass := {
  pass_env : Env;
  pass_now : Z;
  saver_runs : bool
}.

(** The tasks [_request] created for the token manager, run in order.  The
    quota probe of a delivered call ([_update_limits]) is left out. *)
Definition run_tasks (token : string) (now : Z) (m : Token.Manager)
  (events : list event) : Token.Manager :=
  fold_left
    (fun m e =>
       match e with
       | TaskRecordFailure st msg => Token.record_failure m token st msg now
       | TaskResetFailure => Token.reset_failure m token
       | _ => m
       end) events m.

Definition book (now : Z) (m : Token.Manager) (steps : list step)
  : Token.Manager :=
  fold_left
    (fun m st =>
       match st with
       | Tried _ token events => run_tasks token now m events
       | Slept _ => m
       end) steps m.

(** The loop of [_retry] with the manager threaded through: [get_token]
    reloads the store at the start of each pass, the tasks of the pass are
    booked, and the saver may run during the sleep.  The result carries the
    manager as it stands once the tasks of the last pass have run. *)
Fixpoint retry_loop (model : string) (stream : bool) (pass : nat -> Pass)
  (passes : list nat) (s : Durable.System) (last_err : option Thrown)
  (steps : list step) : option (RetryOutcome * list step * Durable.System) :=
  match passes with
  | [] =>
      Some (Threw (match last_err with
                   | Some e => e
                   | None => FromRequest {| message := "Request failed";
                                            error_code := "REQUEST_ERROR";
                                            status := None |}
                   end), steps, s)
  | i :: rest =>
      let s1 := Durable.reload s in
      let a := {| store := Token.token_data (Durable.manager s1);
                  env := pass_env (pass i) |} in
      match try_body model stream i a with
      | None => None
      | Some (r, l) =>
          let s2 :=
            Durable.with_manager s1
              (book (pass_now (pass i)) (Durable.manager s1) l) in
          let steps := (steps ++ l)%list in
          match r with
          | inr res => Some (Gave res, steps, s2)
          | inl e =>
              if negb (existsb (String.eqb (error_code_of e))
                         ["HTTP_ERROR"; "NO_AVAILABLE_TOKEN"])
              then Some (Threw e, steps, s2)
              else if negb (status_in (status_of e) (retry_codes (env a)))
              then Some (Threw e, steps, s2)
              else
                let sleeps := (i <? MAX_RETRY - 1)%nat in
                retry_loop model stream pass rest
                  (if sleeps && saver_runs (pass i)
                   then Durable.batch_save s2 else s2)
                  (Some e)
                  (if sleeps then (steps ++ [Slept 500])%list else steps)
          end
      end
  end.

(** [_retry] *)
Definition _retry (model : string) (stream : bool) (pass : nat -> Pass)
  (s : Durable.System)
  : option (RetryOutcome * list step * Durable.System) :=
  retry_loop model stream pass (seq 0 MAX_RETRY) s None [].

End RetryRun.

Module RetryRunProps.
Import Token TokenFacts Client ClientProps Retry RetryProps RetryRun.

(** Two records that [select_best] treats alike. *)
Definition same_for_selection (d d' : TokenData) : Prop :=
  is_expired d' = is_expired d /\
  (get_failedCount d' >=? MAX_FAILURES) = (get_failedCount d >=? MAX_FAILURES) /\
  forall field, get_remaining d' field = get_remaining d field.

Lemma select_step_same field acc k d d' :
  same_for_selection d d' ->
  select_step field acc (k, d') = select_step field acc (k, d).
Proof.
  intros (He & Hc & Hr). unfold select_step. destruct acc as [unused used].
  now rewrite He, Hc, Hr.
Qed.

Lemma fold_select_set field k d d' : forall p acc,
  Dict.get p k = Some d ->
  same_for_selection d d' ->
  fold_left (select_step field) (Dict.set p k d') acc
  = fold_left (select_step field) p acc.
Proof.
  induction p as [|[k0 d0] p IH]; intros acc Hg Hs; simpl in *; [discriminate|].
  destruct (String.eqb k k0) eqn:E.
  - injection Hg as ->. simpl. now rewrite (select_step_same _ _ _ _ _ Hs).
  - simpl. now apply IH.
Qed.

Lemma length_set {V} (p : Dict.t V) k v d :
  Dict.get p k = Some d -> List.length (Dict.set p k v) = List.length p.
Proof.
  induction p as [|[k0 d0] p IH]; simpl; [discriminate|].
  destruct (String.eqb k k0); simpl; [reflexivity|]. intros H. now rewrite IH.
Qed.

(** Replacing a record by one that selection treats alike leaves the
    choice as it was. *)
Lemma select_token_store self ty k d d' model :
  Dict.get (partition (token_data self) ty) k = Some d ->
  same_for_selection d d' ->
  select_token (token_data (store_record self ty k d')) model
  = select_token (token_data self) model.
Proof.
  intros Hg Hs. unfold select_token, select_best, store_record.
  destruct ty; cbn [token_data partition set_partition normal super] in *;
    rewrite ?(fold_select_set _ _ _ _ _ _ Hg Hs), ?(length_set _ _ _ _ Hg);
    reflexivity.
Qed.

Lemma failed_same data st msg now :
  get_failedCount data + 1 < MAX_FAILURES ->
  0 <= get_failedCount data ->
  same_for_selection data (failed data st msg now) /\
  Token.status (failed data st msg now) = Token.status data.
Proof.
  intros Hlt H0.
  assert (Eg : (get_failedCount data + 1 >=? MAX_FAILURES) = false).
  { rewrite Z.geb_leb. apply Z.leb_gt. exact Hlt. }
  assert (Es : Token.status (failed data st msg now) = Token.status data).
  { cbn [failed Token.status]. rewrite Eg. now rewrite andb_false_r. }
  split; [|exact Es]. split; [|split].
  - unfold is_expired. now rewrite Es.
  - change (get_failedCount (failed data st msg now))
      with (get_failedCount data + 1).
    rewrite Eg. symmetry. rewrite Z.geb_leb. apply Z.leb_gt. lia.
  - intros field. reflexivity.
Qed.

(** The failure report of a worn out [_request] call, booked. *)
Lemma book_worn_out now m i k r ty data :
  Py.contains ";" k = false ->
  Py.contains "sso=" k = false ->
  k <> "" ->
  status_code r <> STATSIG_INVALID ->
  _find_token (token_data m) k = Some (ty, data) ->
  book now m [Tried i (Durable.cookie k) (worn_out r)]
  = _mark_dirty
      (store_record m ty k (failed data (status_code r) (error_msg r) now)).
Proof.
  intros Hsemi Hsso Hk Hst Hf.
  cbn [book run_tasks worn_out exhausted_log fold_left].
  unfold record_failure. apply Z.eqb_neq in Hst. rewrite Hst.
  unfold Durable.cookie. rewrite SsoProps.extract_sso_cookie by assumption.
  assert (Ht : negb (Py.truthy k) = false)
    by (destruct k; [congruence|reflexivity]).
  now rewrite Ht, Hf.
Qed.

(** One pass whose requests are all answered [r], a status the outer loop
    retries: the loop goes on with the failure booked on the record
    [_find_token] resolves. *)
Lemma pass_worn_out model stream pass i rest s last_err steps k r ty data :
  let s1 := Durable.reload s in
  select_token (token_data (Durable.manager s1)) model = inr k ->
  Py.contains ";" k = false ->
  Py.contains "sso=" k = false ->
  k <> "" ->
  (forall n, upstream (pass_env (pass i)) n = Answered r) ->
  outer_retryable (pass_env (pass i)) r ->
  status_code r <> STATSIG_INVALID ->
  _find_token (token_data (Durable.manager s1)) k = Some (ty, data) ->
  let s2 :=
    Durable.with_manager s1
      (_mark_dirty
         (store_record (Durable.manager s1) ty k
            (failed data (status_code r) (error_msg r)
               (pass_now (pass i))))) in
  let sleeps := (i <? MAX_RETRY - 1)%nat in
  RetryRun.retry_loop model stream pass (i :: rest) s last_err steps
  = RetryRun.retry_loop model stream pass rest
      (if sleeps && saver_runs (pass i) then Durable.batch_save s2 else s2)
      (Some (FromRequest (http_error r)))
      (if sleeps
       then (steps ++ [Tried i (Durable.cookie k) (worn_out r); Slept 500])%list
       else (steps ++ [Tried i (Durable.cookie k) (worn_out r)])%list).
Proof.
  intros s1 Hsel Hsemi Hsso Hk Hu Hr Hst Hf s2 sleeps.
  cbn [RetryRun.retry_loop]. fold s1.
  rewrite (try_body_worn_out model stream i _ (Durable.cookie k) r);
    [| cbn [store]; rewrite Durable.get_token_cookie, Hsel; reflexivity
     | exact Hu | exact Hr].
  rewrite (book_worn_out _ _ _ _ _ ty data) by assumption.
  fold s2.
  cbn [error_code_of status_of http_error error_code status existsb
       String.eqb Ascii.eqb Bool.eqb orb negb status_in env].
  rewrite (proj1 Hr). cbn [negb]. fold sleeps.
  destruct sleeps; [|reflexivity].
  now rewrite <- app_assoc.
Qed.

(** The store the next pass reloads is the one the pass left, when a
    storage backend is set or the saver has run. *)
Lemma reload_after_pass s2 (sleeps saver : bool) :
  _save_pending (Durable.manager s2) = true ->
  Durable._storage s2 = true \/ sleeps && saver = true ->
  token_data (Durable.manager
    (Durable.reload (if sleeps && saver then Durable.batch_save s2 else s2)))
  = token_data (Durable.manager s2).
Proof.
  intros Hp [Hs|Hs].
  - destruct (sleeps && saver).
    + now apply Durable.reload_saved.
    + now rewrite Durable.reload_storage.
  - rewrite Hs. now apply Durable.reload_saved.
Qed.

Lemma storage_reload s :
  Durable._storage (Durable.reload s) = Durable._storage s.
Proof. reflexivity. Qed.

Lemma storage_batch_save s :
  Durable._storage (Durable.batch_save s) = Durable._storage s.
Proof.
  unfold Durable.batch_save. now destruct (_save_pending (Durable.manager s)).
Qed.

(** What the next pass finds when the booked failure has reached the store
    it reloads. *)
Lemma next_pass_kept model s1 k ty d st msg now (sleeps saver : bool) :
  let td := token_data (Durable.manager s1) in
  select_token td model = inr k ->
  _find_token td k = Some (ty, d) ->
  get_failedCount d + 1 < MAX_FAILURES ->
  0 <= get_failedCount d ->
  let s2 :=
    Durable.with_manager s1
      (_mark_dirty
         (store_record (Durable.manager s1) ty k (failed d st msg now))) in
  let sA := if sleeps && saver then Durable.batch_save s2 else s2 in
  Durable._storage s1 = true \/ sleeps && saver = true ->
  let tdn := token_data (Durable.manager (Durable.reload sA)) in
  select_token tdn model = inr k /\
  _find_token tdn k = Some (ty, failed d st msg now) /\
  Durable._storage (Durable.reload sA) = Durable._storage s1.
Proof.
  intros td Hsel Hf Hlt H0 s2 sA Hmode tdn.
  assert (Etd : tdn = token_data (Durable.manager s2)).
  { subst tdn sA. apply reload_after_pass; [reflexivity|exact Hmode]. }
  rewrite Etd. subst s2. cbn [Durable.manager Durable.with_manager
                                token_data _mark_dirty].
  split; [|split].
  - rewrite (select_token_store _ ty k d); [exact Hsel| |].
    + now apply Pool.find_token_get.
    + now apply failed_same.
  - now apply PoolAdminFacts.find_token_store with (data := d).
  - rewrite storage_reload. subst sA.
    destruct (sleeps && saver); [rewrite storage_batch_save|]; reflexivity.
Qed.

(** Without a storage backend the reload gives the content of the file,
    whatever the memory holds. *)
Lemma reload_file s m f :
  Durable._storage s = false ->
  Durable.token_file s = Some f ->
  token_data (Durable.manager (Durable.reload (Durable.with_manager s m))) = f.
Proof.
  intros Hs Hf. unfold Durable.reload, _reload_if_needed.
  cbn [Durable.manager Durable.with_manager Durable._storage
       Durable.token_file token_data].
  now rewrite Hs, Hf.
Qed.

(** X20. One call can use up a credential, when its failure reports reach
    the store the next pass reloads.  [get_token] gives the cookie of a key
    whose record, the one [_find_token] resolves, has no failure, and every
    request of the three passes is answered with a retryable status between
    400 and 499 other than 403.  With a storage backend, or when the saver
    has a round during each of the two sleeps, every pass is given the same
    cookie and the record ends expired with three failures.  Without a
    storage backend and without those rounds of the saver, every pass
    reloads the file, and the record ends with one failure and its status as
    it was. *)
Theorem one_call_expires (model : string) (stream : bool) (pass : nat -> Pass)
  (s : Durable.System) (k : string) (r : nat -> Response)
  (ty : TokenType) (data : TokenData) :
  let td := token_data (Durable.manager (Durable.reload s)) in
  (forall i, (i < MAX_RETRY)%nat ->
     (forall n, upstream (pass_env (pass i)) n = Answered (r i)) /\
     outer_retryable (pass_env (pass i)) (r i) /\
     400 <= status_code (r i) < 500 /\
     status_code (r i) <> STATSIG_INVALID) ->
  select_token td model = inr k ->
  Py.contains ";" k = false ->
  Py.contains "sso=" k = false ->
  k <> "" ->
  _find_token td k = Some (ty, data) ->
  get_failedCount data = 0 ->
  let out := Threw (FromRequest (http_error (r 2%nat))) in
  let steps :=
    [Tried 0 (Durable.cookie k) (worn_out (r 0%nat)); Slept 500;
     Tried 1 (Durable.cookie k) (worn_out (r 1%nat)); Slept 500;
     Tried 2 (Durable.cookie k) (worn_out (r 2%nat))] in
  (Durable._storage s = true \/
   (saver_runs (pass 0%nat) = true /\ saver_runs (pass 1%nat) = true) ->
   exists s' data',
     RetryRun._retry model stream pass s = Some (out, steps, s') /\
     _find_token (token_data (Durable.manager s')) k = Some (ty, data') /\
     Token.status data' = Some "expired" /\
     get_failedCount data' = 3) /\
  (Durable._storage s = false ->
   Durable.token_file s <> None ->
   saver_runs (pass 0%nat) = false ->
   saver_runs (pass 1%nat) = false ->
   exists s' data',
     RetryRun._retry model stream pass s = Some (out, steps, s') /\
     _find_token (token_data (Durable.manager s')) k = Some (ty, data') /\
     Token.status data' = Token.status data /\
     get_failedCount data' = 1).
Proof.
  intros td H Hsel Hsemi Hsso Hk Hf Hc out steps.
  destruct (H 0%nat) as (U0 & R0 & S0 & N0); [unfold MAX_RETRY; lia|].
  destruct (H 1%nat) as (U1 & R1 & S1 & N1); [unfold MAX_RETRY; lia|].
  destruct (H 2%nat) as (U2 & R2 & S2 & N2); [unfold MAX_RETRY; lia|].
  unfold RetryRun._retry. cbn [seq MAX_RETRY].
  rewrite (pass_worn_out model stream pass 0 _ s None [] k (r 0%nat) ty data)
    by assumption.
  cbn [Nat.ltb Nat.leb Nat.sub MAX_RETRY app andb].
  split.
  - intros Hmode.
    set (d1 := failed data (status_code (r 0%nat)) (error_msg (r 0%nat))
                 (pass_now (pass 0%nat))).
    destruct (next_pass_kept model (Durable.reload s) k ty data
                (status_code (r 0%nat)) (error_msg (r 0%nat))
                (pass_now (pass 0%nat)) true (saver_runs (pass 0%nat)))
      as (Hsel1 & Hf1 & Hst1); try assumption.
    { unfold MAX_FAILURES. lia. }
    { lia. }
    { rewrite storage_reload. destruct Hmode as [Hm|[Hm _]]; [now left|].
      right. now rewrite Hm. }
    cbn [andb] in Hsel1, Hf1, Hst1. fold d1 in Hsel1, Hf1, Hst1 |- *.
    rewrite (pass_worn_out model stream pass 1 _ _ _ _ k (r 1%nat) ty d1)
      by assumption.
    cbn [Nat.ltb Nat.leb Nat.sub MAX_RETRY app andb].
    set (d2 := failed d1 (status_code (r 1%nat)) (error_msg (r 1%nat))
                 (pass_now (pass 1%nat))).
    match type of Hsel1 with
    | select_token (token_data (Durable.manager (Durable.reload ?x))) _ = _ =>
        set (sA := x) in *
    end.
    destruct (next_pass_kept model (Durable.reload sA) k ty d1
                (status_code (r 1%nat)) (error_msg (r 1%nat))
                (pass_now (pass 1%nat)) true (saver_runs (pass 1%nat)))
      as (Hsel2 & Hf2 & Hst2); try assumption.
    { change (get_failedCount d1) with (get_failedCount data + 1).
      unfold MAX_FAILURES. lia. }
    { change (get_failedCount d1) with (get_failedCount data + 1). lia. }
    { rewrite Hst1, storage_reload.
      destruct Hmode as [Hm|[_ Hm]]; [now left|]. right. now rewrite Hm. }
    cbn [andb] in Hsel2, Hf2, Hst2. fold d2 in Hsel2, Hf2, Hst2 |- *.
    rewrite (pass_worn_out model stream pass 2 _ _ _ _ k (r 2%nat) ty d2)
      by assumption.
    cbn [Nat.ltb Nat.leb Nat.sub MAX_RETRY app andb RetryRun.retry_loop].
    eexists. eexists. split; [reflexivity|].
    cbn [Durable.manager Durable.with_manager token_data _mark_dirty].
    split; [now apply PoolAdminFacts.find_token_store with (data := d2)|].
    assert (E3 : get_failedCount d2 + 1 = 3).
    { change (get_failedCount d2) with (get_failedCount data + 1 + 1). lia. }
    split.
    + cbn [failed Token.status]. rewrite E3.
      replace ((400 <=? status_code (r 2%nat))
               && (status_code (r 2%nat) <? 500)) with true; [reflexivity|].
      symmetry. apply andb_true_intro. split.
      * apply Z.leb_le. lia.
      * apply Z.ltb_lt. lia.
    + exact E3.
  - intros Hs Hfile Hs0 Hs1. rewrite Hs0. cbn [andb].
    destruct (Durable.token_file s) as [f|] eqn:Ef; [|congruence].
    assert (Etd : td = f).
    { subst td. unfold Durable.reload, _reload_if_needed.
      cbn [Durable.manager Durable.with_manager token_data].
      now rewrite Hs, Ef. }
    rewrite Etd in Hsel, Hf.
    match goal with
    | |- context [RetryRun.retry_loop _ _ _ _ (Durable.with_manager ?x ?m)] =>
        set (s1 := Durable.with_manager x m)
    end.
    assert (E1 : token_data (Durable.manager (Durable.reload s1)) = f)
      by (apply reload_file; assumption).
    rewrite (pass_worn_out model stream pass 1 _ s1 _ _ k (r 1%nat) ty data);
      try assumption; try (rewrite E1; assumption).
    cbn [Nat.ltb Nat.leb Nat.sub MAX_RETRY app andb]. rewrite Hs1. cbn [andb].
    match goal with
    | |- context [RetryRun.retry_loop _ _ _ _ (Durable.with_manager ?x ?m)] =>
        set (s2 := Durable.with_manager x m)
    end.
    assert (E2 : token_data (Durable.manager (Durable.reload s2)) = f)
      by (apply reload_file; assumption).
    rewrite (pass_worn_out model stream pass 2 _ s2 _ _ k (r 2%nat) ty data);
      try assumption; try (rewrite E2; assumption).
    cbn [Nat.ltb Nat.leb Nat.sub MAX_RETRY app andb RetryRun.retry_loop].
    eexists. eexists. split; [reflexivity|].
    cbn [Durable.manager Durable.with_manager token_data _mark_dirty].
    split; [apply PoolAdminFacts.find_token_store with (data := data);
            rewrite E2; exact Hf|].
    split.
    + apply failed_same; [unfold MAX_FAILURES|]; lia.
    + change (get_failedCount data + 1 = 1). lia.
Qed.

Definition worn_pass (saver : bool) (i : nat) : Pass :=
  {| pass_env := env_exhausted;
     pass_now := 1700000000000 + Z.of_nat i;
     saver_runs := saver |}.

Lemma one_call_expires_witness :
  let s :=
    Durable.started false
      (Some (token_data (PoolProps.m0 (fresh_record 0)))) in
  exists s' data',
    RetryRun._retry "grok-3" true (worn_pass true) s
    = Some (Threw (FromRequest (http_error r429)),
            [Tried 0 "sso-rw=abc;sso=abc" (worn_out r429); Slept 500;
             Tried 1 "sso-rw=abc;sso=abc" (worn_out r429); Slept 500;
             Tried 2 "sso-rw=abc;sso=abc" (worn_out r429)], s') /\
    _find_token (token_data (Durable.manager s')) "abc"
    = Some (NORMAL, data') /\
    Token.status data' = Some "expired" /\
    get_failedCount data' = 3.
Proof.
  intros s.
  destruct (one_call_expires "grok-3" true (worn_pass true) s "abc"
              (fun _ => r429) NORMAL (fresh_record 0)) as [Ha _].
  - intros i _. split; [reflexivity|]. split; [split; reflexivity|].
    split; [unfold r429; simpl; lia|discriminate].
  - reflexivity.
  - reflexivity.
  - reflexivity.
  - discriminate.
  - reflexivity.
  - reflexivity.
  - apply Ha. right. split; reflexivity.
Defined.

(** The same call without a round of the saver during the sleeps: the
    record ends active with one failure, in memory; the file holds none. *)
Example one_call_counts_once :
  let s :=
    Durable.started false
      (Some (token_data (PoolProps.m0 (fresh_record 0)))) in
  match RetryRun._retry "grok-3" true (worn_pass false) s with
  | Some (_, _, s') =>
      PoolProps.in_memory s' "abc" = Some (Some "active", Some 1) /\
      PoolProps.in_file s' "abc" = Some (Some "active", Some 0)
  | None => False
  end.
Proof. vm_compute. split; reflexivity. Qed.

End RetryRunProps.

Module Content.
Import Processer.

(** [v == s] for a string literal [s]. *)
Definition is_str (v : json) (s : string) : bool :=
  match v with
  | JStr t => String.eqb t s
  | _ => false
  end.

(** The loop over the items of a list content. *)
Fixpoint item_loop (items texts images : list json)
  : exn + (list json * list json) :=
  match items with
  | [] => inr (texts, images)
  | item :: rest =>
      match get item "type" JNull with
      | inl e => inl e
      | inr ty =>
          if is_str ty "text"
          then match get item "text" (JStr "") with
               | inl e => inl e
               | inr t => item_loop rest (texts ++ [t])%list images
               end
          else if is_str ty "image_url"
          then match get item "image_url" (JDict []) with
               | inl e => inl e
               | inr iu =>
                   match get iu "url" JNull with
                   | inl e => inl e
                   | inr url =>
                       if truthy url
                       then item_loop rest texts (images ++ [url])%list
                       else item_loop rest texts images
                   end
               end
          else item_loop rest texts images
      end
  end.

(** The loop over the messages. *)
Fixpoint msg_loop (messages texts images : list json)
  : exn + (list json * list json) :=
  match messages with
  | [] => inr (texts, images)
  | msg :: rest =>
      match get msg "content" (JStr "") with
      | inl e => inl e
      | inr (JList items) =>
          match item_loop items texts images with
          | inl e => inl e
          | inr (texts, images) => msg_loop rest texts images
          end
      | inr content => msg_loop rest (texts ++ [content])%list images
      end
  end.

(** [[""].join(texts)]: every item has to be a string. *)
Fixpoint join (texts : list json) : exn + string :=
  match texts with
  | [] => inr ""
  | JStr s :: rest =>
      match join rest with
      | inl e => inl e
      | inr t => inr (s ++ t)
      end
  | _ => inl TypeError
  end.

(** [_extract_content] *)
Definition _extract_content (messages : list json)
  : exn + (string * list json) :=
  match msg_loop messages [] [] with
  | inl e => inl e
  | inr (texts, images) =>
      match join texts with
      | inl e => inl e
      | inr text => inr (text, images)
      end
  end.

End Content.

Module AroundProps.
Import Client Retry Processer Content.

Lemma collect_spec pairs :
  let '(ids, uris) := collect pairs in
  List.length ids = List.length uris /\
  (List.length ids <= List.length pairs)%nat /\
  Forall (fun fid => fid <> "") ids /\
  forall fid furi,
    In (fid, furi) (combine ids uris) <->
    fid <> "" /\ exists url, In (url, UploadPair fid furi) pairs.
Proof.
  induction pairs as [|[url result] pairs IH]; cbn [collect].
  - split; [reflexivity|]. split; [simpl; lia|]. split; [constructor|].
    intros fid furi. simpl. split; [contradiction|]. now intros (_ & _ & []).
  - destruct (collect pairs) as [ids uris].
    destruct IH as (Hl & Hn & Hf & Hin).
    assert (Hskip :
      (forall fid furi, result <> UploadPair fid furi \/ fid = "") ->
      List.length ids = List.length uris /\
      (List.length ids <= List.length ((url, result) :: pairs))%nat /\
      Forall (fun fid => fid <> "") ids /\
      forall fid furi,
        In (fid, furi) (combine ids uris) <->
        fid <> "" /\
        exists url0, In (url0, UploadPair fid furi) ((url, result) :: pairs)).
    { intros Hr. split; [exact Hl|]. split; [simpl; lia|]. split; [exact Hf|].
      intros fid furi. rewrite Hin. split.
      - intros (Hne & u & Hu). split; [exact Hne|]. exists u. now right.
      - intros (Hne & u & [Hu|Hu]).
        + injection Hu as _ Hu. destruct (Hr fid furi); congruence.
        + split; [exact Hne|]. now exists u. }
    destruct result as [|fid0 furi0|]; try (apply Hskip; intros; left;
                                            discriminate).
    destruct fid0 as [|c fid0]; cbn [Py.truthy].
    + apply Hskip. intros fid furi.
      destruct fid; [now right|left; congruence].
    + split; [simpl; now rewrite Hl|]. split; [simpl; lia|].
      split; [constructor; [discriminate|exact Hf]|].
      intros fid furi. cbn [combine]. split.
      * intros [Heq|Hi].
        -- injection Heq as <- <-. split; [discriminate|].
           exists url. now left.
        -- apply Hin in Hi. destruct Hi as (Hne & u & Hu).
           split; [exact Hne|]. exists u. now right.
      * intros (Hne & u & [Hu|Hu]).
        -- injection Hu as _ <- <-. now left.
        -- right. apply Hin. split; [exact Hne|]. now exists u.
Qed.

(** X21. [_upload] keeps the ids and the URIs of the uploaded images
    aligned: both lists have the same length, at most the number of images;
    an upload that raised, gave nothing usable or gave an empty id is left
    out, and the pairs kept are exactly the id and URI pairs of the uploads
    that gave a non-empty id. *)
Theorem upload_aligned (urls : list string) (results : list Uploaded) :
  let '(ids, uris) := _upload urls results in
  List.length ids = List.length uris /\
  (List.length ids <= List.length urls)%nat /\
  Forall (fun fid => fid <> "") ids /\
  forall fid furi,
    In (fid, furi) (combine ids uris) <->
    fid <> "" /\ exists url, In (url, UploadPair fid furi) (combine urls results).
Proof.
  unfold _upload. destruct urls as [|u urls].
  - split; [reflexivity|]. split; [simpl; lia|]. split; [constructor|].
    intros fid furi. simpl. split; [contradiction|]. now intros (_ & _ & []).
  - pose proof (collect_spec (combine (u :: urls) results)) as H.
    destruct (collect (combine (u :: urls) results)) as [ids uris].
    destruct H as (Hl & Hn & Hf & Hin). split; [exact Hl|].
    split; [|split; [exact Hf|exact Hin]].
    rewrite length_combine in Hn. lia.
Qed.

Lemma append_assoc s t u : (s ++ t) ++ u = s ++ (t ++ u).
Proof. induction s as [|c s IH]; simpl; [reflexivity|now rewrite IH]. Qed.

Lemma join_app texts : forall s t,
  join texts = inr s -> join (texts ++ [JStr t]) = inr (s ++ t).
Proof.
  induction texts as [|x texts IH]; intros s t H.
  - injection H as <-. simpl. now rewrite Sso.append_nil_r.
  - destruct x; try discriminate. cbn [join app] in *.
    destruct (join texts) as [e|joined] eqn:E; [discriminate|].
    injection H as <-. rewrite (IH joined t eq_refl).
    now rewrite append_assoc.
Qed.

(** A message with a string content, or with no [content] key. *)
Definition text_message (msg : json) (s : string) : Prop :=
  exists d, msg = JDict d /\
    (lookup d "content" = Some (JStr s) \/
     (lookup d "content" = None /\ s = "")).

Lemma msg_loop_text messages : forall ss texts images t,
  Forall2 text_message messages ss ->
  join texts = inr t ->
  exists texts',
    msg_loop messages texts images = inr (texts', images) /\
    join texts' = inr (t ++ String.concat "" ss).
Proof.
  induction messages as [|msg messages IH]; intros ss texts images t H Ht;
    inversion H as [|? s ? ss' (d & -> & Hd) Hrest]; subst.
  - exists texts. split; [reflexivity|]. simpl. now rewrite Sso.append_nil_r.
  - cbn [msg_loop get].
    assert (E : match lookup d "content" with
                | Some x => x
                | None => JStr ""
                end = JStr s).
    { destruct Hd as [->|[-> ->]]; reflexivity. }
    rewrite E.
    destruct (IH ss' (texts ++ [JStr s])%list images (t ++ s) Hrest
                (join_app _ _ _ Ht)) as (texts' & Hm & Hj).
    exists texts'. split; [exact Hm|]. rewrite Hj. f_equal.
    rewrite append_assoc. f_equal.
    destruct ss' as [|s' ss']; simpl; [now rewrite Sso.append_nil_r|].
    reflexivity.
Qed.

(** X22. For messages whose content is a string, [_extract_content] gives
    the contents joined in order with nothing between them, whatever the
    other keys of the messages (the roles) are, and no image; a message
    without a [content] key adds nothing. *)
Theorem extract_content_text (messages : list json) (ss : list string) :
  Forall2 text_message messages ss ->
  _extract_content messages = inr (String.concat "" ss, []).
Proof.
  intros H. unfold _extract_content.
  destruct (msg_loop_text messages ss [] [] "" H eq_refl)
    as (texts' & Hm & Hj).
  now rewrite Hm, Hj.
Qed.

Lemma extract_content_text_witness :
  _extract_content
    [JDict [("role", JStr "system"); ("content", JStr "Be brief.")];
     JDict [("role", JStr "user")];
     JDict [("content", JStr "Hi"); ("role", JStr "user")]]
  = inr (String.concat "" ["Be brief."; ""; "Hi"], []).
Proof.
  apply extract_content_text.
  repeat constructor.
  - eexists. split; [reflexivity|]. left. reflexivity.
  - eexists. split; [reflexivity|]. right. split; reflexivity.
  - eexists. split; [reflexivity|]. left. reflexivity.
Defined.

(** A [content] that is JSON [null] makes the final join raise. *)
Example extract_content_null :
  _extract_content [JDict [("role", JStr "assistant"); ("content", JNull)]]
  = inl TypeError.
Proof. reflexivity. Qed.

(** A list content gives its text items and the URLs of its image items. *)
Example extract_content_parts :
  _extract_content
    [JDict [("role", JStr "user");
            ("content",
             JList [JDict [("type", JStr "text"); ("text", JStr "What is ")];
                    JDict [("type", JStr "image_url");
                           ("image_url", JDict [("url", JStr "http://i/1.png")])];
                    JDict [("type", JStr "text"); ("text", JStr "this?")]])]]
  = inr ("What is this?", [JStr "http://i/1.png"]).
Proof. reflexivity. Qed.

End AroundProps.

(** ** The shape of a translated stream *)

Module StreamShape.
Import Processer ProcesserFacts FrameFacts.

(** What a stream that completes has yielded: plain chunks, then one chunk
    with a finish reason, then the end marker, which is missing only after
    a [stop] chunk. *)
Definition final (o : list out) : Prop :=
  exists p m c,
    Forall plain p /\
    (o = (p ++ [Chunk m c (Some "stop")])%list \/
     o = (p ++ [Chunk m c (Some "stop"); DONE])%list \/
     o = (p ++ [Chunk m c (Some "error"); DONE])%list).

(** A computation that yields plain chunks, and a final sequence when it
    returns. *)
Definition shaped {A} (m : M A) : Prop :=
  forall st o st' c, m st = (o, st', c) ->
    match c with
    | Return => final o
    | _ => Forall plain o
    end.

Lemma final_app p o : Forall plain p -> final o -> final (p ++ o)%list.
Proof.
  intros Hp (q & m & c & Hq & H). exists (p ++ q)%list, m, c.
  split; [now apply Forall_app|].
  rewrite <- !app_assoc. destruct H as [H|[H|H]]; rewrite H; auto.
Qed.

Section Shaped.
Variable cfg : Config.
Variable col : Collab.

Lemma make_chunk_fin st content fin x :
  make_chunk col st content fin = inr x -> exists m c, x = Chunk m c fin.
Proof.
  unfold make_chunk. destruct (as_str col _) as [name|]; [|discriminate].
  destruct (truthy content); [destruct (as_str col content)|];
    intros [= <-]; eauto.
Qed.

Lemma shaped_ret {A} (a : A) : shaped (ret a).
Proof. intros st o st' c [= <- _ <-]. constructor. Qed.

Lemma shaped_continue {A} : shaped (@continue_ A).
Proof. intros st o st' c [= <- _ <-]. constructor. Qed.

Lemma shaped_raise {A} e : shaped (@raise A e).
Proof. intros st o st' c [= <- _ <-]. constructor. Qed.

Lemma shaped_lift {A} (r : exn + A) : shaped (lift r).
Proof. destruct r; [apply shaped_raise|apply shaped_ret]. Qed.

Lemma shaped_read : shaped read.
Proof. intros st o st' c [= <- _ <-]. constructor. Qed.

Lemma shaped_update f : shaped (update f).
Proof. intros st o st' c [= <- _ <-]. constructor. Qed.

Lemma shaped_yield content : shaped (yield_chunk col content None).
Proof.
  intros st o st' c H. unfold yield_chunk in H.
  destruct (make_chunk col st content None) as [e|x] eqn:E;
    injection H as <- _ <-; [constructor|].
  destruct (make_chunk_fin _ _ _ _ E) as (m & t & ->).
  repeat constructor. now exists m, t.
Qed.

Lemma shaped_bind {A B} (m : M A) (f : A -> M B) :
  shaped m -> (forall a, shaped (f a)) -> shaped (bind m f).
Proof.
  intros Hm Hf st o st' c H. unfold bind in H.
  destruct (m st) as [[o1 st1] c1] eqn:Em. specialize (Hm _ _ _ _ Em).
  destruct c1 as [a| | |e]; try (injection H as <- <- <-; exact Hm).
  destruct (f a st1) as [[o2 st2] c2] eqn:Ef. injection H as <- <- <-.
  specialize (Hf a _ _ _ _ Ef). simpl in Hm.
  destruct c2; first [now apply Forall_app | now apply final_app].
Qed.

Lemma shaped_when b m : shaped m -> shaped (when b m).
Proof. intros H. destruct b; [exact H|apply shaped_ret]. Qed.

(** The stop chunk followed by [return]. *)
Lemma shaped_stop_return content :
  shaped (bind (yield_chunk col content (Some "stop"))
            (fun _ => @return_ unit)).
Proof.
  intros st o st' c H. unfold bind, yield_chunk, return_ in H.
  destruct (make_chunk col st content (Some "stop")) as [e|x] eqn:E;
    injection H as <- _ <-; [constructor|].
  destruct (make_chunk_fin _ _ _ _ E) as (m & t & ->).
  exists [], m, t. split; [constructor|]. now left.
Qed.

(** The stop chunk followed by the end marker and [return]. *)
Lemma shaped_stop_done_return content :
  shaped (bind (yield_chunk col content (Some "stop"))
            (fun _ => bind yield_done (fun _ => @return_ unit))).
Proof.
  intros st o st' c H. unfold bind, yield_chunk, yield_done, return_ in H.
  destruct (make_chunk col st content (Some "stop")) as [e|x] eqn:E;
    injection H as <- _ <-; [constructor|].
  destruct (make_chunk_fin _ _ _ _ E) as (m & t & ->).
  exists [], m, t. split; [constructor|]. right. now left.
Qed.

Lemma shaped_yield_all cs : shaped (yield_all col cs).
Proof.
  induction cs as [|c cs IH]; simpl; [apply shaped_ret|].
  apply shaped_bind; [apply shaped_yield|intros _; exact IH].
Qed.

Lemma shaped_image_loop imgs : forall content,
  shaped (image_loop col imgs content).
Proof.
  induction imgs as [|img imgs IH]; intros content; simpl; [apply shaped_ret|].
  destruct (image_block col img) as [chunks text].
  apply shaped_bind; [apply shaped_yield_all|intros _; apply IH].
Qed.

Lemma shaped_search_loop results : forall token,
  shaped (search_loop col results token).
Proof.
  induction results as [|r results IH]; intros token; simpl;
    [apply shaped_ret|].
  repeat (apply shaped_bind; [apply shaped_lift|intros]). apply IH.
Qed.

Ltac shaped_step :=
  match goal with
  | |- shaped (bind (yield_chunk _ _ (Some "stop"))
                 (fun _ => bind yield_done _)) =>
      apply shaped_stop_done_return
  | |- shaped (bind (yield_chunk _ _ (Some "stop")) _) =>
      apply shaped_stop_return
  | |- shaped (bind _ _) => apply shaped_bind; [|intros]
  | |- shaped (lift _) => apply shaped_lift
  | |- shaped (ret _) => apply shaped_ret
  | |- shaped continue_ => apply shaped_continue
  | |- shaped read => apply shaped_read
  | |- shaped (update _) => apply shaped_update
  | |- shaped (yield_chunk _ _ None) => apply shaped_yield
  | |- shaped (when _ _) => apply shaped_when
  | |- shaped (image_loop _ _ _) => apply shaped_image_loop
  | |- shaped (search_loop _ _ _) => apply shaped_search_loop
  | |- shaped (if ?b then _ else _) => destruct b
  | |- shaped (let '(_, _) := ?x in _) => destruct x
  | |- shaped (match ?x with _ => _ end) => destruct x
  end.

Lemma shaped_video_frame video_resp : shaped (video_frame cfg col video_resp).
Proof. unfold video_frame. repeat shaped_step. Qed.

Lemma shaped_image_frame grok_resp token :
  shaped (image_frame col grok_resp token).
Proof. unfold image_frame. repeat shaped_step. Qed.

Lemma shaped_chat_frame grok_resp token :
  shaped (chat_frame cfg col grok_resp token).
Proof. unfold chat_frame. destruct token; repeat shaped_step. Qed.

Lemma shaped_process_frame data now : shaped (process_frame cfg col data now).
Proof.
  unfold process_frame. repeat shaped_step.
  - apply shaped_video_frame.
  - apply shaped_image_frame.
  - apply shaped_chat_frame.
Qed.

Definition ended (r : list out * finish) : Prop :=
  match snd r with
  | Completed => final (fst r)
  | Propagated _ => Forall plain (fst r)
  end.

Lemma ended_prepend o r : Forall plain o -> ended r -> ended (prepend o r).
Proof.
  intros Ho Hr. destruct r as [o' [|e]]; unfold ended, prepend in *;
    simpl in *.
  - now apply final_app.
  - now apply Forall_app.
Qed.

Lemma on_error_ended st text : ended (on_error col st text).
Proof.
  unfold on_error, ended.
  destruct (make_chunk col st _ (Some "error")) as [e|x] eqn:E; simpl;
    [constructor|].
  destruct (make_chunk_fin _ _ _ _ E) as (m & t & ->).
  exists [], m, t. split; [constructor|]. right. now right.
Qed.

Lemma stop_and_done_ended st : ended (stop_and_done col st).
Proof.
  unfold stop_and_done.
  destruct (make_chunk col st (JStr "") (Some "stop")) as [e|x] eqn:E;
    [apply on_error_ended|].
  destruct (make_chunk_fin _ _ _ _ E) as (m & t & ->).
  exists [], m, t. split; [constructor|]. right. now left.
Qed.

Lemma stream_loop_ended lines e : forall st,
  ended (stream_loop cfg col st lines e).
Proof.
  induction lines as [|a lines IH]; intros st; cbn [stream_loop].
  - destruct e; [apply stop_and_done_ended|apply on_error_ended].
  - destruct (check_timeout (timeout_mgr st) (t_check a));
      [apply stop_and_done_ended|].
    destruct (body a) as [| |data]; [apply IH|apply IH|].
    destruct (process_frame cfg col data (t_mark a) st) as [[o st'] c] eqn:E.
    pose proof (shaped_process_frame _ _ _ _ _ _ E) as Hs.
    destruct c; try (apply ended_prepend; [exact Hs|apply IH]).
    exact Hs.
Qed.

End Shaped.

(** X23. Every translated stream has the same shape.  When the generator
    completes it has yielded plain chunks (no finish reason), then exactly
    one chunk with a finish reason, [stop] or [error], then the end marker;
    the end marker is missing only after a [stop] chunk.  When an exception
    leaves the generator it has yielded plain chunks only. *)
Theorem stream_shape (cfg : Config) (col : Collab) (t_start : Q)
  (lines : list arrival) (e : ending) :
  match snd (process_stream cfg col t_start lines e) with
  | Completed =>
      exists p m c,
        Forall plain p /\
        (fst (process_stream cfg col t_start lines e)
         = (p ++ [Chunk m c (Some "stop")])%list \/
         fst (process_stream cfg col t_start lines e)
         = (p ++ [Chunk m c (Some "stop"); DONE])%list \/
         fst (process_stream cfg col t_start lines e)
         = (p ++ [Chunk m c (Some "error"); DONE])%list)
  | Propagated _ => Forall plain (fst (process_stream cfg col t_start lines e))
  end.
Proof. apply (stream_loop_ended cfg col lines e (init cfg t_start)). Qed.

End StreamShape.

(** ** What the frames do to the state of the translation *)

Module StreamState.
Import Processer ProcesserFacts.

(** A computation that keeps the property [I] of the state. *)
Definition keeps (I : State -> Prop) {A} (m : M A) : Prop :=
  forall st o st' c, m st = (o, st', c) -> I st -> I st'.

Section Keeps.
Variable cfg : Config.
Variable col : Collab.
Variable I : State -> Prop.

Lemma keeps_ret {A} (a : A) : keeps I (ret a).
Proof. now intros st o st' c [= _ <- _]. Qed.

Lemma keeps_continue {A} : keeps I (@continue_ A).
Proof. now intros st o st' c [= _ <- _]. Qed.

Lemma keeps_return {A} : keeps I (@return_ A).
Proof. now intros st o st' c [= _ <- _]. Qed.

Lemma keeps_raise {A} e : keeps I (@raise A e).
Proof. now intros st o st' c [= _ <- _]. Qed.

Lemma keeps_lift {A} (r : exn + A) : keeps I (lift r).
Proof. destruct r; [apply keeps_raise|apply keeps_ret]. Qed.

Lemma keeps_read : keeps I read.
Proof. now intros st o st' c [= _ <- _]. Qed.

Lemma keeps_update f : (forall st, I st -> I (f st)) -> keeps I (update f).
Proof. intros Hf st o st' c [= _ <- _]. apply Hf. Qed.

Lemma keeps_yield content fin : keeps I (yield_chunk col content fin).
Proof.
  intros st o st' c H. unfold yield_chunk in H.
  now destruct (make_chunk col st content fin); injection H as _ <- _.
Qed.

Lemma keeps_done : keeps I yield_done.
Proof. now intros st o st' c [= _ <- _]. Qed.

Lemma keeps_bind {A B} (m : M A) (f : A -> M B) :
  keeps I m -> (forall a, keeps I (f a)) -> keeps I (bind m f).
Proof.
  intros Hm Hf st o st' c H Hi. unfold bind in H.
  destruct (m st) as [[o1 st1] c1] eqn:Em.
  pose proof (Hm _ _ _ _ Em Hi) as H1.
  destruct c1 as [a| | |e]; try (now injection H as _ <- _).
  destruct (f a st1) as [[o2 st2] c2] eqn:Ef. injection H as _ <- _.
  exact (Hf a _ _ _ _ Ef H1).
Qed.

Lemma keeps_when b m : keeps I m -> keeps I (when b m).
Proof. intros H. destruct b; [exact H|apply keeps_ret]. Qed.

Lemma keeps_yield_all cs : keeps I (yield_all col cs).
Proof.
  induction cs as [|c cs IH]; simpl; [apply keeps_ret|].
  apply keeps_bind; [apply keeps_yield|intros _; exact IH].
Qed.

Lemma keeps_image_loop imgs : forall content,
  keeps I (image_loop col imgs content).
Proof.
  induction imgs as [|img imgs IH]; intros content; simpl; [apply keeps_ret|].
  destruct (image_block col img) as [chunks text].
  apply keeps_bind; [apply keeps_yield_all|intros _; apply IH].
Qed.

Lemma keeps_search_loop results : forall token,
  keeps I (search_loop col results token).
Proof.
  induction results as [|r results IH]; intros token; simpl;
    [apply keeps_ret|].
  repeat (apply keeps_bind; [apply keeps_lift|intros]). apply IH.
Qed.

End Keeps.

Ltac keeps_step :=
  match goal with
  | |- keeps _ (bind _ _) => apply keeps_bind; [|intros]
  | |- keeps _ (lift _) => apply keeps_lift
  | |- keeps _ (ret _) => apply keeps_ret
  | |- keeps _ continue_ => apply keeps_continue
  | |- keeps _ return_ => apply keeps_return
  | |- keeps _ read => apply keeps_read
  | |- keeps _ (update _) =>
      apply keeps_update; intros ? ?; first [assumption | reflexivity]
  | |- keeps _ (yield_chunk _ _ _) => apply keeps_yield
  | |- keeps _ yield_done => apply keeps_done
  | |- keeps _ (when _ _) => apply keeps_when
  | |- keeps _ (image_loop _ _ _) => apply keeps_image_loop
  | |- keeps _ (search_loop _ _ _) => apply keeps_search_loop
  | |- keeps _ (if ?b then _ else _) => destruct b
  | |- keeps _ (let '(_, _) := ?x in _) => destruct x
  | |- keeps _ (match ?x with _ => _ end) => destruct x
  end.

Section Thinking.
Variable cfg : Config.
Variable col : Collab.

(** The reasoning phase has been closed. *)
Definition closed (st : State) : Prop := thinking_finished st = true.

Lemma closed_process_frame data now :
  keeps closed (process_frame cfg col data now).
Proof.
  unfold process_frame, video_frame, image_frame, chat_frame, closed.
  repeat keeps_step.
Qed.

Lemma closed_feed lines : forall st o st',
  feed cfg col st lines = (o, Some st') -> closed st -> closed st'.
Proof.
  induction lines as [|a lines IH]; intros st o st' H Hc; simpl in H.
  - now injection H as _ <-.
  - destruct (check_timeout (timeout_mgr st) (t_check a)); [discriminate|].
    destruct (body a) as [| |data]; [eauto|eauto|].
    destruct (process_frame cfg col data (t_mark a) st) as [[o1 st1] c] eqn:E.
    pose proof (closed_process_frame _ _ _ _ _ _ E Hc) as H1.
    destruct c; try discriminate;
      destruct (feed cfg col st1 lines) as [o' r] eqn:Hf;
      injection H as _ ->; eauto.
Qed.

End Thinking.

End StreamState.

Module StreamStateProps.
Import Processer ProcesserFacts StreamState.

(** A frame that comes to the conversation branch with [token]: it has no
    [error], its response [g] is a non-empty dict without a video part and
    without an image attachment. *)
Definition conversation_frame (data : json) (g : list (string * json))
  (token : json) : Prop :=
  exists error result video attachment,
    get data "error" JNull = inr error /\ truthy error = false /\
    get data "result" (JDict []) = inr result /\
    get result "response" (JDict []) = inr (JDict g) /\
    g <> [] /\
    get (JDict g) "streamingVideoGenerationResponse" JNull = inr video /\
    truthy video = false /\
    get (JDict g) "imageAttachmentInfo" JNull = inr attachment /\
    truthy attachment = false /\
    get (JDict g) "token" (JStr "") = inr token.

(** The model name after the frame: the [model] of its [userResponse] when
    both are truthy, else the one before. *)
Definition new_model (g : list (string * json)) (old : json) : exn + json :=
  match get (JDict g) "userResponse" JNull with
  | inr user_resp =>
      if truthy user_resp
      then match get user_resp "model" JNull with
           | inr m => inr (if truthy m then m else old)
           | inl e => inl e
           end
      else inr old
  | inl e => inl e
  end.

(** What every frame with a response does to the state before its branch
    is taken: [mark_received] and the model name. *)
Definition received (now : Q) (m : json) (st : State) : State :=
  set_model m (set_timeout_mgr (mark_received (timeout_mgr st) now) st).

Lemma bind_ret {A B} (a : A) (f : A -> M B) st : bind (ret a) f st = f a st.
Proof. unfold bind, ret. now destruct (f a st) as [[o2 st2] c2]. Qed.

Lemma bind_update {B} g (f : unit -> M B) st :
  bind (update g) f st = f tt (g st).
Proof. unfold bind, update. now destruct (f tt (g st)) as [[o2 st2] c2]. Qed.

Lemma bind_read {B} (f : State -> M B) st : bind read f st = f st st.
Proof. unfold bind, read. now destruct (f st st) as [[o2 st2] c2]. Qed.

Lemma bind_assoc {A B C} (m : M A) (f : A -> M B) (g : B -> M C) st :
  bind (bind m f) g st = bind m (fun a => bind (f a) g) st.
Proof.
  unfold bind. destruct (m st) as [[o1 st1] c1].
  destruct c1 as [a| | |e]; try reflexivity.
  destruct (f a st1) as [[o2 st2] c2].
  destruct c2 as [b| | |e]; try reflexivity.
  destruct (g b st2) as [[o3 st3] c3]. now rewrite app_assoc.
Qed.

(** Such a frame, on a stream that is not in image mode, is the
    conversation branch run on the state [received]. *)
Lemma process_frame_chat cfg col data g token now st m :
  conversation_frame data g token ->
  is_image st = false ->
  new_model g (model st) = inr m ->
  process_frame cfg col data now st
  = chat_frame cfg col (JDict g) token (received now m st).
Proof.
  intros (error & result & video & att & He & Hte & Hr & Hg & Hne & Hv & Htv
          & Ha & Hta & Htok) Him Hm.
  unfold process_frame.
  rewrite He. cbn [lift]. rewrite bind_ret, Hte.
  rewrite Hr. cbn [lift]. rewrite bind_ret.
  rewrite Hg. cbn [lift]. rewrite bind_ret.
  cbn [py_len lift]. rewrite bind_ret.
  assert (Htg : truthy (JDict g) = true)
    by (destruct g; [congruence|reflexivity]).
  rewrite Htg. cbn [negb]. rewrite bind_update.
  set (st0 := set_timeout_mgr (mark_received (timeout_mgr st) now) st).
  assert (Hrest : forall st1, is_image st1 = false ->
    bind (lift (get (JDict g) "streamingVideoGenerationResponse" JNull))
       (fun video_resp : json =>
        if truthy video_resp
        then video_frame cfg col video_resp
        else
         bind (lift (get (JDict g) "imageAttachmentInfo" JNull))
           (fun attachment : json =>
            bind (when (truthy attachment) (update (set_is_image true)))
              (fun _ : unit =>
               bind (lift (get (JDict g) "token" (JStr "")))
                 (fun token0 : json =>
                  bind read
                    (fun st0 : State =>
                     if is_image st0
                     then image_frame col (JDict g) token0
                     else chat_frame cfg col (JDict g) token0))))) st1
    = chat_frame cfg col (JDict g) token st1).
  { intros st1 H1. rewrite Hv. cbn [lift]. rewrite bind_ret, Htv.
    rewrite Ha. cbn [lift]. rewrite bind_ret, Hta. cbn [when].
    rewrite bind_ret. rewrite Htok. cbn [lift]. rewrite bind_ret.
    rewrite bind_read, H1. reflexivity. }
  unfold new_model in Hm.
  destruct (get (JDict g) "userResponse" JNull) as [e|user_resp] eqn:Eu;
    [discriminate|].
  cbn [lift]. rewrite bind_ret.
  destruct (truthy user_resp); cbn [when].
  - rewrite bind_assoc.
    destruct (get user_resp "model" JNull) as [e|m0]; [discriminate|].
    injection Hm as <-. cbn [lift]. rewrite bind_ret.
    destruct (truthy m0); cbn [when].
    + rewrite bind_update. now rewrite Hrest.
    + rewrite bind_ret. now rewrite Hrest.
  - injection Hm as <-. rewrite bind_ret. now rewrite Hrest.
Qed.

Lemma any_tag_in_str tags s : exists b, any_tag_in tags (JStr s) = inr b.
Proof.
  induction tags as [|tag tags IH]; cbn [any_tag_in]; [eauto|].
  destruct (truthy (JStr s)); [|exact IH]. cbn [tag_in].
  destruct (Py.contains tag s); [eauto|exact IH].
Qed.

Lemma chat_frame_closed cfg col g s st v :
  thinking_finished st = true ->
  get (JDict g) "isThinking" (JBool false) = inr v ->
  truthy v = true ->
  chat_frame cfg col (JDict g) (JStr s) st = ([], st, Continue).
Proof.
  intros Hc Hg Hv. unfold chat_frame.
  destruct (any_tag_in_str (Py.split (filtered_tags cfg) ",") s) as [b ->].
  cbn [lift]. rewrite bind_ret. destruct b; [reflexivity|].
  rewrite Hg. cbn [lift]. rewrite bind_ret.
  cbn [get lift]. rewrite bind_ret, bind_read, Hc, Hv. reflexivity.
Qed.

(** X24. Once the reasoning phase has been closed it stays closed for all
    later lines, and a frame of the conversation branch that is flagged as
    reasoning and carries a text token is dropped from then on: the frame
    yields nothing and the loop goes on to the next line; of the state it
    changes what every frame with a response changes before its branch is
    taken, the time of the last chunk ([mark_received]) and the model name
    when the frame carries one. *)
Theorem reasoning_stays_closed (cfg : Config) (col : Collab) (st st' : State)
  (lines : list arrival) (o : list out) :
  thinking_finished st = true ->
  feed cfg col st lines = (o, Some st') ->
  thinking_finished st' = true /\
  forall data g s v now m,
    conversation_frame data g (JStr s) ->
    is_image st' = false ->
    new_model g (model st') = inr m ->
    get (JDict g) "isThinking" (JBool false) = inr v ->
    truthy v = true ->
    process_frame cfg col data now st' = ([], received now m st', Continue).
Proof.
  intros Hc Hf.
  assert (Hc' : thinking_finished st' = true)
    by exact (closed_feed cfg col _ _ _ _ Hf Hc).
  split; [exact Hc'|]. intros data g s v now m Hcf Him Hm Hg Hv.
  rewrite (process_frame_chat cfg col data g (JStr s) now st' m Hcf Him Hm).
  now apply chat_frame_closed with (v := v).
Qed.

Lemma reasoning_stays_closed_witness :
  let st := set_thinking_finished true (init ProcesserExamples.cfg0 0) in
  let g := [("token", JStr "more thought"); ("isThinking", JBool true);
            ("userResponse", JDict [("model", JStr "grok-3")])] in
  exists st',
    feed ProcesserExamples.cfg0 ProcesserExamples.col0 st
      [ProcesserExamples.at_ 1
         (ProcesserExamples.response_of [("token", JStr "Hi")])]
    = ([Chunk ProcesserExamples.default_model "Hi" None], Some st') /\
    thinking_finished st' = true /\
    process_frame ProcesserExamples.cfg0 ProcesserExamples.col0
      (JDict [("result", JDict [("response", JDict g)])]) 2 st'
    = ([], received 2 (JStr "grok-3") st', Continue).
Proof.
  intros st g. eexists. split; [reflexivity|].
  match goal with
  | |- thinking_finished ?x = true /\ _ =>
      destruct (reasoning_stays_closed ProcesserExamples.cfg0
                  ProcesserExamples.col0 st x
                  [ProcesserExamples.at_ 1
                     (ProcesserExamples.response_of [("token", JStr "Hi")])]
                  [Chunk ProcesserExamples.default_model "Hi" None])
        as [Hc Hdrop]
  end.
  - reflexivity.
  - reflexivity.
  - split; [exact Hc|].
    apply (Hdrop _ g "more thought" (JBool true)).
    + exists JNull, (JDict [("response", JDict g)]), JNull, JNull.
      repeat split; try reflexivity. discriminate.
    + reflexivity.
    + reflexivity.
    + reflexivity.
    + reflexivity.
Defined.

Lemma contains_empty s : Py.contains "" s = true.
Proof. destruct s; reflexivity. Qed.

Lemma any_tag_in_empty tags s :
  In "" tags -> s <> "" -> any_tag_in tags (JStr s) = inr true.
Proof.
  intros Hin Hs.
  assert (Ht : truthy (JStr s) = true) by (destruct s; [congruence|reflexivity]).
  induction tags as [|tag tags IH]; [contradiction|].
  cbn [any_tag_in]. rewrite Ht. cbn [tag_in].
  destruct (Py.contains tag s) eqn:E; [reflexivity|].
  destruct Hin as [->|Hin]; [|now apply IH].
  rewrite contains_empty in E. discriminate.
Qed.

(** X25. An empty entry in the list of filtered tags filters everything:
    when [filtered_tags], split at the commas, has an empty entry (as the
    empty setting has), every frame of the conversation branch with a
    non-empty text token is dropped, whatever else the frame holds: it
    yields nothing and the loop goes on to the next line; of the state it
    changes the time of the last chunk ([mark_received]) and the model name
    when the frame carries one, as every frame with a response does. *)
Theorem empty_tag_filters_all (cfg : Config) (col : Collab) (data : json)
  (g : list (string * json)) (s : string) (now : Q) (st : State) (m : json) :
  In "" (Py.split (filtered_tags cfg) ",") ->
  s <> "" ->
  conversation_frame data g (JStr s) ->
  is_image st = false ->
  new_model g (model st) = inr m ->
  process_frame cfg col data now st = ([], received now m st, Continue).
Proof.
  intros Hin Hs Hcf Him Hm.
  rewrite (process_frame_chat cfg col data g (JStr s) now st m Hcf Him Hm).
  unfold chat_frame. rewrite (any_tag_in_empty _ _ Hin Hs).
  cbn [lift]. now rewrite bind_ret.
Qed.

Lemma empty_tag_filters_all_witness :
  let cfg := {| filtered_tags := "";
                show_thinking := true;
                stream_chunk_timeout := 120;
                stream_first_response_timeout := 30;
                stream_total_timeout := 600 |} in
  let st := init ProcesserExamples.cfg0 0 in
  process_frame cfg ProcesserExamples.col0
    (JDict [("result", JDict [("response", JDict [("token", JStr "Hello")])])])
    1 st
  = ([], received 1 (model st) st, Continue).
Proof.
  intros cfg st.
  apply (empty_tag_filters_all cfg ProcesserExamples.col0 _
           [("token", JStr "Hello")] "Hello").
  - now left.
  - discriminate.
  - exists JNull, (JDict [("response", JDict [("token", JStr "Hello")])]),
      JNull, JNull.
    repeat split; try reflexivity. discriminate.
  - reflexivity.
  - reflexivity.
Defined.

(** With the empty setting a stream of text tokens comes out empty. *)
Example empty_setting_stream :
  process_stream
    {| filtered_tags := "";
       show_thinking := true;
       stream_chunk_timeout := 120;
       stream_first_response_timeout := 30;
       stream_total_timeout := 600 |}
    ProcesserExamples.col0 0
    [ProcesserExamples.at_ 1
       (ProcesserExamples.response_of [("token", JStr "Hello")]);
     ProcesserExamples.at_ 2
       (ProcesserExamples.response_of [("token", JStr " world")])]
    Exhausted
  = ([Chunk ProcesserExamples.default_model "" (Some "stop"); DONE],
     Completed).
Proof. vm_compute. reflexivity. Qed.

End StreamStateProps.

(** ** The non-streaming translator: [process_normal] *)

Module Normal.
Import Processer.

(** Collaborators outside the function: [_build_video_content], which
    always gives a string; [_append_images]; and [_build_response], whose
    schema validates the content and the model name. *)
Record Collab := {
  build_video_content : json -> string;
  append_images : json -> json -> exn + json;
  build_response : json -> json -> exn + string * string
}.

(** What is raised inside the [try] block: one of the three
    [GrokApiException]s of the body, a Python exception of the body, or an
    exception of the line iterator. *)
Inductive Caught :=
| ApiError (message code : json)
| ModelError (error_msg : json)
| NoResponse
| Python (e : exn)
| Iterator (text : string).

(** The [GrokApiException] that leaves the function. *)
Record NormalError := {
  error_code : string;
  cause : Caught
}.

(** The observable steps: a line taken from the iterator, and
    [response.close()]. *)
Inductive event :=
| Line (l : line)
| Close.

(** How the body of the loop ends for one decoded frame. *)
Inductive Step :=
| Next
| Answer (r : string * string)
| Throw (c : Caught).

Definition attempt {A} (r : exn + A) (k : A -> Step) : Step :=
  match r with
  | inl e => Throw (Python e)
  | inr a => k a
  end.

Section Translator.
Variable col : Collab.
Variable model : option string.

(** The body of the loop for a decoded frame. *)
Definition frame (data : json) : Step :=
  attempt (get data "error" JNull) (fun error =>
  if truthy error
  then attempt (get error "message" (JStr "Unknown error")) (fun message =>
       attempt (get error "code" JNull) (fun code =>
       Throw (ApiError message code)))
  else
  attempt (get data "result" (JDict [])) (fun result =>
  attempt (get result "response" (JDict [])) (fun grok_resp =>
  attempt (get grok_resp "streamingVideoGenerationResponse" JNull)
    (fun video_resp =>
  let model_part :=
    attempt (get grok_resp "modelResponse" JNull) (fun model_response =>
    if negb (truthy model_response) then Next else
    attempt (get model_response "error" JNull) (fun error_msg =>
    if truthy error_msg then Throw (ModelError error_msg) else
    attempt (get model_response "message" (JStr "")) (fun content =>
    attempt (get model_response "model" JNull) (fun model_name =>
    attempt (get model_response "generatedImageUrls" JNull) (fun images =>
    attempt (if truthy images then append_images col content images
             else inr content) (fun content =>
    attempt (build_response col content model_name) Answer)))))) in
  if truthy video_resp
  then attempt (get video_resp "videoUrl" JNull) (fun video_url =>
       if truthy video_url
       then attempt
              (build_response col (JStr (build_video_content col video_url))
                 (JStr (match model with
                        | Some m => if Py.truthy m then m
                                    else "grok-imagine-0.9"
                        | None => "grok-imagine-0.9"
                        end)))
              Answer
       else model_part)
  else model_part)))).

(** The [try] block: the result, the steps, and the flag
    [response_closed]. *)
Fixpoint scan (lines : list line) (e : ending)
  : (Caught + string * string) * list event * bool :=
  match lines with
  | [] =>
      match e with
      | Exhausted => (inl NoResponse, [], false)
      | Broken text => (inl (Iterator text), [], false)
      end
  | l :: rest =>
      let step :=
        match l with
        | EmptyLine => Next
        | BadJson => Throw (Python JSONDecodeError)
        | Json data => frame data
        end in
      match step with
      | Next =>
          let '(r, events, closed) := scan rest e in
          (r, Line l :: events, closed)
      | Answer r => (inr r, [Line l; Close], true)
      | Throw c => (inl c, [Line l], false)
      end
  end.

(** [process_normal]: the two [except] clauses and the [finally] clause
    around the [try] block. *)
Definition process_normal (lines : list line) (e : ending)
  : (NormalError + string * string) * list event :=
  let '(r, events, response_closed) := scan lines e in
  let r :=
    match r with
    | inr a => inr a
    | inl (Python JSONDecodeError) =>
        inl {| error_code := "JSON_ERROR"; cause := Python JSONDecodeError |}
    | inl c => inl {| error_code := "PROCESS_ERROR"; cause := c |}
    end in
  (r, if response_closed then events else (events ++ [Close])%list).

End Translator.

End Normal.

Module NormalProps.
Import Processer Normal.

Definition is_close (e : event) : bool :=
  match e with Close => true | _ => false end.

(** The lines read from the iterator, in order. *)
Fixpoint lines_of (events : list event) : list line :=
  match events with
  | [] => []
  | Line l :: rest => l :: lines_of rest
  | Close :: rest => lines_of rest
  end.

Lemma scan_spec col model lines e :
  let '(r, events, closed) := scan col model lines e in
  exists read rest,
    lines = (read ++ rest)%list /\
    events = (map Line read ++ (if closed then [Close] else []))%list /\
    (closed = true <-> exists a, r = inr a) /\
    (rest <> [] -> r <> inl NoResponse /\ forall t, r <> inl (Iterator t))
    /\ (forall a, r = inr a -> exists pre data,
          read = (pre ++ [Json data])%list /\ frame col model data = Answer a).
Proof.
  induction lines as [|l lines IH]; cbn [scan].
  - destruct e; simpl; exists [], []; repeat split; try congruence;
      try (intros [a Ha]; discriminate); intros a Ha; discriminate.
  - set (step := match l with
                 | EmptyLine => Next
                 | BadJson => Throw (Python JSONDecodeError)
                 | Json data => frame col model data
                 end).
    destruct step as [|a|c] eqn:Es.
    + destruct (scan col model lines e) as [[r events] closed].
      destruct IH as (read & rest & -> & -> & Hc & Hr & Ha).
      exists (l :: read), rest. split; [reflexivity|]. split; [reflexivity|].
      split; [exact Hc|]. split; [exact Hr|].
      intros a Hra. destruct (Ha a Hra) as (pre & data & -> & Hf).
      exists (l :: pre), data. split; [reflexivity|exact Hf].
    + exists [l], lines. split; [reflexivity|]. split; [reflexivity|].
      split; [split; eauto|]. split; [intros _; split; congruence|].
      intros a' [= <-]. destruct l as [| |data]; try discriminate.
      exists [], data. split; [reflexivity|exact Es].
    + exists [l], lines. split; [reflexivity|]. split; [reflexivity|].
      split; [split; [discriminate|intros [a Ha]; discriminate]|].
      split; [|intros a Ha; discriminate].
      intros _. unfold step in Es.
      assert (Hf : forall data, frame col model data <> Throw NoResponse /\
                forall t, frame col model data <> Throw (Iterator t)).
      { intros data. unfold frame.
        repeat match goal with
               | |- context [attempt ?r _] => destruct r; cbn [attempt]
               | |- context [if ?b then _ else _] => destruct b
               end; split; try intros t; discriminate. }
      destruct l as [| |data]; [discriminate| |].
      * injection Es as <-. split; [|intros t]; discriminate.
      * destruct (Hf data) as [H1 H2]. split; [|intros t]; congruence.
Qed.

(** X26. [process_normal] closes the response exactly once, as its last
    step, whether it returns or raises.  It returns for the first line
    whose frame gives an answer and reads no line after it.  Whatever is
    raised inside leaves it as [JSON_ERROR] or [PROCESS_ERROR]: the codes
    [API_ERROR], [MODEL_ERROR] and [NO_RESPONSE] of its own errors are
    never seen by the caller. *)
Theorem process_normal_spec (col : Collab) (model : option string)
  (lines : list line) (e : ending) :
  let '(r, events) := process_normal col model lines e in
  exists read rest,
    lines = (read ++ rest)%list /\
    events = (map Line read ++ [Close])%list /\
    match r with
    | inr a =>
        exists pre data,
          read = (pre ++ [Json data])%list /\ frame col model data = Answer a
    | inl err =>
        (error_code err = "JSON_ERROR" \/ error_code err = "PROCESS_ERROR") /\
        (rest <> [] ->
         cause err <> NoResponse /\ forall t, cause err <> Iterator t)
    end.
Proof.
  unfold process_normal. pose proof (scan_spec col model lines e) as H.
  destruct (scan col model lines e) as [[r events] closed].
  destruct H as (read & rest & -> & -> & Hc & Hr & Ha).
  exists read, rest. split; [reflexivity|].
  destruct r as [c|a].
  - assert (closed = false).
    { destruct closed; [|reflexivity].
      destruct (proj1 Hc eq_refl) as [a Ha']. discriminate. }
    subst closed. rewrite app_nil_r. split; [reflexivity|].
    assert (Hcause : rest <> [] -> c <> NoResponse /\ forall t, c <> Iterator t).
    { intros Hne. destruct (Hr Hne) as [H1 H2]. split; [|intros t]; congruence. }
    destruct c as [m cd|m| |ex|t]; try (split; [now right|exact Hcause]).
    destruct ex; (split; [first [now left|now right]|exact Hcause]).
  - assert (closed = true) by (apply Hc; eauto). subst closed.
    split; [reflexivity|]. now apply Ha.
Qed.

End NormalProps.

(** ** The names of cached media: [get_image] and the links the
    translators write *)

Module MediaPath.

(** [s.replace(a, b)] for one-character [a] and [b]. *)
Fixpoint replace_char (a b : ascii) (s : string) : string :=
  match s with
  | EmptyString => EmptyString
  | String c s' => String (if Ascii.eqb c a then b else c) (replace_char a b s')
  end.

(** [img.replace('/', '-')], the name written into a link
    [/images/{img_path}]. *)
Definition img_path (img : string) : string := replace_char "/" "-" img.

(** [get_image]: the path looked up in the cache for a requested name. *)
Definition original_path (img_path : string) : string :=
  "/" ++ replace_char "-" "/" img_path.

End MediaPath.

Module MediaPathProps.
Import MediaPath.

Lemma replace_back a b s :
  Sso.has_char b s = false -> replace_char b a (replace_char a b s) = s.
Proof.
  induction s as [|c s IH]; simpl; [reflexivity|].
  intros H. apply orb_false_elim in H. destruct H as [Hc Hs].
  rewrite (IH Hs). f_equal.
  destruct (Ascii.eqb_spec c a) as [->|Hne].
  - now rewrite Ascii.eqb_refl.
  - now rewrite Hc.
Qed.

Lemma replace_twice a b s :
  a <> b -> replace_char b a (replace_char a b s) = replace_char b a s.
Proof.
  intros Hab. induction s as [|c s IH]; simpl; [reflexivity|].
  rewrite IH. f_equal.
  destruct (Ascii.eqb_spec c a) as [->|Hne].
  - rewrite Ascii.eqb_refl. destruct (Ascii.eqb_spec a b); congruence.
  - reflexivity.
Qed.

Lemma replace_fixed a b s :
  a <> b -> replace_char a b s = s -> Sso.has_char a s = false.
Proof.
  intros Hab. induction s as [|c s IH]; simpl; [reflexivity|].
  intros [= Hc Hs]. rewrite (IH Hs), orb_false_r.
  destruct (Ascii.eqb_spec c a) as [->|Hne]; [congruence|reflexivity].
Qed.

(** X27. [get_image] turns every dash of the requested name into a slash:
    for the name a translator writes for an asset path, the path it looks
    up is the asset path with its dashes replaced by slashes, and it is the
    asset path itself exactly when that holds no dash. *)
Theorem media_name_round_trip (img : string) :
  original_path (img_path img) = "/" ++ replace_char "-" "/" img /\
  (original_path (img_path img) = "/" ++ img <->
   Sso.has_char "-" img = false).
Proof.
  unfold original_path, img_path.
  assert (E : replace_char "-" "/" (replace_char "/" "-" img)
              = replace_char "-" "/" img)
    by (apply replace_twice; discriminate).
  rewrite E. split; [reflexivity|]. split.
  - intros [= H]. apply (replace_fixed "-" "/"); [discriminate|exact H].
  - intros H. f_equal.
    rewrite <- (replace_back "/" "-" img H) at 2.
    symmetry. apply replace_twice. discriminate.
Qed.

(** A generated video sits under a UUID, which has dashes. *)
Example video_name_lost :
  original_path (img_path "users/u1/generated/0a1b-2c3d/generated_video.mp4")
  = "/users/u1/generated/0a1b/2c3d/generated_video.mp4".
Proof. reflexivity. Qed.

End MediaPathProps.

(** ** The pool figures of the administration page:
    [calculate_token_stats] *)

Module AdminStats.
Import Token.

Record Stats := {
  total : nat;
  unused : nat;
  limited : nat;
  expired : nat;
  active : nat
}.

(** [sum(1 for t in tokens.values() if f(t))] *)
Definition count (f : TokenData -> bool) (tokens : Dict.t TokenData) : nat :=
  List.length (filter f (map snd tokens)).

(** [t.get("status") != "expired"] *)
Definition live (t : TokenData) : bool := negb (is_expired t).

(** [t.get("remainingQueries", -1)] and [t.get("heavyremainingQueries", -1)] *)
Definition rq (t : TokenData) : Z := get_remaining t "remainingQueries".
Definition hq (t : TokenData) : Z := get_remaining t "heavyremainingQueries".

(** [calculate_token_stats] *)
Definition calculate_token_stats (tokens : Dict.t TokenData)
  (token_type : string) : Stats :=
  if String.eqb token_type "normal"
  then
    {| total := List.length tokens;
       unused := count (fun t => live t && (rq t =? -1)) tokens;
       limited := count (fun t => live t && (rq t =? 0)) tokens;
       expired := count is_expired tokens;
       active := count (fun t => live t && (rq t >? 0)) tokens |}
  else
    {| total := List.length tokens;
       unused := count (fun t => live t && ((rq t =? -1) && (hq t =? -1)))
                   tokens;
       limited := count (fun t => live t && ((rq t =? 0) || (hq t =? 0)))
                    tokens;
       expired := count is_expired tokens;
       active := count (fun t => live t && ((rq t >? 0) || (hq t >? 0)))
                   tokens |}.

End AdminStats.

Module AdminStatsProps.
Import Token TokenFacts AdminStats.

Definition b2n (b : bool) : nat := if b then 1%nat else 0%nat.

Lemma count_cons f kv tokens :
  count f (kv :: tokens) = (b2n (f (snd kv)) + count f tokens)%nat.
Proof. unfold count. simpl. now destruct (f (snd kv)). Qed.

Lemma count_nil f : count f [] = 0%nat.
Proof. reflexivity. Qed.

(** Quotas as the pool's own operations and the vendor's answers leave
    them: [-1] or a count. *)
Definition sane (t : TokenData) : Prop := -1 <= rq t /\ -1 <= hq t.

(** X28. The figures of the standard partition add up: when every quota is
    [-1] or a count, each record is counted once, as expired, unused,
    limited or active.  In the premium partition a record can be counted
    both as limited and as active, so there the figures add up to at least
    the total. *)
Theorem stats_add_up (tokens : Dict.t TokenData) (token_type : string) :
  Forall (fun kv => sane (snd kv)) tokens ->
  let s := calculate_token_stats tokens token_type in
  (token_type = "normal" ->
   total s = (expired s + unused s + limited s + active s)%nat) /\
  (total s <= expired s + unused s + limited s + active s)%nat.
Proof.
  intros Hs. cbv zeta. unfold calculate_token_stats.
  destruct (String.eqb_spec token_type "normal") as [->|Hne];
    cbn [total unused limited expired active].
  - assert (H : List.length tokens
                = (count is_expired tokens
                   + count (fun t => live t && (rq t =? -1)%Z) tokens
                   + count (fun t => live t && (rq t =? 0)%Z) tokens
                   + count (fun t => live t && (rq t >? 0)%Z) tokens)%nat).
    { induction Hs as [|kv tokens [Hr _] _ IH]; [reflexivity|].
      rewrite !count_cons. cbn [List.length]. rewrite IH.
      unfold live. destruct (is_expired (snd kv)); cbn [negb andb b2n];
        [lia|].
      destruct (Z.eqb_spec (rq (snd kv)) (-1));
        destruct (Z.eqb_spec (rq (snd kv)) 0);
        destruct (Z.gtb_spec (rq (snd kv)) 0); cbn [b2n]; lia. }
    split; [intros _; exact H|]. rewrite H. lia.
  - split; [congruence|].
    induction Hs as [|kv tokens [Hr Hh] _ IH]; [simpl; lia|].
    rewrite !count_cons. cbn [List.length].
    unfold live in *. destruct (is_expired (snd kv)); cbn [negb andb b2n];
      [lia|].
    destruct (Z.eqb_spec (rq (snd kv)) (-1));
      destruct (Z.eqb_spec (hq (snd kv)) (-1));
      destruct (Z.eqb_spec (rq (snd kv)) 0);
      destruct (Z.eqb_spec (hq (snd kv)) 0);
      destruct (Z.gtb_spec (rq (snd kv)) 0);
      destruct (Z.gtb_spec (hq (snd kv)) 0); cbn [andb orb b2n]; lia.
Qed.

Lemma stats_add_up_witness :
  let s := calculate_token_stats (normal TokenExamples.pool1) "normal" in
  ("normal" = "normal" ->
   total s = (expired s + unused s + limited s + active s)%nat) /\
  (total s <= expired s + unused s + limited s + active s)%nat.
Proof.
  apply (stats_add_up (normal TokenExamples.pool1) "normal").
  repeat constructor; vm_compute; discriminate.
Defined.

(** A premium record with one quota exhausted and the other one in use is
    counted twice. *)
Example premium_counted_twice :
  calculate_token_stats [("s", TokenExamples.rec_with "active" 0 5 0)] "super"
  = {| total := 1; unused := 0; limited := 1; expired := 0; active := 1 |}.
Proof. reflexivity. Qed.

Lemma count_zero f tokens kv :
  count f tokens = 0%nat -> In kv tokens -> f (snd kv) = false.
Proof.
  induction tokens as [|x tokens IH]; [contradiction|].
  rewrite count_cons. intros H [->|Hin].
  - destruct (f (snd kv)); [discriminate|reflexivity].
  - apply IH; [|assumption]. destruct (f (snd x)); simpl in H; lia.
Qed.

(** X29. When the page shows no unused and no active credential in the
    standard partition, no standard request is served from it: a
    credential handed out for a standard model then comes from the premium
    partition. *)
Theorem no_usable_standard (td : TokenStore) (model key : string) :
  let s := calculate_token_stats (normal td) "normal" in
  (unused s + active s = 0)%nat ->
  String.eqb model "grok-4-heavy" = false ->
  select_token td model = inr key ->
  chosen (super td) "remainingQueries" key /\
  no_candidate (normal td) "remainingQueries".
Proof.
  cbv zeta. unfold calculate_token_stats. cbn [String.eqb Ascii.eqb Bool.eqb].
  cbn [unused active]. intros Hz Hm Hsel.
  pose proof (SelectionProps.select_token_chosen td model) as H.
  cbv zeta in H. rewrite Hsel, Hm in H.
  destruct H as [(pre & data & post & Hl & Hk & Hq)|[Hn Hc]];
    [exfalso|split; assumption].
  assert (Hin : In (key, data) (normal td))
    by (rewrite Hl; apply in_or_app; right; now left).
  assert (Hu : count (fun t => live t && (rq t =? -1)) (normal td) = 0%nat)
    by lia.
  assert (Ha : count (fun t => live t && (rq t >? 0)) (normal td) = 0%nat)
    by lia.
  apply (fun H => count_zero _ _ (key, data) H Hin) in Hu, Ha.
  cbn [snd] in Hu, Ha.
  unfold keptb in Hk. apply andb_prop in Hk. destruct Hk as [Hk _].
  apply andb_prop in Hk. destruct Hk as [Hl' _].
  unfold live, rq in Hu, Ha. rewrite Hl' in Hu, Ha. cbn [andb] in Hu, Ha.
  destruct Hq as [[Hq _]|[Hq _]].
  - rewrite Hq in Hu. discriminate.
  - apply Z.gt_lt, Z.gtb_lt in Hq. congruence.
Qed.

Lemma no_usable_standard_witness :
  let td := {| normal := [("a", TokenExamples.rec_with "expired" 0 5 5);
                          ("c", TokenExamples.rec_with "active" 0 0 (-1))];
               super := super TokenExamples.pool1 |} in
  chosen (super td) "remainingQueries" "t" /\
  no_candidate (normal td) "remainingQueries".
Proof.
  apply (no_usable_standard
           {| normal := [("a", TokenExamples.rec_with "expired" 0 5 5);
                         ("c", TokenExamples.rec_with "active" 0 0 (-1))];
              super := super TokenExamples.pool1 |} "grok-3" "t");
    reflexivity.
Defined.

(** The converse fails: a record with three failures is counted as active
    and never handed out. *)
Example active_not_usable :
  active (calculate_token_stats
            [("b", TokenExamples.rec_with "active" 3 7 (-1))] "normal") = 1%nat
  /\ select_token {| normal := [("b", TokenExamples.rec_with "active" 3 7 (-1))];
                     super := [] |} "grok-3"
     = inl (NO_AVAILABLE_TOKEN "grok-3" 1 0).
Proof. split; reflexivity. Qed.

End AdminStatsProps.
